(** * ISL avatar animation engine and stream manager

    A shallow embedding of [backend/avatar_engine.py] and
    [backend/websocket_handler.py], and the properties the design document
    states about them; then further properties of the same code and of the
    translator of text into gloss of [backend/main.py].

    Conventions of the embedding.
    - Seconds are Python floats in the source.  Here every decimal literal is
      read as the rational number it denotes and arithmetic is exact ([Q]);
      equalities between times are therefore stated with [==].  Where a
      property is about the value of a sum of seconds, the timeline builder
      is given again on binary64, with every addition rounded
      ([Binary64]).
    - Text is a [string] that holds the bytes of the UTF-8 encoding of the
      Python text.  [upper] and [lower] follow Python on ASCII and on the
      nineteen characters outside ASCII whose other case has an ASCII
      character in it, so that a lookup under a key of ASCII, as all keys of
      the program are, gives what it gives in Python; statements that
      compare the two cases of a text are made for ASCII text.  The
      white-space test acts on the ASCII range.
    - A Python [dict] with identity (the joint positions of a keyframe) lives
      in a store of objects and is held by reference, so that sharing between
      the pose library and an emitted keyframe is visible.
    - Exceptions are values of [exn]; a computation that may raise returns a
      sum.  [NoObject] marks a reference to no object of the store, which a
      Python run cannot produce.
    - The [json] and [base64] modules and the UTF-8 codec belong to the
      Python library, not to the program: they are variables of a section,
      and the one property that relies on what they compute assumes their
      round trips. *)

From Stdlib Require Import PrimFloat Ascii String QArith Qround Qabs ZArith Lia Lqa.
From stdpp Require Import gmap strings list fin_maps sorting pretty.

Local Open Scope Q_scope.
Local Set Warnings "-register-all,-inexact-float".

(** ** Python strings *)

Module Str.

Definition is_lower (c : ascii) : bool :=
  let n := nat_of_ascii c in (97 <=? n)%nat && (n <=? 122)%nat.

Definition is_upper (c : ascii) : bool :=
  let n := nat_of_ascii c in (65 <=? n)%nat && (n <=? 90)%nat.

Definition upper_char (c : ascii) : ascii :=
  if is_lower c then ascii_of_nat (nat_of_ascii c - 32) else c.

Definition lower_char (c : ascii) : ascii :=
  if is_upper c then ascii_of_nat (nat_of_ascii c + 32) else c.

(** The case mappings on ASCII text: letter by letter. *)
Fixpoint upper_ascii (s : string) : string :=
  match s with
  | EmptyString => EmptyString
  | String c s' => String (upper_char c) (upper_ascii s')
  end.

Fixpoint lower_ascii (s : string) : string :=
  match s with
  | EmptyString => EmptyString
  | String c s' => String (lower_char c) (lower_ascii s')
  end.

(** [str.isascii()] *)
Definition isascii (s : string) : bool :=
  forallb (fun c => (nat_of_ascii c <? 128)%nat) (list_ascii_of_string s).

(** [s.startswith(p)] *)
Fixpoint startswith (p s : string) : bool :=
  match p with
  | EmptyString => true
  | String a p' =>
      match s with
      | EmptyString => false
      | String b s' => Ascii.eqb a b && startswith p' s'
      end
  end.

(** A text from the bytes of its UTF-8 encoding. *)
Definition bytes (l : list nat) : string :=
  string_of_list_ascii (map ascii_of_nat l).

(** The characters outside ASCII whose upper-case form has an ASCII
    character in it, with that form: U+00DF, U+0131, U+0149, U+017F,
    U+01F0, U+1E96 to U+1E9A and U+FB00 to U+FB06. *)
Definition upper_special : list (string * string) :=
  [ (bytes [195; 159]%nat, "SS");
    (bytes [196; 177]%nat, "I");
    (bytes [197; 137]%nat, bytes [202; 188; 78]%nat);
    (bytes [197; 191]%nat, "S");
    (bytes [199; 176]%nat, bytes [74; 204; 140]%nat);
    (bytes [225; 186; 150]%nat, bytes [72; 204; 177]%nat);
    (bytes [225; 186; 151]%nat, bytes [84; 204; 136]%nat);
    (bytes [225; 186; 152]%nat, bytes [87; 204; 138]%nat);
    (bytes [225; 186; 153]%nat, bytes [89; 204; 138]%nat);
    (bytes [225; 186; 154]%nat, bytes [65; 202; 190]%nat);
    (bytes [239; 172; 128]%nat, "FF");
    (bytes [239; 172; 129]%nat, "FI");
    (bytes [239; 172; 130]%nat, "FL");
    (bytes [239; 172; 131]%nat, "FFI");
    (bytes [239; 172; 132]%nat, "FFL");
    (bytes [239; 172; 133]%nat, "ST");
    (bytes [239; 172; 134]%nat, "ST") ].

(** The characters outside ASCII whose lower-case form has an ASCII
    character in it: U+0130 and the Kelvin sign U+212A. *)
Definition lower_special : list (string * string) :=
  [ (bytes [196; 176]%nat, bytes [105; 204; 135]%nat);
    (bytes [226; 132; 170]%nat, "k") ].

(** The entry of a table that the text starts with: its image, and the
    length of the character. *)
Fixpoint special (table : list (string * string)) (s : string)
    : option (string * nat) :=
  match table with
  | [] => None
  | (p, image) :: table' =>
      if startswith p s then Some (image, String.length p)
      else special table' s
  end.

(** A case mapping: a character of the table gets its image, a letter of
    ASCII the other case, and every other byte stays.  [skip] counts the
    bytes of a character of the table still to be passed over. *)
Fixpoint recase (table : list (string * string)) (f : ascii -> ascii)
    (skip : nat) (s : string) : string :=
  match s with
  | EmptyString => EmptyString
  | String c s' =>
      match skip with
      | S k => recase table f k s'
      | O =>
          match special table s with
          | Some (image, n) => image +:+ recase table f (n - 1) s'
          | None => String (f c) (recase table f 0 s')
          end
      end
  end.

(** [str.upper()] on the UTF-8 encoding of the text.  It is Python's on
    every character of ASCII and on every character whose upper-case form
    has an ASCII character in it; the other characters are left as they
    are, where Python gives their upper-case form, which has no ASCII
    character in it. *)
Definition upper (s : string) : string := recase upper_special upper_char 0 s.

(** [str.lower()], in the same way. *)
Definition lower (s : string) : string := recase lower_special lower_char 0 s.

(** [str.isspace()] on one character: TAB, LF, VT, FF, CR, the four
    separators FS, GS, RS, US, and the blank. *)
Definition is_space (c : ascii) : bool :=
  let n := nat_of_ascii c in
  ((9 <=? n)%nat && (n <=? 13)%nat) || ((28 <=? n)%nat && (n <=? 32)%nat).

(** [str.split()] with no argument: the maximal runs of characters that
    are not white space.  [cur] is the run being read, reversed. *)
Fixpoint split_aux (cur : list ascii) (s : string) : list string :=
  match s with
  | EmptyString =>
      match cur with
      | [] => []
      | _ => [string_of_list_ascii (rev cur)]
      end
  | String c s' =>
      if is_space c then
        match cur with
        | [] => split_aux [] s'
        | _ => string_of_list_ascii (rev cur) :: split_aux [] s'
        end
      else split_aux (c :: cur) s'
  end.

Definition split (s : string) : list string := split_aux [] s.

Fixpoint lstrip (s : string) : string :=
  match s with
  | EmptyString => EmptyString
  | String c s' => if is_space c then lstrip s' else s
  end.

Definition rev_string (s : string) : string :=
  string_of_list_ascii (rev (list_ascii_of_string s)).

(** [str.strip()] *)
Definition strip (s : string) : string :=
  rev_string (lstrip (rev_string (lstrip s))).

(** truth value of a string: non-empty *)
Definition truthy (s : string) : bool :=
  match s with EmptyString => false | _ => true end.

(** [c in s] for a one-character [c] *)
Fixpoint contains (c : ascii) (s : string) : bool :=
  match s with
  | EmptyString => false
  | String d s' => if Ascii.eqb c d then true else contains c s'
  end.

(** [s.count(c)] for a one-character [c] *)
Fixpoint count (c : ascii) (s : string) : nat :=
  match s with
  | EmptyString => 0%nat
  | String d s' => ((if Ascii.eqb c d then 1 else 0) + count c s')%nat
  end.

End Str.

(** ** Data model of the engine *)

(** [Tuple[float, float, float]] *)
Abbreviation vec3 := (Q * Q * Q)%type.

(** The contents of a joint-position [dict], in insertion order. *)
Abbreviation joints := (list (string * vec3)).

(** Address of a [dict] object in the store. *)
Abbreviation ref := nat (only parsing).

(** The store of [dict] objects: the object at address [a] is [h !! a]. *)
Abbreviation heap := (list joints) (only parsing).

Record KeyFrame : Type := mkKeyFrame {
  timestamp : Q;
  joint_positions : ref;
  duration : Q
}.

Record AvatarPose : Type := mkAvatarPose {
  name : string;
  keyframes : list KeyFrame;
  transition_duration : Q
}.

Record ISLGlossMapper : Type := mkISLGlossMapper {
  pose_library : gmap string AvatarPose;
  transition_rules : gmap string (gmap string Q)
}.

Inductive exn : Type :=
| KeyError (key : string)
| IndexError
| NoObject (r : nat).

(** Computations that may raise. *)
Definition result (A : Type) : Type := exn + A.

(** Computations on the store of [dict] objects that may raise. *)
Definition M (A : Type) : Type := heap -> result (A * heap).

Global Instance M_ret : MRet M := fun A a h => inr (a, h).

Global Instance M_bind : MBind M := fun A B k c h =>
  match c h with
  | inl e => inl e
  | inr (a, h') => k a h'
  end.

Definition raise {A} (e : exn) : M A := fun _ => inl e.

Definition lift {A} (r : result A) : M A :=
  fun h => match r with inl e => inl e | inr a => inr (a, h) end.

(** A [dict] display [{...}]: a new object. *)
Definition new_dict (d : joints) : M ref :=
  fun h => inr (length h, h ++ [d]).

(** [d.copy()]: a new object with the entries of [d]. *)
Definition dict_copy (r : ref) : M ref :=
  fun h => match h !! r with
           | Some d => inr (length h, h ++ [d])
           | None => inl (NoObject r)
           end.

(** [KeyFrame(t, {...}, d)] *)
Definition new_keyframe (t : Q) (d : joints) (dur : Q) : M KeyFrame :=
  r ← new_dict d; mret (mkKeyFrame t r dur).

(** A list display of keyframe constructors, evaluated left to right. *)
Fixpoint new_keyframes (l : list (Q * joints * Q)) : M (list KeyFrame) :=
  match l with
  | [] => mret []
  | (t, d, dur) :: l' =>
      k ← new_keyframe t d dur;
      ks ← new_keyframes l';
      mret (k :: ks)
  end.

(** ** [ISLGlossMapper] *)

Definition HELLO_frames : list (Q * joints * Q) :=
  [ (0.0, [("right_hand", (0.3, 0.8, 0.0));
           ("right_wrist", (0.35, 0.75, 0.0));
           ("head", (0.0, 0.0, 0.05))], 0.5);
    (0.5, [("right_hand", (0.4, 0.9, 0.1));
           ("right_wrist", (0.45, 0.85, 0.1));
           ("head", (0.0, 0.0, -0.05))], 0.5);
    (1.0, [("right_hand", (0.3, 0.8, 0.0));
           ("right_wrist", (0.35, 0.75, 0.0));
           ("head", (0.0, 0.0, 0.0))], 0.3) ].

Definition HOW_frames : list (Q * joints * Q) :=
  [ (0.0, [("both_hands", (0.0, 0.6, 0.0));
           ("right_hand", (0.2, 0.6, 0.0));
           ("left_hand", (-0.2, 0.6, 0.0));
           ("eyebrows", (0.0, 0.1, 0.0))], 0.8);
    (0.8, [("both_hands", (0.0, 0.7, 0.1));
           ("right_hand", (0.25, 0.7, 0.1));
           ("left_hand", (-0.25, 0.7, 0.1));
           ("eyebrows", (0.0, 0.15, 0.0))], 0.4) ].

Definition YOU_frames : list (Q * joints * Q) :=
  [ (0.0, [("right_hand", (0.0, 0.7, 0.3));
           ("right_index", (0.0, 0.75, 0.35));
           ("head", (0.0, 0.0, 0.0));
           ("eyes", (0.0, 0.0, 0.1))], 0.6);
    (0.6, [("right_hand", (0.05, 0.7, 0.4));
           ("right_index", (0.05, 0.75, 0.45));
           ("head", (0.0, 0.02, 0.0));
           ("eyes", (0.0, 0.0, 0.15))], 0.4) ].

Definition THANK_YOU_frames : list (Q * joints * Q) :=
  [ (0.0, [("right_hand", (0.0, 0.9, 0.2));
           ("right_palm", (0.0, 0.95, 0.25));
           ("head", (0.0, -0.1, 0.0))], 0.5);
    (0.5, [("right_hand", (0.0, 0.7, 0.4));
           ("right_palm", (0.0, 0.75, 0.45));
           ("head", (0.0, -0.15, 0.0))], 0.8);
    (1.3, [("right_hand", (0.0, 0.6, 0.2));
           ("right_palm", (0.0, 0.65, 0.25));
           ("head", (0.0, 0.0, 0.0))], 0.4) ].

Definition YES_frames : list (Q * joints * Q) :=
  [ (0.0, [("head", (0.0, 0.0, 0.0)); ("neck", (0.0, 0.0, 0.0))], 0.2);
    (0.2, [("head", (0.0, -0.2, 0.0)); ("neck", (0.0, -0.1, 0.0))], 0.3);
    (0.5, [("head", (0.0, 0.1, 0.0)); ("neck", (0.0, 0.05, 0.0))], 0.3);
    (0.8, [("head", (0.0, 0.0, 0.0)); ("neck", (0.0, 0.0, 0.0))], 0.2) ].

Definition NO_frames : list (Q * joints * Q) :=
  [ (0.0, [("head", (0.0, 0.0, 0.0)); ("neck", (0.0, 0.0, 0.0))], 0.1);
    (0.1, [("head", (-0.15, 0.0, 0.0)); ("neck", (-0.1, 0.0, 0.0))], 0.3);
    (0.4, [("head", (0.15, 0.0, 0.0)); ("neck", (0.1, 0.0, 0.0))], 0.3);
    (0.7, [("head", (0.0, 0.0, 0.0)); ("neck", (0.0, 0.0, 0.0))], 0.2) ].

Definition DEFAULT_frames : list (Q * joints * Q) :=
  [ (0.0, [("head", (0.0, 0.0, 0.0));
           ("right_hand", (0.3, 0.5, 0.0));
           ("left_hand", (-0.3, 0.5, 0.0));
           ("torso", (0.0, 0.0, 0.0))], 1.0) ].

(** [poses[nm] = AvatarPose(name=nm, keyframes=[...], transition_duration=td)] *)
Definition add_pose (nm : string) (fr : list (Q * joints * Q)) (td : Q)
    (poses : gmap string AvatarPose) : M (gmap string AvatarPose) :=
  ks ← new_keyframes fr;
  mret (<[nm := mkAvatarPose nm ks td]> poses).

Definition _initialize_pose_library : M (gmap string AvatarPose) :=
  poses ← mret ∅;
  poses ← add_pose "HELLO" HELLO_frames 0.2 poses;
  poses ← add_pose "HOW" HOW_frames 0.3 poses;
  poses ← add_pose "YOU" YOU_frames 0.2 poses;
  poses ← add_pose "THANK-YOU" THANK_YOU_frames 0.3 poses;
  poses ← add_pose "YES" YES_frames 0.1 poses;
  poses ← add_pose "NO" NO_frames 0.1 poses;
  poses ← add_pose "DEFAULT" DEFAULT_frames 0.2 poses;
  mret poses.

Definition _initialize_transition_rules : gmap string (gmap string Q) :=
  list_to_map
    [ ("HELLO", list_to_map [("HOW", 0.3); ("YOU", 0.2); ("DEFAULT", 0.4)]);
      ("HOW", list_to_map [("YOU", 0.2); ("HELLO", 0.3); ("DEFAULT", 0.3)]);
      ("YOU", list_to_map [("HELLO", 0.2); ("DEFAULT", 0.3)]);
      ("THANK-YOU", list_to_map [("DEFAULT", 0.5)]);
      ("YES", list_to_map [("DEFAULT", 0.2)]);
      ("NO", list_to_map [("DEFAULT", 0.2)]);
      ("DEFAULT", list_to_map [("HELLO", 0.3); ("HOW", 0.3); ("YOU", 0.2);
                               ("THANK-YOU", 0.4)]) ].

(** [ISLGlossMapper.__init__] *)
Definition ISLGlossMapper_init : M ISLGlossMapper :=
  lib ← _initialize_pose_library;
  mret (mkISLGlossMapper lib _initialize_transition_rules).

(** [self.pose_library.get(gloss_word.upper(), self.pose_library["DEFAULT"])]:
    the default argument is evaluated first and raises when the key is
    missing. *)
Definition get_pose (m : ISLGlossMapper) (gloss_word : string)
    : result AvatarPose :=
  match pose_library m !! "DEFAULT" with
  | None => inl (KeyError "DEFAULT")
  | Some dflt =>
      inr (default dflt (pose_library m !! Str.upper gloss_word))
  end.

Definition get_transition_duration (m : ISLGlossMapper)
    (from_pose to_pose : string) : Q :=
  let from_rules := default ∅ (transition_rules m !! Str.upper from_pose) in
  default 0.3 (from_rules !! Str.upper to_pose).

(** ** [AvatarAnimationEngine] *)

Record AvatarAnimationEngine : Type := mkAvatarAnimationEngine {
  gloss_mapper : ISLGlossMapper;
  fps : Z;
  video_width : Z;
  video_height : Z
}.

(** [AvatarAnimationEngine.__init__] *)
Definition AvatarAnimationEngine_init : M AvatarAnimationEngine :=
  m ← ISLGlossMapper_init;
  mret (mkAvatarAnimationEngine m 30 400 600).

(** The built-in [sum] over floats: starts from [0] and adds from the left. *)
Definition py_sum (l : list Q) : Q := fold_left Qplus l 0.

(** The inner loop of [_generate_keyframe_sequence]: one adjusted keyframe
    per keyframe of the pose, appended to [acc]. *)
Fixpoint emit_pose (current_time : Q) (pose_kfs : list KeyFrame)
    (acc : list KeyFrame) : M (list KeyFrame) :=
  match pose_kfs with
  | [] => mret acc
  | keyframe :: rest =>
      jp ← dict_copy (joint_positions keyframe);
      let adjusted_keyframe :=
        mkKeyFrame (current_time + timestamp keyframe) jp (duration keyframe) in
      emit_pose current_time rest (acc ++ [adjusted_keyframe])
  end.

(** The variables the outer loop of [_generate_keyframe_sequence] updates. *)
Record loop_state : Type := mkLoopState {
  ls_keyframes : list KeyFrame;
  ls_current_time : Q;
  ls_previous_pose : string
}.

(** One iteration of the outer loop, for the word at index [i]. *)
Definition loop_body (m : ISLGlossMapper) (i : nat) (word : string)
    (st : loop_state) : M loop_state :=
  pose ← lift (get_pose m word);
  let current_time :=
    if (0 <? i)%nat
    then ls_current_time st
         + get_transition_duration m (ls_previous_pose st) word
    else ls_current_time st in
  kfs ← emit_pose current_time (keyframes pose) (ls_keyframes st);
  mret (mkLoopState kfs
         (current_time + py_sum (map duration (keyframes pose)))
         word).

Fixpoint loop (m : ISLGlossMapper) (i : nat) (gloss_words : list string)
    (st : loop_state) : M loop_state :=
  match gloss_words with
  | [] => mret st
  | word :: rest =>
      st' ← loop_body m i word st;
      loop m (S i) rest st'
  end.

(** [xs[0]] *)
Definition first {A} (xs : list A) : result A :=
  match xs with
  | [] => inl IndexError
  | x :: _ => inr x
  end.

Definition _generate_keyframe_sequence (e : AvatarAnimationEngine)
    (gloss_words : list string) : M (list KeyFrame) :=
  let m := gloss_mapper e in
  st ← loop m 0 gloss_words (mkLoopState [] 0.0 "DEFAULT");
  dflt ← lift (get_pose m "DEFAULT");
  k0 ← lift (first (keyframes dflt));
  let rest_keyframe :=
    mkKeyFrame (ls_current_time st + 0.5) (joint_positions k0) 0.5 in
  mret (ls_keyframes st ++ [rest_keyframe]).

(** [_parse_gloss]: both branches of the test on the hyphen append the word
    unchanged. *)
Definition _parse_gloss (isl_gloss : string) : list string :=
  let words :=
    map Str.strip
        (filter (fun word => Str.truthy (Str.strip word) = true)
                (Str.split isl_gloss)) in
  fold_left
    (fun processed_words word =>
       if Str.contains "-" word && (Str.count "-" word =? 1)%nat
       then processed_words ++ [word]
       else processed_words ++ [word])
    words [].


(** ** The engine of the module: [animation_engine = AvatarAnimationEngine()] *)

Definition boot : result (AvatarAnimationEngine * heap) :=
  AvatarAnimationEngine_init [].

Definition animation_engine : AvatarAnimationEngine :=
  match boot with
  | inr (e, _) => e
  | inl _ => mkAvatarAnimationEngine (mkISLGlossMapper ∅ ∅) 0 0 0
  end.

(** The store once the module is loaded: the dicts of the pose library. *)
Definition library_heap : heap :=
  match boot with
  | inr (_, h) => h
  | inl _ => []
  end.


(** ** Python values *)

(** The values that travel between the engine, the cache and the socket:
    what [json.dumps] accepts.  A dict is its list of items in insertion
    order. *)
Inductive value : Type :=
| VNone
| VBool (b : bool)
| VInt (n : Z)
| VFloat (x : Q)
| VStr (s : string)
| VTuple (items : list value)
| VList (items : list value)
| VDict (entries : list (string * value)).

Abbreviation dict := (list (string * value)).

(** [d.get(key)] on the items of a dict *)
Fixpoint assoc {V} (key : string) (d : list (string * V)) : option V :=
  match d with
  | [] => None
  | (k, v) :: d' => if String.eqb key k then Some v else assoc key d'
  end.

(** [d.get(key, dflt)] *)
Definition dict_get {V} (d : list (string * V)) (key : string) (dflt : V) : V :=
  default dflt (assoc key d).

(** [d[key] = v] on the items of a dict: the position of an existing key is
    kept, a new key goes last. *)
Fixpoint dict_set {V} (d : list (string * V)) (key : string) (v : V)
    : list (string * V) :=
  match d with
  | [] => [(key, v)]
  | (k, x) :: d' =>
      if String.eqb key k then (k, v) :: d' else (k, x) :: dict_set d' key v
  end.

(** What [json.loads(json.dumps(v))] is for a value [v]: a tuple comes back
    as a list. *)
Fixpoint json_image (v : value) : value :=
  match v with
  | VTuple items => VList (map json_image items)
  | VList items => VList (map json_image items)
  | VDict entries => VDict (map (fun kv => (kv.1, json_image kv.2)) entries)
  | _ => v
  end.

(** A joint-position dict as a value: each position is a tuple of three
    floats. *)
Definition vec3_value (p : vec3) : value :=
  let '(x, y, z) := p in VTuple [VFloat x; VFloat y; VFloat z].

Definition joints_value (d : joints) : value :=
  VDict (map (fun kv => (kv.1, vec3_value kv.2)) d).

(** ** Numbers *)

(** [int(x)] of a float: towards zero. *)
Definition py_int (x : Q) : Z := Z.quot (Qnum x) (Zpos (Qden x)).

(** The nearest integer, ties to the even one. *)
Definition round_half_even (x : Q) : Z :=
  let f := Qfloor x in
  match Qcompare (x - inject_Z f) (1 # 2) with
  | Lt => f
  | Gt => (f + 1)%Z
  | Eq => if Z.even f then f else (f + 1)%Z
  end.

(** [round(x, 2)] *)
Definition py_round2 (x : Q) : Q := inject_Z (round_half_even (x * 100)) / 100.

Definition pad2 (n : Z) : string :=
  if (n <? 10)%Z then "0" +:+ pretty n else pretty n.

(** The format [{x:.2f}] *)
Definition format_2f (x : Q) : string :=
  let n := round_half_even (Qabs x * 100) in
  (match Qcompare x 0 with Lt => "-" | _ => EmptyString end)
  +:+ pretty (n / 100)%Z +:+ "." +:+ pad2 (n mod 100)%Z.

(** [r] read as a dict object of the store. *)
Definition deref (r : ref) : M joints :=
  fun h => match h !! r with
           | Some d => inr (d, h)
           | None => inl (NoObject r)
           end.

Definition dq : string := String (ascii_of_nat 34) EmptyString.

Definition nl : string := String (ascii_of_nat 10) EmptyString.

(** The f-string of [_create_visual_frame]. *)
Definition svg_text (width height head_x head_y right_hand_x right_hand_y
    left_hand_x left_hand_y : Z) (frame_number : nat) (ts : Q) : string :=
  String.concat EmptyString
    [ nl;
      "        <svg width="; dq; pretty width; dq; " height="; dq; pretty height; dq; " xmlns="; dq; "http://www.w3.org/2000/svg"; dq; ">"; nl;
      "            <!-- Background -->"; nl;
      "            <rect width="; dq; pretty width; dq; " height="; dq; pretty height; dq; " fill="; dq; "#f0f8ff"; dq; "/>"; nl;
      "            "; nl;
      "            <!-- Body -->"; nl;
      "            <ellipse cx="; dq; pretty (width / 2)%Z; dq; " cy="; dq; pretty (height / 2)%Z; dq; " rx="; dq; "40"; dq; " ry="; dq; "80"; dq; " fill="; dq; "#fdbcb4"; dq; " stroke="; dq; "#333"; dq; " stroke-width="; dq; "2"; dq; "/>"; nl;
      "            "; nl;
      "            <!-- Head -->"; nl;
      "            <circle cx="; dq; pretty head_x; dq; " cy="; dq; pretty head_y; dq; " r="; dq; "35"; dq; " fill="; dq; "#fdbcb4"; dq; " stroke="; dq; "#333"; dq; " stroke-width="; dq; "2"; dq; "/>"; nl;
      "            "; nl;
      "            <!-- Eyes -->"; nl;
      "            <circle cx="; dq; pretty (head_x - 12)%Z; dq; " cy="; dq; pretty (head_y - 5)%Z; dq; " r="; dq; "3"; dq; " fill="; dq; "#333"; dq; "/>"; nl;
      "            <circle cx="; dq; pretty (head_x + 12)%Z; dq; " cy="; dq; pretty (head_y - 5)%Z; dq; " r="; dq; "3"; dq; " fill="; dq; "#333"; dq; "/>"; nl;
      "            "; nl;
      "            <!-- Nose -->"; nl;
      "            <ellipse cx="; dq; pretty head_x; dq; " cy="; dq; pretty (head_y + 5)%Z; dq; " rx="; dq; "2"; dq; " ry="; dq; "4"; dq; " fill="; dq; "#333"; dq; "/>"; nl;
      "            "; nl;
      "            <!-- Mouth -->"; nl;
      "            <path d="; dq; "M "; pretty (head_x - 8)%Z; " "; pretty (head_y + 15)%Z; " Q "; pretty head_x; " "; pretty (head_y + 20)%Z; " "; pretty (head_x + 8)%Z; " "; pretty (head_y + 15)%Z; dq; " "; nl;
      "                  stroke="; dq; "#333"; dq; " stroke-width="; dq; "2"; dq; " fill="; dq; "none"; dq; "/>"; nl;
      "            "; nl;
      "            <!-- Right Arm -->"; nl;
      "            <line x1="; dq; pretty (width / 2 + 25)%Z; dq; " y1="; dq; pretty (height / 2 - 40)%Z; dq; " x2="; dq; pretty right_hand_x; dq; " y2="; dq; pretty right_hand_y; dq; " "; nl;
      "                  stroke="; dq; "#fdbcb4"; dq; " stroke-width="; dq; "15"; dq; " stroke-linecap="; dq; "round"; dq; "/>"; nl;
      "            "; nl;
      "            <!-- Left Arm -->"; nl;
      "            <line x1="; dq; pretty (width / 2 - 25)%Z; dq; " y1="; dq; pretty (height / 2 - 40)%Z; dq; " x2="; dq; pretty left_hand_x; dq; " y2="; dq; pretty left_hand_y; dq; " "; nl;
      "                  stroke="; dq; "#fdbcb4"; dq; " stroke-width="; dq; "15"; dq; " stroke-linecap="; dq; "round"; dq; "/>"; nl;
      "            "; nl;
      "            <!-- Right Hand -->"; nl;
      "            <circle cx="; dq; pretty right_hand_x; dq; " cy="; dq; pretty right_hand_y; dq; " r="; dq; "12"; dq; " fill="; dq; "#fdbcb4"; dq; " stroke="; dq; "#333"; dq; " stroke-width="; dq; "2"; dq; "/>"; nl;
      "            "; nl;
      "            <!-- Left Hand -->"; nl;
      "            <circle cx="; dq; pretty left_hand_x; dq; " cy="; dq; pretty left_hand_y; dq; " r="; dq; "12"; dq; " fill="; dq; "#fdbcb4"; dq; " stroke="; dq; "#333"; dq; " stroke-width="; dq; "2"; dq; "/>"; nl;
      "            "; nl;
      "            <!-- Frame indicator -->"; nl;
      "            <text x="; dq; "10"; dq; " y="; dq; "25"; dq; " font-family="; dq; "Arial"; dq; " font-size="; dq; "14"; dq; " fill="; dq; "#666"; dq; ">Frame "; pretty frame_number; "</text>"; nl;
      "            <text x="; dq; "10"; dq; " y="; dq; "45"; dq; " font-family="; dq; "Arial"; dq; " font-size="; dq; "12"; dq; " fill="; dq; "#666"; dq; ">T: "; format_2f ts; "s</text>"; nl;
      "        </svg>"; nl;
      "        " ].

(** ** Packaging *)

Section Library.

(** [json.dumps(v, separators=(',', ':'))] *)
Variable json_dumps_compact : value -> string.

(** [json.dumps(v)] *)
Variable json_dumps : value -> string.

(** [json.loads(s)]; [None] when it raises. *)
Variable json_loads : string -> option value.

(** [base64.b64encode(b).decode('utf-8')] *)
Variable b64encode : string -> string.

(** [base64.b64decode(s)]; [None] when it raises. *)
Variable b64decode : string -> option string.

(** [s.encode('utf-8')] *)
Variable utf8_encode : string -> string.

(** [b.decode('utf-8')]; [None] when it raises. *)
Variable utf8_decode : string -> option string.

Definition _create_visual_frame (e : AvatarAnimationEngine)
    (jp : joints) (ts : Q) (frame_number : nat) : value :=
  let width := video_width e in
  let height := video_height e in
  let head_pos := dict_get jp "head" (0.0, 0.0, 0.0) in
  let right_hand_pos := dict_get jp "right_hand" (0.3, 0.5, 0.0) in
  let left_hand_pos := dict_get jp "left_hand" (-0.3, 0.5, 0.0) in
  let head_x := (width / 2 + py_int (head_pos.1.1 * inject_Z width * 0.3))%Z in
  let head_y :=
    py_int (inject_Z height * 0.25 + head_pos.1.2 * inject_Z height * 0.1) in
  let right_hand_x :=
    (width / 2 + py_int (right_hand_pos.1.1 * inject_Z width))%Z in
  let right_hand_y :=
    py_int (inject_Z height * 0.4
            + (1 - right_hand_pos.1.2) * inject_Z height * 0.4) in
  let left_hand_x :=
    (width / 2 + py_int (left_hand_pos.1.1 * inject_Z width))%Z in
  let left_hand_y :=
    py_int (inject_Z height * 0.4
            + (1 - left_hand_pos.1.2) * inject_Z height * 0.4) in
  let svg_content :=
    svg_text width height head_x head_y right_hand_x right_hand_y
             left_hand_x left_hand_y frame_number ts in
  let svg_base64 := b64encode (utf8_encode svg_content) in
  let data_url := "data:image/svg+xml;base64," +:+ svg_base64 in
  VDict [ ("type", VStr "svg");
          ("data_url", VStr data_url);
          ("width", VInt width);
          ("height", VInt height);
          ("svg_content", VStr (Str.strip svg_content)) ].

(** The dict built for the keyframe at index [i] of [n]. *)
Definition frame_data (e : AvatarAnimationEngine) (n i : nat)
    (keyframe : KeyFrame) : M value :=
  jp ← deref (joint_positions keyframe);
  mret (VDict
          [ ("frame_number", VInt (Z.of_nat i));
            ("timestamp", VFloat (timestamp keyframe));
            ("duration", VFloat (duration keyframe));
            ("joint_positions", joints_value jp);
            ("interpolation",
             VStr (if (Z.of_nat i <? Z.of_nat n - 1)%Z
                   then "linear" else "hold"));
            ("visual_frame",
             _create_visual_frame e jp (timestamp keyframe) i) ]).

(** The loop of [_generate_video_frames] over [enumerate(keyframes)], from
    index [i] on. *)
Fixpoint animation_frames (e : AvatarAnimationEngine) (n i : nat)
    (kfs : list KeyFrame) : M (list value) :=
  match kfs with
  | [] => mret []
  | keyframe :: rest =>
      f ← frame_data e n i keyframe;
      fs ← animation_frames e n (S i) rest;
      mret (f :: fs)
  end.

Definition video_metadata (e : AvatarAnimationEngine)
    (kfs : list KeyFrame) (frames : list value) : value :=
  VDict [ ("format", VStr "isl_animation_data");
          ("version", VStr "1.0");
          ("frames", VList frames);
          ("total_frames", VInt (Z.of_nat (length frames)));
          ("duration",
           match last kfs with
           | Some k => VFloat (timestamp k + duration k)
           | None => VInt 0
           end);
          ("fps", VInt (fps e));
          ("width", VInt (video_width e));
          ("height", VInt (video_height e)) ].

Definition _generate_video_frames (e : AvatarAnimationEngine)
    (kfs : list KeyFrame) : M string :=
  frames ← animation_frames e (length kfs) 0 kfs;
  let json_data := json_dumps_compact (video_metadata e kfs frames) in
  mret (b64encode (utf8_encode json_data)).

(** [generate_animation_sequence]; [clock k] is what the [k]-th call of
    [time.time()] returns. *)
Definition generate_animation_sequence (e : AvatarAnimationEngine)
    (clock : nat -> Q) (isl_gloss : string) : M dict :=
  let start_time := clock 0%nat in
  let gloss_words := _parse_gloss isl_gloss in
  kfs ← _generate_keyframe_sequence e gloss_words;
  let total_duration := py_sum (map duration kfs) in
  let frame_count := py_int (total_duration * inject_Z (fps e)) in
  video_data ← _generate_video_frames e kfs;
  let processing_time := (clock 1%nat - start_time) * 1000 in
  mret [ ("gloss_input", VStr isl_gloss);
         ("parsed_words", VList (map VStr gloss_words));
         ("total_duration_seconds", VFloat (py_round2 total_duration));
         ("frame_count", VInt frame_count);
         ("fps", VInt (fps e));
         ("resolution",
          VStr (pretty (video_width e) +:+ "x" +:+ pretty (video_height e)));
         ("keyframe_count", VInt (Z.of_nat (length kfs)));
         ("video_format", VStr "webm");
         ("video_data_base64", VStr video_data);
         ("processing_time_ms", VFloat (py_round2 processing_time));
         ("timestamp", VFloat (clock 2%nat)) ].


(** The dict [generate_avatar_animation] returns in place of the animation
    when the generation raises; [message] is [str(e)]. *)
Definition fallback_data (isl_gloss message : string) (now : Q) : dict :=
  [ ("gloss_input", VStr isl_gloss);
    ("error", VStr message);
    ("fallback", VBool true);
    ("processing_time_ms", VInt 0);
    ("timestamp", VFloat now) ].


(** ** The stream manager *)

(** A [WebSocket]: its identity, and [websocket.client.host] when
    [websocket.client] is set. *)
Record WebSocket : Type := mkWebSocket {
  ws_id : nat;
  ws_client : option string
}.

(** The dict kept per connection. *)
Record ConnectionMetadata : Type := mkConnectionMetadata {
  connected_at : Q;
  client_ip : string;
  frames_sent : Z;
  last_activity : Q
}.

Record AvatarStreamManager : Type := mkAvatarStreamManager {
  active_connections : gmap string WebSocket;
  animation_cache : gmap string dict;
  connection_metadata : gmap string ConnectionMetadata
}.

(** [AvatarStreamManager.__init__] *)
Definition AvatarStreamManager_init : AvatarStreamManager :=
  mkAvatarStreamManager ∅ ∅ ∅.

(** What the manager does to the outside, in order.  [ok] is [false] when
    the call raised. *)
Inductive event : Type :=
| Accept (ws : nat) (ok : bool)
| SendText (ws : nat) (text : string) (ok : bool)
| Sleep (seconds : Q).

(** The manager and its surroundings.  [transport n] tells whether the call
    on a socket made after [n] events returns; [wall_clock k] is the [k]-th
    reading of the clock.  Both are arbitrary, so a statement for every
    world covers every behaviour of the peers and of the clock.  A call of
    the manager runs to its end before another one starts. *)
Record World : Type := mkWorld {
  manager : AvatarStreamManager;
  trace : list event;
  transport : nat -> bool;
  wall_clock : nat -> Q;
  clock_reads : nat
}.

Definition W (A : Type) : Type := World -> A * World.

Global Instance W_ret : MRet W := fun A a w => (a, w).

Global Instance W_bind : MBind W := fun A B k c w =>
  let '(a, w') := c w in k a w'.

Definition get_manager : W AvatarStreamManager := fun w => (manager w, w).

Definition set_manager (m : AvatarStreamManager) : W unit :=
  fun w => (tt, mkWorld m (trace w) (transport w) (wall_clock w) (clock_reads w)).

(** [time.time()] and [datetime.now()] *)
Definition time_time : W Q :=
  fun w => (wall_clock w (clock_reads w),
            mkWorld (manager w) (trace w) (transport w) (wall_clock w)
                    (S (clock_reads w))).

Definition emit (ev : event) : W unit :=
  fun w => (tt, mkWorld (manager w) (trace w ++ [ev]) (transport w)
                        (wall_clock w) (clock_reads w)).

Definition transport_outcome : W bool :=
  fun w => (transport w (length (trace w)), w).

(** [await websocket.accept()] *)
Definition ws_accept (ws : WebSocket) : W bool :=
  ok ← transport_outcome; emit (Accept (ws_id ws) ok);; mret ok.

(** [await websocket.send_text(text)] *)
Definition ws_send_text (ws : WebSocket) (text : string) : W bool :=
  ok ← transport_outcome; emit (SendText (ws_id ws) text ok);; mret ok.

(** [await asyncio.sleep(seconds)] *)
Definition asyncio_sleep (seconds : Q) : W unit := emit (Sleep seconds).

(** [connect]; [false] when [accept()] raised, which leaves [connect]
    before any assignment. *)
Definition connect (websocket : WebSocket) (stream_id : string) : W bool :=
  ok ← ws_accept websocket;
  if (ok : bool) then
    m ← get_manager;
    let active := <[stream_id := websocket]> (active_connections m) in
    t1 ← time_time;
    t2 ← time_time;
    let md := mkConnectionMetadata t1 (default "unknown" (ws_client websocket))
                                   0 t2 in
    set_manager (mkAvatarStreamManager active (animation_cache m)
                   (<[stream_id := md]> (connection_metadata m)));;
    mret true
  else mret false.

Definition disconnect (stream_id : string) : W unit :=
  m ← get_manager;
  let active :=
    match active_connections m !! stream_id with
    | Some _ => delete stream_id (active_connections m)
    | None => active_connections m
    end in
  match connection_metadata m !! stream_id with
  | Some _ =>
      _ ← time_time;
      set_manager (mkAvatarStreamManager active (animation_cache m)
                     (delete stream_id (connection_metadata m)))
  | None =>
      set_manager (mkAvatarStreamManager active (animation_cache m)
                     (connection_metadata m))
  end.

Definition store_animation_data (stream_id : string) (animation_data : dict)
    : W unit :=
  m ← get_manager;
  now ← time_time;
  set_manager
    (mkAvatarStreamManager (active_connections m)
       (<[stream_id := dict_set animation_data "cached_at" (VFloat now)]>
          (animation_cache m))
       (connection_metadata m)).

Definition send_animation_frame (stream_id : string) (frame_data : value)
    : W bool :=
  m ← get_manager;
  match active_connections m !! stream_id with
  | None => mret false
  | Some websocket =>
      ok ← ws_send_text websocket (json_dumps frame_data);
      if (ok : bool) then
        match connection_metadata m !! stream_id with
        | Some md =>
            now ← time_time;
            set_manager
              (mkAvatarStreamManager (active_connections m) (animation_cache m)
                 (<[stream_id :=
                      mkConnectionMetadata (connected_at md) (client_ip md)
                        (frames_sent md + 1) now]> (connection_metadata m)));;
            mret true
        | None => mret true
        end
      else
        disconnect stream_id;; mret false
  end.

Definition error_frame (stream_id error_code error_message : string)
    (now : Q) : value :=
  VDict [ ("type", VStr "error");
          ("stream_id", VStr stream_id);
          ("error", VDict [ ("code", VStr error_code);
                            ("message", VStr error_message);
                            ("timestamp", VFloat now) ]) ].

Definition send_error (stream_id error_code error_message : string) : W unit :=
  now ← time_time;
  _ ← send_animation_frame stream_id
        (error_frame stream_id error_code error_message now);
  mret tt.

(** Truth value of a Python value. *)
Definition truthy (v : value) : bool :=
  match v with
  | VNone => false
  | VBool b => b
  | VInt n => negb (n =? 0)%Z
  | VFloat x => negb (Qeq_bool x 0)
  | VStr s => Str.truthy s
  | VTuple items | VList items => match items with [] => false | _ => true end
  | VDict entries => match entries with [] => false | _ => true end
  end.

(** The integers that Python converts to a float: those of magnitude below
    [2^1024 - 2^970], which round to a double.  For the others the
    conversion raises [OverflowError]. *)
Definition in_double_range (n : Z) : bool :=
  (Z.abs n <? 2 ^ 1024 - 2 ^ 970)%Z.

(** A value as the other operand of an operation with a float: [None] stands
    for [TypeError] and, for an integer that no double holds, for
    [OverflowError]. *)
Definition as_number (v : value) : option Q :=
  match v with
  | VBool b => Some (if b then 1 else 0)
  | VInt n => if in_double_range n then Some (inject_Z n) else None
  | VFloat x => Some x
  | _ => None
  end.

(** [1.0 / v]; [None] stands for [TypeError], [OverflowError] and
    [ZeroDivisionError]. *)
Definition one_over (v : value) : option Q :=
  x ← as_number v; if Qeq_bool x 0 then None else Some (1.0 / x).


(** What [for frame in v] and [len(v)] see; [None] stands for
    [TypeError]. *)
Definition items_of (v : value) : option (list value) :=
  match v with
  | VTuple items | VList items => Some items
  | VStr s => Some (map (fun c => VStr (String c EmptyString))
                        (list_ascii_of_string s))
  | VDict entries => Some (map (fun kv => VStr kv.1) entries)
  | _ => None
  end.

(** [base64.b64decode(v)], [.decode('utf-8')], [json.loads], and the two
    [.get] on the result, which must be a dict. *)
Definition decode_animation (v : value) : option (value * value) :=
  match v with
  | VStr s =>
      decoded_data ← b64decode s;
      text ← utf8_decode decoded_data;
      animation_json ← json_loads text;
      match animation_json with
      | VDict entries =>
          Some (dict_get entries "frames" (VList []),
                dict_get entries "fps" (VInt 30))
      | _ => None
      end
  | _ => None
  end.

Definition metadata_message (stream_id : string) (animation_data : dict)
    (now : Q) : value :=
  VDict [ ("type", VStr "animation_metadata");
          ("stream_id", VStr stream_id);
          ("data",
           VDict [ ("total_duration",
                    dict_get animation_data "total_duration_seconds" (VInt 0));
                   ("frame_count",
                    dict_get animation_data "frame_count" (VInt 0));
                   ("fps", dict_get animation_data "fps" (VInt 30));
                   ("resolution",
                    dict_get animation_data "resolution" (VStr "400x600"));
                   ("gloss_input",
                    dict_get animation_data "gloss_input" (VStr EmptyString));
                   ("parsed_words",
                    dict_get animation_data "parsed_words" (VList [])) ]);
          ("timestamp", VFloat now) ].

Definition frame_message (stream_id : string) (frame : value) (now : Q)
    : value :=
  VDict [ ("type", VStr "animation_frame");
          ("stream_id", VStr stream_id);
          ("data", frame);
          ("timestamp", VFloat now) ].

Definition completion_message (stream_id : string) (n : nat)
    (animation_data : dict) (now : Q) : value :=
  VDict [ ("type", VStr "animation_complete");
          ("stream_id", VStr stream_id);
          ("data",
           VDict [ ("frames_sent", VInt (Z.of_nat n));
                   ("total_duration",
                    dict_get animation_data "total_duration_seconds" (VInt 0)) ]);
          ("timestamp", VFloat now) ].

(** The loop over the frames: it stops at the first frame that could not be
    sent. *)
Fixpoint stream_frames (stream_id : string) (frame_duration : Q)
    (frames : list value) : W unit :=
  match frames with
  | [] => mret tt
  | frame :: rest =>
      now ← time_time;
      ok ← send_animation_frame stream_id (frame_message stream_id frame now);
      if (ok : bool) then
        asyncio_sleep frame_duration;;
        stream_frames stream_id frame_duration rest
      else mret tt
  end.

Definition stream_animation (stream_id : string) : W unit :=
  m ← get_manager;
  match animation_cache m !! stream_id with
  | None =>
      send_error stream_id "ANIMATION_NOT_FOUND" "Animation data not available"
  | Some animation_data =>
      match active_connections m !! stream_id with
      | None => mret tt
      | Some _ =>
          now ← time_time;
          ok ← send_animation_frame stream_id
                 (metadata_message stream_id animation_data now);
          if (ok : bool) then
            let video_data_base64 :=
              dict_get animation_data "video_data_base64" (VStr EmptyString) in
            if truthy video_data_base64 then
              match decode_animation video_data_base64 with
              | Some (frames, fps_value) =>
                  match one_over fps_value, items_of frames with
                  | Some frame_duration, Some frame_list =>
                      stream_frames stream_id frame_duration frame_list;;
                      now' ← time_time;
                      _ ← send_animation_frame stream_id
                            (completion_message stream_id (length frame_list)
                               animation_data now');
                      mret tt
                  | _, _ =>
                      send_error stream_id "DECODE_ERROR"
                        "Failed to decode animation data"
                  end
              | None =>
                  send_error stream_id "DECODE_ERROR"
                    "Failed to decode animation data"
              end
            else
              send_error stream_id "NO_ANIMATION_DATA"
                "No animation frames available"
          else mret tt
      end
  end.

(** The test of [cleanup_expired_streams] on one entry of the cache:
    [current_time - data.get("cached_at", 0) > max_age_seconds].  [None]
    stands for the exception that the subtraction raises when [cached_at]
    is no number. *)
Definition expired (current_time max_age_seconds : Q) (data : dict)
    : option bool :=
  cached_at ← as_number (dict_get data "cached_at" (VInt 0));
  Some (negb (Qle_bool (current_time - cached_at) max_age_seconds)).

(** [cleanup_expired_streams]: the first loop tests every entry, the second
    one deletes the entries found too old.  When the test raises on an
    entry the call ends in the first loop, before anything is deleted; the
    result is then [false]. *)
Definition cleanup_expired_streams (max_age_seconds : Q) : W bool :=
  m ← get_manager;
  current_time ← time_time;
  if decide (filter (fun kv => expired current_time max_age_seconds kv.2 = None)
                    (animation_cache m) = ∅)
  then
    set_manager
      (mkAvatarStreamManager (active_connections m)
         (filter (fun kv => expired current_time max_age_seconds kv.2
                            = Some false)
                 (animation_cache m))
         (connection_metadata m));;
    mret true
  else mret false.

Definition get_active_connections_count : W nat :=
  m ← get_manager; mret (size (active_connections m)).

(** One call on the manager. *)
Inductive call : Type :=
| Connect (websocket : WebSocket) (stream_id : string)
| Disconnect (stream_id : string)
| StoreAnimationData (stream_id : string) (animation_data : dict)
| SendAnimationFrame (stream_id : string) (frame_data : value)
| StreamAnimation (stream_id : string)
| SendError (stream_id error_code error_message : string)
| CleanupExpiredStreams (max_age_seconds : Q).

Definition run_call (c : call) : W unit :=
  match c with
  | Connect websocket stream_id => _ ← connect websocket stream_id; mret tt
  | Disconnect stream_id => disconnect stream_id
  | StoreAnimationData stream_id animation_data =>
      store_animation_data stream_id animation_data
  | SendAnimationFrame stream_id frame_data =>
      _ ← send_animation_frame stream_id frame_data; mret tt
  | StreamAnimation stream_id => stream_animation stream_id
  | SendError stream_id error_code error_message =>
      send_error stream_id error_code error_message
  | CleanupExpiredStreams max_age_seconds =>
      _ ← cleanup_expired_streams max_age_seconds; mret tt
  end.

Fixpoint run_calls (cs : list call) : W unit :=
  match cs with
  | [] => mret tt
  | c :: cs' => run_call c;; run_calls cs'
  end.

End Library.

(** The world when the module is loaded:
    [avatar_stream_manager = AvatarStreamManager()]. *)
Definition initial_world (transport : nat -> bool) (wall_clock : nat -> Q)
    : World :=
  mkWorld AvatarStreamManager_init [] transport wall_clock 0.

(** ** The timeline builder on binary64

    [_generate_keyframe_sequence] once more, with the seconds as the
    doubles that Python holds: every addition is rounded to the nearest
    double.  The poses are those of the library, whose decimal literals are
    read as the doubles nearest to them; the store and the exceptions are
    those of the engine. *)

Module Binary64.

Local Open Scope float_scope.

(** A positive integer as a double; exact below 2^53. *)
Fixpoint of_pos (p : positive) : float :=
  match p with
  | xH => 1
  | xO p' => 2 * of_pos p'
  | xI p' => 2 * of_pos p' + 1
  end.

Definition of_Z (z : Z) : float :=
  match z with
  | Z0 => 0
  | Zpos p => of_pos p
  | Zneg p => - of_pos p
  end.

(** The double that a decimal literal of the source denotes: the one
    nearest to the rational number written.  A quotient of doubles is
    rounded to the nearest double, and the numerator and the denominator
    of the literal are doubles when they are [small]. *)
Definition literal (q : Q) : float := of_Z (Qnum q) / of_pos (Qden q).

Definition small (q : Q) : bool :=
  (Z.abs (Qnum q) <? 2 ^ 53)%Z && (Zpos (Qden q) <? 2 ^ 53)%Z.

(** A keyframe of the pose library, and the doubles it holds. *)
Definition library_keyframe : Type := KeyFrame.

Definition timestamp_of (keyframe : library_keyframe) : float :=
  literal (timestamp keyframe).

Definition duration_of (keyframe : library_keyframe) : float :=
  literal (duration keyframe).

Definition joint_positions_of (keyframe : library_keyframe) : ref :=
  joint_positions keyframe.

(** A keyframe that the builder emits. *)
Record KeyFrame : Type := mkKeyFrame {
  timestamp : float;
  joint_positions : ref;
  duration : float
}.

(** The variables the outer loop updates. *)
Record loop_state : Type := mkLoopState {
  ls_keyframes : list KeyFrame;
  ls_current_time : float;
  ls_previous_pose : string
}.

(** The durations that [sum] adds up for a token. *)
Definition pose_keyframe_durations (m : ISLGlossMapper) (word : string)
    : list float :=
  match get_pose m word with
  | inr pose => map duration_of (keyframes pose)
  | inl _ => []
  end.

Section Builder.

(** The built-in [sum] on a list of floats.  CPython adds from the left
    ([sum_left] below), and from version 3.12 on it also carries a
    correction for the rounding along ([sum_compensated]); the builder is
    given for either. *)
Variable py_sum : list float -> float.

(** The inner loop: one adjusted keyframe per keyframe of the pose,
    appended to [acc]. *)
Fixpoint emit_pose (current_time : float) (pose_kfs : list library_keyframe)
    (acc : list KeyFrame) : M (list KeyFrame) :=
  match pose_kfs with
  | [] => mret acc
  | keyframe :: rest =>
      jp ← dict_copy (joint_positions_of keyframe);
      let adjusted_keyframe :=
        mkKeyFrame (current_time + timestamp_of keyframe) jp
                   (duration_of keyframe) in
      emit_pose current_time rest (acc ++ [adjusted_keyframe])
  end.

(** One iteration of the outer loop, for the word at index [i]. *)
Definition loop_body (m : ISLGlossMapper) (i : nat) (word : string)
    (st : loop_state) : M loop_state :=
  pose ← lift (get_pose m word);
  let current_time :=
    if (0 <? i)%nat
    then ls_current_time st
         + literal (get_transition_duration m (ls_previous_pose st) word)
    else ls_current_time st in
  kfs ← emit_pose current_time (keyframes pose) (ls_keyframes st);
  mret (mkLoopState kfs
         (current_time + py_sum (map duration_of (keyframes pose)))
         word).

Fixpoint loop (m : ISLGlossMapper) (i : nat) (gloss_words : list string)
    (st : loop_state) : M loop_state :=
  match gloss_words with
  | [] => mret st
  | word :: rest =>
      st' ← loop_body m i word st;
      loop m (S i) rest st'
  end.

Definition _generate_keyframe_sequence (e : AvatarAnimationEngine)
    (gloss_words : list string) : M (list KeyFrame) :=
  let m := gloss_mapper e in
  st ← loop m 0 gloss_words (mkLoopState [] 0.0 "DEFAULT");
  dflt ← lift (get_pose m "DEFAULT");
  k0 ← lift (first (keyframes dflt));
  let rest_keyframe :=
    mkKeyFrame (ls_current_time st + 0.5) (joint_positions_of k0) 0.5 in
  mret (ls_keyframes st ++ [rest_keyframe]).

(** The clock of the design document, by itself: from [current_time], for
    each token in turn, the transition from the token before it, but for
    the token of index 0, and then the sum of the durations of the
    keyframes of its pose. *)
Fixpoint clock (m : ISLGlossMapper) (i : nat) (previous_pose : string)
    (current_time : float) (gloss_words : list string) : float :=
  match gloss_words with
  | [] => current_time
  | word :: rest =>
      let current_time :=
        if (0 <? i)%nat
        then current_time
             + literal (get_transition_duration m previous_pose word)
        else current_time in
      clock m (S i) word
        (current_time + py_sum (pose_keyframe_durations m word)) rest
  end.

End Builder.

(** [sum] as CPython has it up to version 3.11: from 0, adding from the
    left. *)
Definition sum_left (l : list float) : float := fold_left PrimFloat.add l 0.

(** [sum] as CPython has it from version 3.12 on: the additions from the
    left, and next to them the sum [c] of what their rounding lost, which
    is added at the end when it is finite and not zero. *)
Definition compensate (st : float * float) (x : float) : float * float :=
  let '(f_result, c) := st in
  let t := f_result + x in
  (t, if PrimFloat.abs x <=? PrimFloat.abs f_result
      then c + ((f_result - t) + x)
      else c + ((x - t) + f_result)).

Definition sum_compensated (l : list float) : float :=
  let '(f_result, c) := fold_left compensate l (0, 0) in
  if negb (PrimFloat.is_zero c) && PrimFloat.is_finite c
  then f_result + c
  else f_result.

(** The sum that the design document writes for the rest keyframe, with
    every addition on doubles: the transitions, plus the durations of the
    keyframes of the poses, plus 0.5. *)
Definition stated_sum (transitions durations : list Q) : float :=
  sum_left (map literal transitions) + sum_left (map literal durations) + 0.5.

End Binary64.

(** ** A reference codec

    A small wire format for values, with its decoder, to show that what is
    assumed of the library can be had: numbers in binary, least significant
    digit first; strings, lists and dicts with their length in front. *)

Module Wire.

Abbreviation bytes := (list ascii) (only parsing).

Fixpoint enc_pos (p : positive) : bytes :=
  match p with
  | xH => ["."%char]
  | xO p' => "0"%char :: enc_pos p'
  | xI p' => "1"%char :: enc_pos p'
  end.

Fixpoint dec_pos (s : bytes) : option (positive * bytes) :=
  match s with
  | [] => None
  | c :: r =>
      if Ascii.eqb c "." then Some (xH, r)
      else if Ascii.eqb c "0" then
        match dec_pos r with Some (p, r') => Some (xO p, r') | None => None end
      else if Ascii.eqb c "1" then
        match dec_pos r with Some (p, r') => Some (xI p, r') | None => None end
      else None
  end.

Definition enc_Z (z : Z) : bytes :=
  match z with
  | Z0 => ["z"%char]
  | Zpos p => "+"%char :: enc_pos p
  | Zneg p => "-"%char :: enc_pos p
  end.

Definition dec_Z (s : bytes) : option (Z * bytes) :=
  match s with
  | [] => None
  | c :: r =>
      if Ascii.eqb c "z" then Some (0%Z, r)
      else if Ascii.eqb c "+" then
        match dec_pos r with Some (p, r') => Some (Zpos p, r') | None => None end
      else if Ascii.eqb c "-" then
        match dec_pos r with Some (p, r') => Some (Zneg p, r') | None => None end
      else None
  end.

Definition enc_nat (n : nat) : bytes := enc_Z (Z.of_nat n).

Definition dec_nat (s : bytes) : option (nat * bytes) :=
  match dec_Z s with
  | Some (z, r) => if (0 <=? z)%Z then Some (Z.to_nat z, r) else None
  | None => None
  end.

Definition enc_Q (x : Q) : bytes := enc_Z (Qnum x) ++ enc_pos (Qden x).

Definition dec_Q (s : bytes) : option (Q * bytes) :=
  match dec_Z s with
  | Some (n, r) =>
      match dec_pos r with
      | Some (d, r') => Some (Qmake n d, r')
      | None => None
      end
  | None => None
  end.

Definition enc_str (s : string) : bytes :=
  enc_nat (String.length s) ++ list_ascii_of_string s.

(** The first [n] bytes, and what follows them. *)
Fixpoint split_at (n : nat) (s : bytes) : option (bytes * bytes) :=
  match n, s with
  | O, _ => Some ([], s)
  | S n', c :: r =>
      match split_at n' r with
      | Some (a, b) => Some (c :: a, b)
      | None => None
      end
  | S _, [] => None
  end.

Definition dec_str (s : bytes) : option (string * bytes) :=
  match dec_nat s with
  | Some (n, r) =>
      match split_at n r with
      | Some (a, b) => Some (string_of_list_ascii a, b)
      | None => None
      end
  | None => None
  end.

Fixpoint enc (v : value) : bytes :=
  match v with
  | VNone => ["n"%char]
  | VBool true => ["t"%char]
  | VBool false => ["f"%char]
  | VInt n => "i"%char :: enc_Z n
  | VFloat x => "r"%char :: enc_Q x
  | VStr s => "s"%char :: enc_str s
  | VTuple items =>
      "l"%char :: enc_nat (length items) ++ concat (map enc items)
  | VList items =>
      "l"%char :: enc_nat (length items) ++ concat (map enc items)
  | VDict entries =>
      "d"%char :: enc_nat (length entries)
      ++ concat (map (fun kv => enc_str kv.1 ++ enc kv.2) entries)
  end.

(** [n] items read with [item]. *)
Fixpoint dec_items {A} (item : bytes -> option (A * bytes)) (n : nat)
    (s : bytes) : option (list A * bytes) :=
  match n with
  | O => Some ([], s)
  | S n' =>
      match item s with
      | Some (x, r) =>
          match dec_items item n' r with
          | Some (xs, r') => Some (x :: xs, r')
          | None => None
          end
      | None => None
      end
  end.

Definition dec_entry (value_ : bytes -> option (value * bytes)) (s : bytes)
    : option (string * value * bytes) :=
  match dec_str s with
  | Some (k, r) =>
      match value_ r with
      | Some (v, r') => Some (k, v, r')
      | None => None
      end
  | None => None
  end.

Fixpoint dec (fuel : nat) (s : bytes) : option (value * bytes) :=
  match fuel with
  | O => None
  | S fuel' =>
      match s with
      | [] => None
      | c :: r =>
          if Ascii.eqb c "n" then Some (VNone, r)
          else if Ascii.eqb c "t" then Some (VBool true, r)
          else if Ascii.eqb c "f" then Some (VBool false, r)
          else if Ascii.eqb c "i" then
            match dec_Z r with
            | Some (n, r') => Some (VInt n, r')
            | None => None
            end
          else if Ascii.eqb c "r" then
            match dec_Q r with
            | Some (x, r') => Some (VFloat x, r')
            | None => None
            end
          else if Ascii.eqb c "s" then
            match dec_str r with
            | Some (x, r') => Some (VStr x, r')
            | None => None
            end
          else if Ascii.eqb c "l" then
            match dec_nat r with
            | Some (n, r1) =>
                match dec_items (dec fuel') n r1 with
                | Some (items, r2) => Some (VList items, r2)
                | None => None
                end
            | None => None
            end
          else if Ascii.eqb c "d" then
            match dec_nat r with
            | Some (n, r1) =>
                match dec_items (dec_entry (dec fuel')) n r1 with
                | Some (entries, r2) => Some (VDict entries, r2)
                | None => None
                end
            | None => None
            end
          else None
      end
  end.

Definition dumps (v : value) : string := string_of_list_ascii (enc v).

Definition loads (s : string) : option value :=
  match dec (S (String.length s)) (list_ascii_of_string s) with
  | Some (v, []) => Some v
  | _ => None
  end.

Lemma dec_enc_pos p rest : dec_pos (enc_pos p ++ rest) = Some (p, rest).
Proof. induction p as [p IH|p IH|]; cbn; by rewrite ?IH. Qed.

Lemma dec_enc_Z z rest : dec_Z (enc_Z z ++ rest) = Some (z, rest).
Proof. destruct z; cbn; by rewrite ?dec_enc_pos. Qed.

Lemma dec_enc_nat n rest : dec_nat (enc_nat n ++ rest) = Some (n, rest).
Proof.
  unfold dec_nat, enc_nat. rewrite dec_enc_Z.
  destruct (Z.leb_spec 0 (Z.of_nat n)); [|lia].
  by rewrite Nat2Z.id.
Qed.

Lemma dec_enc_Q x rest : dec_Q (enc_Q x ++ rest) = Some (x, rest).
Proof.
  unfold dec_Q, enc_Q. rewrite <- app_assoc, dec_enc_Z, dec_enc_pos.
  by destruct x.
Qed.

Lemma split_at_app a rest : split_at (length a) (a ++ rest) = Some (a, rest).
Proof. induction a as [|c a IH]; cbn; by rewrite ?IH. Qed.

Lemma length_list_ascii_of_string s :
  length (list_ascii_of_string s) = String.length s.
Proof. induction s as [|c s IH]; cbn; by rewrite ?IH. Qed.

Lemma dec_enc_str s rest : dec_str (enc_str s ++ rest) = Some (s, rest).
Proof.
  unfold dec_str, enc_str. rewrite <- app_assoc, dec_enc_nat.
  rewrite <- length_list_ascii_of_string, split_at_app.
  by rewrite string_of_list_ascii_of_string.
Qed.

(** Nesting depth of a value. *)
Fixpoint depth (v : value) : nat :=
  match v with
  | VTuple items => S (foldr (fun x acc => Nat.max (depth x) acc) 0%nat items)
  | VList items => S (foldr (fun x acc => Nat.max (depth x) acc) 0%nat items)
  | VDict entries =>
      S (foldr (fun kv acc => Nat.max (depth kv.2) acc) 0%nat entries)
  | _ => 0%nat
  end.

(** Induction on values, with the property for the items of a list and for
    the values of a dict. *)
Lemma value_induction (P : value -> Prop) :
  P VNone ->
  (forall b, P (VBool b)) ->
  (forall n, P (VInt n)) ->
  (forall x, P (VFloat x)) ->
  (forall s, P (VStr s)) ->
  (forall items, Forall P items -> P (VTuple items)) ->
  (forall items, Forall P items -> P (VList items)) ->
  (forall entries, Forall (fun kv => P kv.2) entries -> P (VDict entries)) ->
  forall v, P v.
Proof.
  intros HN HB HI HF HS HT HL HD.
  fix IH 1. intros [| | | | |items|items|entries];
    [apply HN|apply HB|apply HI|apply HF|apply HS| | |].
  - apply HT. induction items as [|x items IHl]; constructor;
      [apply IH|exact IHl].
  - apply HL. induction items as [|x items IHl]; constructor;
      [apply IH|exact IHl].
  - apply HD. induction entries as [|[k x] entries IHl]; constructor;
      [apply IH|exact IHl].
Qed.

Lemma dec_items_spec {A B} (item : list ascii -> option (B * list ascii))
    (encode : A -> list ascii) (image : A -> B) (xs : list A) rest :
  Forall (fun x => forall r, item (encode x ++ r) = Some (image x, r)) xs ->
  dec_items item (length xs) (concat (map encode xs) ++ rest)
  = Some (map image xs, rest).
Proof.
  induction 1 as [|x xs Hx _ IH]; [done|].
  cbn [length map concat dec_items]. rewrite <- app_assoc, Hx, IH. done.
Qed.

Lemma depth_items (items : list value) (f : nat) :
  (foldr (fun x acc => Nat.max (depth x) acc) 0 items < f)%nat ->
  Forall (fun x => (depth x < f)%nat) items.
Proof.
  induction items as [|x items IH]; cbn [foldr]; intros H; constructor.
  - lia.
  - apply IH. lia.
Qed.

Lemma depth_entries (entries : list (string * value)) (f : nat) :
  (foldr (fun kv acc => Nat.max (depth kv.2) acc) 0 entries < f)%nat ->
  Forall (fun kv => (depth kv.2 < f)%nat) entries.
Proof.
  induction entries as [|x entries IH]; cbn [foldr]; intros H; constructor.
  - lia.
  - apply IH. lia.
Qed.

Lemma dec_items_enc (f : nat) (items : list value) rest :
  Forall (fun v => forall fuel r, (depth v < fuel)%nat ->
                   dec fuel (enc v ++ r) = Some (json_image v, r)) items ->
  Forall (fun x => (depth x < f)%nat) items ->
  dec_items (dec f) (length items) (concat (map enc items) ++ rest)
  = Some (map json_image items, rest).
Proof.
  intros HP Hd. apply dec_items_spec.
  rewrite Forall_forall in *. intros x Hx r. apply HP; [done|]. by apply Hd.
Qed.

Lemma dec_enc (v : value) :
  forall fuel rest,
    (depth v < fuel)%nat -> dec fuel (enc v ++ rest) = Some (json_image v, rest).
Proof.
  induction v as [|b|n|x|s|items IH|items IH|entries IH] using value_induction;
    intros [|f] rest Hd; try lia.
  - reflexivity.
  - by destruct b.
  - cbn. by rewrite dec_enc_Z.
  - cbn. by rewrite dec_enc_Q.
  - cbn. by rewrite dec_enc_str.
  - cbn [depth] in Hd. cbn [enc app dec json_image].
    cbn. rewrite <- app_assoc, dec_enc_nat.
    rewrite dec_items_enc; [done|done|]. apply depth_items. lia.
  - cbn [depth] in Hd. cbn [enc app dec json_image].
    cbn. rewrite <- app_assoc, dec_enc_nat.
    rewrite dec_items_enc; [done|done|]. apply depth_items. lia.
  - cbn [depth] in Hd. cbn [enc app dec json_image].
    cbn. rewrite <- app_assoc, dec_enc_nat.
    rewrite (dec_items_spec _ (fun kv => enc_str kv.1 ++ enc kv.2)
               (fun kv => (kv.1, json_image kv.2))); [done|].
    apply Nat.succ_lt_mono, depth_entries in Hd.
    rewrite Forall_forall in *. intros [k x] Hx r.
    unfold dec_entry. cbn [fst snd].
    rewrite <- app_assoc, dec_enc_str.
    rewrite (IH _ Hx); [done|]. exact (Hd _ Hx).
Qed.

Lemma depth_le_length (v : value) : (depth v < S (length (enc v)))%nat.
Proof.
  induction v as [|b|n|x|s|items IH|items IH|entries IH] using value_induction;
    cbn [depth enc length]; try lia.
  - rewrite length_app.
    assert (foldr (fun x acc => Nat.max (depth x) acc) 0 items
            <= length (concat (map enc items)))%nat; [|lia].
    induction IH as [|x xs Hx _ IHl]; cbn [foldr map concat]; [lia|].
    rewrite length_app. lia.
  - rewrite length_app.
    assert (foldr (fun x acc => Nat.max (depth x) acc) 0 items
            <= length (concat (map enc items)))%nat; [|lia].
    induction IH as [|x xs Hx _ IHl]; cbn [foldr map concat]; [lia|].
    rewrite length_app. lia.
  - rewrite length_app.
    assert (foldr (fun kv acc => Nat.max (depth kv.2) acc) 0 entries
            <= length (concat (map (fun kv => enc_str kv.1 ++ enc kv.2)
                                   entries)))%nat; [|lia].
    induction IH as [|x xs Hx _ IHl]; cbn [foldr map concat]; [lia|].
    rewrite !length_app. lia.
Qed.

(** The reference codec does what is assumed of [json]. *)
Lemma loads_dumps (v : value) : loads (dumps v) = Some (json_image v).
Proof.
  unfold loads, dumps.
  rewrite list_ascii_of_string_of_list_ascii.
  rewrite <- length_list_ascii_of_string, list_ascii_of_string_of_list_ascii.
  rewrite <- (app_nil_r (enc v)) at 2.
  rewrite dec_enc; [done|]. apply depth_le_length.
Qed.

(** The transfer encodings of the reference codec leave the bytes as they
    are. *)
Definition plain (s : string) : string := s.

Definition plain_back (s : string) : option string := Some s.

End Wire.

(** * The case mappings *)

(** ** On ASCII text *)

Definition ascii_char (c : ascii) : bool := (nat_of_ascii c <? 128)%nat.

Lemma isascii_cons (c : ascii) (s : string) :
  Str.isascii (String c s) = ascii_char c && Str.isascii s.
Proof. reflexivity. Qed.

Lemma upper_char_lower_char (c : ascii) :
  Str.upper_char (Str.lower_char c) = Str.upper_char c.
Proof. by destruct c as [[] [] [] [] [] [] [] []]. Qed.

Lemma upper_char_idem (c : ascii) :
  Str.upper_char (Str.upper_char c) = Str.upper_char c.
Proof. by destruct c as [[] [] [] [] [] [] [] []]. Qed.

Lemma lower_char_upper_char (c : ascii) :
  Str.lower_char (Str.upper_char c) = Str.lower_char c.
Proof. by destruct c as [[] [] [] [] [] [] [] []]. Qed.

Lemma lower_char_idem (c : ascii) :
  Str.lower_char (Str.lower_char c) = Str.lower_char c.
Proof. by destruct c as [[] [] [] [] [] [] [] []]. Qed.

Lemma ascii_char_upper_char (c : ascii) :
  ascii_char (Str.upper_char c) = ascii_char c.
Proof. by destruct c as [[] [] [] [] [] [] [] []]. Qed.

Lemma ascii_char_lower_char (c : ascii) :
  ascii_char (Str.lower_char c) = ascii_char c.
Proof. by destruct c as [[] [] [] [] [] [] [] []]. Qed.

Lemma upper_ascii_lower_ascii (s : string) :
  Str.upper_ascii (Str.lower_ascii s) = Str.upper_ascii s.
Proof.
  induction s as [|c s IH]; [done|].
  cbn [Str.lower_ascii Str.upper_ascii]. by rewrite upper_char_lower_char, IH.
Qed.

Lemma upper_ascii_idem (s : string) :
  Str.upper_ascii (Str.upper_ascii s) = Str.upper_ascii s.
Proof.
  induction s as [|c s IH]; [done|].
  cbn [Str.upper_ascii]. by rewrite upper_char_idem, IH.
Qed.

Lemma lower_ascii_upper_ascii (s : string) :
  Str.lower_ascii (Str.upper_ascii s) = Str.lower_ascii s.
Proof.
  induction s as [|c s IH]; [done|].
  cbn [Str.lower_ascii Str.upper_ascii]. by rewrite lower_char_upper_char, IH.
Qed.

Lemma lower_ascii_idem (s : string) :
  Str.lower_ascii (Str.lower_ascii s) = Str.lower_ascii s.
Proof.
  induction s as [|c s IH]; [done|].
  cbn [Str.lower_ascii]. by rewrite lower_char_idem, IH.
Qed.

Lemma isascii_upper_ascii (s : string) :
  Str.isascii (Str.upper_ascii s) = Str.isascii s.
Proof.
  induction s as [|c s IH]; [done|].
  cbn [Str.upper_ascii]. by rewrite !isascii_cons, ascii_char_upper_char, IH.
Qed.

Lemma isascii_lower_ascii (s : string) :
  Str.isascii (Str.lower_ascii s) = Str.isascii s.
Proof.
  induction s as [|c s IH]; [done|].
  cbn [Str.lower_ascii]. by rewrite !isascii_cons, ascii_char_lower_char, IH.
Qed.

(** ** The characters of a table *)

(** [c] is the first byte of a character of the table. *)
Definition lead (table : list (string * string)) (c : ascii) : bool :=
  existsb (fun e : string * string =>
             match e.1 with
             | EmptyString => true
             | String a _ => Ascii.eqb a c
             end) table.

Lemma special_not_lead (table : list (string * string)) (c : ascii)
    (s : string) :
  lead table c = false -> Str.special table (String c s) = None.
Proof.
  induction table as [|[p image] table IH]; [done|].
  cbn [lead existsb fst Str.special]. intros [Hp Ht]%orb_false_elim.
  destruct p as [|a p]; [done|].
  cbn [Str.startswith]. rewrite Hp. cbn [andb]. by apply IH.
Qed.

Lemma special_Some (table : list (string * string)) (s image : string)
    (n : nat) :
  Str.special table s = Some (image, n) ->
  exists p, In (p, image) table /\ Str.startswith p s = true.
Proof.
  induction table as [|[p i] table IH]; [done|].
  cbn [Str.special]. destruct (Str.startswith p s) eqn:E.
  - intros [= <- _]. exists p. split; [by left|done].
  - intros H. destruct (IH H) as (q & Hq & Hs). exists q. split; [by right|done].
Qed.

Lemma special_None (table : list (string * string)) (s p image : string) :
  Str.special table s = None -> In (p, image) table ->
  Str.startswith p s = false.
Proof.
  induction table as [|[q i] table IH]; [done|].
  cbn [Str.special]. destruct (Str.startswith q s) eqn:E; [done|].
  intros H [[= <- <-]|Hin]; [done|by apply IH].
Qed.

Lemma ascii_not_lead_upper (c : ascii) :
  ascii_char c = true -> lead Str.upper_special c = false.
Proof. by destruct c as [[] [] [] [] [] [] [] []]. Qed.

Lemma ascii_not_lead_lower (c : ascii) :
  ascii_char c = true -> lead Str.lower_special c = false.
Proof. by destruct c as [[] [] [] [] [] [] [] []]. Qed.

(** On ASCII text the case mappings go letter by letter. *)
Lemma upper_ascii_eq (s : string) :
  Str.isascii s = true -> Str.upper s = Str.upper_ascii s.
Proof.
  unfold Str.upper. induction s as [|c s IH]; [done|].
  rewrite isascii_cons. intros [Hc Hs]%andb_prop.
  cbn [Str.recase Str.upper_ascii].
  rewrite special_not_lead by (by apply ascii_not_lead_upper).
  by rewrite IH.
Qed.

Lemma lower_ascii_eq (s : string) :
  Str.isascii s = true -> Str.lower s = Str.lower_ascii s.
Proof.
  unfold Str.lower. induction s as [|c s IH]; [done|].
  rewrite isascii_cons. intros [Hc Hs]%andb_prop.
  cbn [Str.recase Str.lower_ascii].
  rewrite special_not_lead by (by apply ascii_not_lead_lower).
  by rewrite IH.
Qed.

Lemma isascii_upper (s : string) :
  Str.isascii s = true -> Str.isascii (Str.upper s) = true.
Proof.
  intros Hs. by rewrite (upper_ascii_eq s Hs), isascii_upper_ascii.
Qed.

Lemma isascii_lower (s : string) :
  Str.isascii s = true -> Str.isascii (Str.lower s) = true.
Proof.
  intros Hs. by rewrite (lower_ascii_eq s Hs), isascii_lower_ascii.
Qed.

(** The two cases of an ASCII text have the same upper-case form, and the
    same lower-case form. *)
Lemma upper_lower (s : string) :
  Str.isascii s = true -> Str.upper (Str.lower s) = Str.upper s.
Proof.
  intros Hs. rewrite (upper_ascii_eq _ (isascii_lower s Hs)).
  by rewrite (lower_ascii_eq s Hs), upper_ascii_lower_ascii, (upper_ascii_eq s Hs).
Qed.

Lemma lower_upper (s : string) :
  Str.isascii s = true -> Str.lower (Str.upper s) = Str.lower s.
Proof.
  intros Hs. rewrite (lower_ascii_eq _ (isascii_upper s Hs)).
  by rewrite (upper_ascii_eq s Hs), lower_ascii_upper_ascii, (lower_ascii_eq s Hs).
Qed.

Lemma lower_idem (s : string) :
  Str.isascii s = true -> Str.lower (Str.lower s) = Str.lower s.
Proof.
  intros Hs. rewrite (lower_ascii_eq _ (isascii_lower s Hs)).
  by rewrite (lower_ascii_eq s Hs), lower_ascii_idem.
Qed.

(** ** What a case mapping leaves as it is *)

(** A byte that only a character outside ASCII has, and that no image of
    the tables begins with. *)
Definition rigid (c : ascii) : bool :=
  (128 <=? nat_of_ascii c)%nat && negb (Ascii.eqb c "202").

Definition rigid_string (p : string) : bool :=
  forallb rigid (list_ascii_of_string p).

Definition soft_head (s : string) : bool :=
  match s with
  | EmptyString => false
  | String h _ => negb (rigid h)
  end.

Lemma append_nil (t : string) : EmptyString +:+ t = t.
Proof. reflexivity. Qed.

Lemma append_cons (c : ascii) (s t : string) :
  String c s +:+ t = String c (s +:+ t).
Proof. reflexivity. Qed.

Lemma startswith_app (p s t : string) :
  Str.startswith p s = true -> Str.startswith p (s +:+ t) = true.
Proof.
  revert s. induction p as [|a p IH]; intros s; [done|].
  destruct s as [|b s]; [done|]. rewrite append_cons. cbn [Str.startswith].
  intros [Hab Hp]%andb_prop. rewrite Hab. cbn [andb]. by apply IH.
Qed.

(** A character of the table does not start in a text and end after an
    ASCII character that follows the text. *)
Lemma startswith_app_soft (p s t : string) :
  rigid_string p = true -> soft_head t = true ->
  Str.startswith p (s +:+ t) = true -> Str.startswith p s = true.
Proof.
  intros Hp Ht. revert s Hp.
  induction p as [|a p IH]; intros s Hp; [done|].
  cbn [rigid_string list_ascii_of_string forallb] in Hp.
  apply andb_prop in Hp as [Ha Hp].
  destruct s as [|b s].
  - destruct t as [|h t]; [done|]. rewrite append_nil. cbn [Str.startswith].
    intros [Hah _]%andb_prop. apply Ascii.eqb_eq in Hah as <-.
    cbn [soft_head] in Ht. by rewrite Ha in Ht.
  - rewrite append_cons. cbn [Str.startswith].
    intros [Hab Hs]%andb_prop. rewrite Hab. cbn [andb]. by apply IH.
Qed.

Section Recase.

Variable table : list (string * string).
Variable f : ascii -> ascii.

Hypothesis f_rigid : forall c, rigid (f c) = true -> f c = c.
Hypothesis f_idem : forall c, f (f c) = f c.
Hypothesis characters_rigid :
  forall p image, In (p, image) table -> rigid_string p = true.
Hypothesis images_soft :
  forall p image, In (p, image) table -> soft_head image = true.
Hypothesis images_inert :
  forall p image, In (p, image) table ->
    Forall (fun h => lead table h = false /\ f h = h)
           (list_ascii_of_string image).

(** What the mapping puts out begins with a character of the table only
    where the text did. *)
Lemma startswith_recase (p : string) :
  rigid_string p = true ->
  forall s, Str.startswith p (Str.recase table f 0 s) = true ->
            Str.startswith p s = true.
Proof.
  induction p as [|b p IH]; intros Hp s H; [done|].
  cbn [rigid_string list_ascii_of_string forallb] in Hp.
  apply andb_prop in Hp as [Hb Hp].
  destruct s as [|c s]; [done|].
  cbn [Str.recase] in H.
  destruct (Str.special table (String c s)) as [[image n]|] eqn:E.
  - apply special_Some in E as (q & Hq & _).
    pose proof (images_soft q image Hq) as Hsoft.
    destruct image as [|h image]; [done|].
    rewrite append_cons in H. cbn [Str.startswith] in H.
    apply andb_prop in H as [Hbh _]. apply Ascii.eqb_eq in Hbh as <-.
    cbn [soft_head] in Hsoft. by rewrite Hb in Hsoft.
  - cbn [Str.startswith] in H |- *.
    apply andb_prop in H as [Hbc H]. apply Ascii.eqb_eq in Hbc as ->.
    rewrite (f_rigid c Hb). rewrite Ascii.eqb_refl. cbn [andb].
    by apply IH.
Qed.

(** A text that the mapping leaves as it is: no character of the table
    starts anywhere in it, and [f] changes none of its bytes. *)
Fixpoint settled (s : string) : Prop :=
  match s with
  | EmptyString => True
  | String c s' => Str.special table s = None /\ f c = c /\ settled s'
  end.

Lemma settled_recase (s : string) :
  settled s -> Str.recase table f 0 s = s.
Proof.
  induction s as [|c s IH]; [done|].
  intros (Hs & Hc & Hrest). cbn [Str.recase]. rewrite Hs, Hc.
  by rewrite (IH Hrest).
Qed.

Lemma settled_image_app (image r : string) :
  Forall (fun h => lead table h = false /\ f h = h)
         (list_ascii_of_string image) ->
  settled r -> settled (image +:+ r).
Proof.
  intros Hi Hr. induction image as [|h image IH]; [done|].
  cbn [list_ascii_of_string] in Hi. inversion Hi as [|? ? [Hl Hf] Hi']; subst.
  rewrite append_cons. cbn [settled].
  split; [by apply special_not_lead|]. split; [done|]. by apply IH.
Qed.

(** What the mapping puts out, it leaves as it is. *)
Lemma recase_settled (s : string) :
  forall skip, settled (Str.recase table f skip s).
Proof.
  induction s as [|c s IH]; intros skip; [done|].
  cbn [Str.recase]. destruct skip as [|k]; [|apply IH].
  destruct (Str.special table (String c s)) as [[image n]|] eqn:E.
  - destruct (special_Some _ _ _ _ E) as (q & Hq & _).
    apply settled_image_app; [by apply (images_inert q)|apply IH].
  - cbn [settled]. split; [|split; [apply f_idem|apply IH]].
    destruct (Str.special table (String (f c) (Str.recase table f 0 s)))
      as [[image n]|] eqn:E'; [exfalso|done].
    apply special_Some in E' as (q & Hq & Hstart).
    assert (Hout : Str.recase table f 0 (String c s)
                   = String (f c) (Str.recase table f 0 s))
      by (cbn [Str.recase]; by rewrite E).
    rewrite <- Hout in Hstart.
    apply (startswith_recase q (characters_rigid q image Hq)) in Hstart.
    by rewrite (special_None _ _ _ _ E Hq) in Hstart.
Qed.

Lemma recase_idem (s : string) :
  Str.recase table f 0 (Str.recase table f 0 s) = Str.recase table f 0 s.
Proof. apply settled_recase, recase_settled. Qed.

(** A part of a settled text is settled. *)
Lemma settled_suffix (a b : string) : settled (a +:+ b) -> settled b.
Proof.
  induction a as [|x a IH]; [done|].
  rewrite append_cons. cbn [settled]. intros (_ & _ & H). by apply IH.
Qed.

Lemma settled_prefix (a b : string) : settled (a +:+ b) -> settled a.
Proof.
  induction a as [|x a IH]; [done|].
  rewrite append_cons. cbn [settled]. intros (Hs & Hx & H).
  split; [|split; [done|by apply IH]].
  destruct (Str.special table (String x a)) as [[image n]|] eqn:E; [|done].
  apply special_Some in E as (q & Hq & Hstart).
  apply (startswith_app _ _ b) in Hstart. rewrite append_cons in Hstart.
  by rewrite (special_None _ _ _ _ Hs Hq) in Hstart.
Qed.

(** Two settled texts put end to end, the second one beginning with an
    ASCII character, are settled. *)
Lemma settled_app (a b : string) :
  settled a -> settled b -> soft_head b = true -> settled (a +:+ b).
Proof.
  intros Ha Hb Hsoft. induction a as [|x a IH]; [done|].
  destruct Ha as (Hs & Hx & Ha). rewrite append_cons. cbn [settled].
  split; [|split; [done|by apply IH]].
  destruct (Str.special table (String x (a +:+ b))) as [[image n]|] eqn:E;
    [|done].
  apply special_Some in E as (q & Hq & Hstart).
  change (String x (a +:+ b)) with (String x a +:+ b) in Hstart.
  apply startswith_app_soft in Hstart;
    [|by apply (characters_rigid q image)|done].
  by rewrite (special_None _ _ _ _ Hs Hq) in Hstart.
Qed.

End Recase.

(** The two tables are as the section wants them. *)
Definition table_ok (f : ascii -> ascii) (table : list (string * string))
    : bool :=
  forallb (fun e : string * string =>
             rigid_string e.1 && soft_head e.2
             && forallb (fun h => negb (lead table h) && Ascii.eqb (f h) h)
                        (list_ascii_of_string e.2))
          table.

Lemma table_ok_spec (f : ascii -> ascii) (table : list (string * string))
    (p image : string) :
  table_ok f table = true -> In (p, image) table ->
  rigid_string p = true /\ soft_head image = true
  /\ Forall (fun h => lead table h = false /\ f h = h)
            (list_ascii_of_string image).
Proof.
  intros Hok Hin. unfold table_ok in Hok. rewrite forallb_forall in Hok.
  specialize (Hok _ Hin). cbn [fst snd] in Hok.
  apply andb_prop in Hok as [[Hp Hs]%andb_prop Hi].
  split; [done|]. split; [done|].
  rewrite forallb_forall in Hi. apply Forall_forall. intros h Hh.
  specialize (Hi h (proj1 (list_elem_of_In _ _) Hh)).
  apply andb_prop in Hi as [Hl Hf]. split.
  - by apply negb_true_iff.
  - by apply Ascii.eqb_eq.
Qed.

Lemma upper_char_rigid (c : ascii) :
  rigid (Str.upper_char c) = true -> Str.upper_char c = c.
Proof. by destruct c as [[] [] [] [] [] [] [] []]. Qed.

(** A text that [upper] leaves as it is. *)
Definition capitals (s : string) : Prop :=
  settled Str.upper_special Str.upper_char s.

Lemma upper_special_ok : table_ok Str.upper_char Str.upper_special = true.
Proof. reflexivity. Qed.

Lemma capitals_upper (s : string) : capitals (Str.upper s).
Proof.
  apply recase_settled.
  - apply upper_char_rigid.
  - apply upper_char_idem.
  - intros p image Hin. apply (table_ok_spec _ _ _ _ upper_special_ok Hin).
  - intros p image Hin. apply (table_ok_spec _ _ _ _ upper_special_ok Hin).
  - intros p image Hin. apply (table_ok_spec _ _ _ _ upper_special_ok Hin).
Qed.

Lemma upper_capitals (s : string) : capitals s -> Str.upper s = s.
Proof. apply settled_recase. Qed.

(** [upper] twice is [upper] once, for every text. *)
Lemma upper_idem (s : string) : Str.upper (Str.upper s) = Str.upper s.
Proof. apply upper_capitals, capitals_upper. Qed.

Lemma capitals_app (a b : string) :
  capitals a -> capitals b -> soft_head b = true -> capitals (a +:+ b).
Proof.
  apply settled_app. intros p image Hin.
  apply (table_ok_spec _ _ _ _ upper_special_ok Hin).
Qed.

Lemma capitals_prefix (a b : string) : capitals (a +:+ b) -> capitals a.
Proof. apply settled_prefix. Qed.

Lemma capitals_suffix (a b : string) : capitals (a +:+ b) -> capitals b.
Proof. apply settled_suffix. Qed.

Lemma capitals_cons_ascii (c : ascii) (s : string) :
  ascii_char c = true -> Str.is_lower c = false -> capitals s ->
  capitals (String c s).
Proof.
  intros Hc Hl Hs. split; [|split; [|done]].
  - by apply special_not_lead, ascii_not_lead_upper.
  - unfold Str.upper_char. by rewrite Hl.
Qed.
(** Checks on a pose that the proofs below rely on; [n] is the size of the
    store. *)
Fixpoint nondecreasing_b (l : list Q) : bool :=
  match l with
  | x :: ((y :: _) as l') => Qle_bool x y && nondecreasing_b l'
  | _ => true
  end.

Definition keyframe_ok (n : nat) (total : Q) (kf : KeyFrame) : bool :=
  (joint_positions kf <? n)%nat
  && Qle_bool 0 (timestamp kf)
  && Qle_bool (timestamp kf) total.

Definition pose_ok (n : nat) (p : AvatarPose) : bool :=
  forallb (keyframe_ok n (py_sum (map duration (keyframes p)))) (keyframes p)
  && nondecreasing_b (map timestamp (keyframes p)).

(** Settle a decidable statement about the concrete tables by evaluating
    its decision procedure. *)
Ltac by_evaluation :=
  match goal with
  | |- ?G =>
      let D := constr:(_ : Decision G) in
      apply (@bool_decide_unpack G D); vm_compute; exact I
  end.

Lemma boot_ok : AvatarAnimationEngine_init [] = inr (animation_engine, library_heap).
Proof. reflexivity. Qed.

Lemma library_heap_length : length library_heap = 19%nat.
Proof. reflexivity. Qed.

Lemma library_ok :
  map_Forall (fun _ p => pose_ok 19 p = true)
             (pose_library (gloss_mapper animation_engine)).
Proof. by_evaluation. Qed.

Lemma transitions_ok :
  map_Forall (fun _ row => map_Forall (fun _ (d : Q) => Qle_bool 0 d = true) row)
             (transition_rules (gloss_mapper animation_engine)).
Proof. by_evaluation. Qed.

(** ** What one pass of the inner loop produces *)

(** The keyframe emitted for the [i]-th keyframe [kf] of a pose, when the
    clock is [current_time] and the store has [base] objects. *)
Definition adjusted (current_time : Q) (base i : nat) (kf : KeyFrame) : KeyFrame :=
  mkKeyFrame (current_time + timestamp kf) (base + i)%nat (duration kf).

(** The entries of the joint-position dict of [kf]. *)
Definition contents (h : heap) (kf : KeyFrame) : joints :=
  default [] (h !! joint_positions kf).

Definition allocated (h : heap) (kf : KeyFrame) : Prop :=
  (joint_positions kf < length h)%nat.

Lemma contents_app h extra kf :
  allocated h kf -> contents (h ++ extra) kf = contents h kf.
Proof.
  unfold allocated, contents. intros Hlt.
  by rewrite lookup_app_l.
Qed.

Lemma emit_pose_spec current_time pose_kfs :
  forall acc h,
    Forall (allocated h) pose_kfs ->
    emit_pose current_time pose_kfs acc h
    = inr (acc ++ imap (adjusted current_time (length h)) pose_kfs,
           h ++ map (contents h) pose_kfs).
Proof.
  induction pose_kfs as [|kf rest IH]; intros acc h Hall.
  - simpl. by rewrite !app_nil_r.
  - inversion Hall as [|? ? Hkf Hrest]; subst.
    destruct (lookup_lt_is_Some_2 h (joint_positions kf) Hkf) as [d Hd].
    cbn [emit_pose]. unfold mbind, M_bind, dict_copy. rewrite Hd.
    rewrite IH.
    + rewrite length_app, imap_cons. cbn [length map].
      rewrite <- !app_assoc. cbn [app].
      assert (E1 : imap (adjusted current_time (length h + 1)) rest
                   = imap (adjusted current_time (length h) ∘ S) rest).
      { apply imap_ext. intros i x _. unfold adjusted, compose.
        f_equal. lia. }
      assert (E2 : map (contents (h ++ [d])) rest = map (contents h) rest).
      { apply map_ext_Forall.
        eapply Forall_impl; [exact Hrest|].
        intros x Hx. by apply contents_app. }
      assert (E3 : contents h kf = d).
      { unfold contents. by rewrite Hd. }
      rewrite E1, E2, E3. unfold adjusted. by rewrite Nat.add_0_r.
    + eapply Forall_impl; [exact Hrest|].
      intros x Hx. unfold allocated in *. rewrite length_app. lia.
Qed.

(** ** The outer loop on the engine of the module *)

Abbreviation mapper0 := (gloss_mapper animation_engine).

Definition DEFAULT_pose : AvatarPose :=
  mkAvatarPose "DEFAULT" [mkKeyFrame 0.0 18 1.0] 0.2.

Lemma lookup_DEFAULT : pose_library mapper0 !! "DEFAULT" = Some DEFAULT_pose.
Proof. reflexivity. Qed.

Lemma get_pose_inr (gloss_word : string) :
  get_pose mapper0 gloss_word
  = inr (default DEFAULT_pose (pose_library mapper0 !! Str.upper gloss_word)).
Proof. unfold get_pose. by rewrite lookup_DEFAULT. Qed.

Lemma get_pose_ok (gloss_word : string) :
  exists p, get_pose mapper0 gloss_word = inr p /\ pose_ok 19 p = true.
Proof.
  rewrite get_pose_inr. eexists; split; [reflexivity|].
  destruct (pose_library mapper0 !! Str.upper gloss_word) as [p|] eqn:E; cbn.
  - exact (map_Forall_lookup_1 _ _ _ _ library_ok E).
  - exact (map_Forall_lookup_1 _ _ _ _ library_ok lookup_DEFAULT).
Qed.

Lemma get_transition_duration_nonneg (from_pose to_pose : string) :
  0 <= get_transition_duration mapper0 from_pose to_pose.
Proof.
  unfold get_transition_duration.
  destruct (transition_rules mapper0 !! Str.upper from_pose) as [row|] eqn:E;
    unfold default at 2; cbn [from_option id].
  - pose proof (map_Forall_lookup_1 _ _ _ _ transitions_ok E) as Hrow.
    cbn beta in Hrow. unfold id.
    destruct (row !! Str.upper to_pose) as [d|] eqn:E'; cbn.
    + apply Qle_bool_iff. exact (map_Forall_lookup_1 _ _ _ _ Hrow E').
    + by apply Qle_bool_iff.
  - rewrite lookup_empty. cbn. by apply Qle_bool_iff.
Qed.

Lemma pose_ok_allocated n p h :
  pose_ok n p = true -> (n <= length h)%nat -> Forall (allocated h) (keyframes p).
Proof.
  unfold pose_ok. intros Hok Hn.
  apply andb_prop in Hok as [Hall _].
  rewrite forallb_forall in Hall.
  apply Forall_forall. intros kf Hin.
  specialize (Hall kf (proj1 (list_elem_of_In _ _) Hin)).
  unfold keyframe_ok in Hall.
  apply andb_prop in Hall as [Hall _]. apply andb_prop in Hall as [Hall _].
  apply Nat.ltb_lt in Hall. unfold allocated. lia.
Qed.

(** The clock at which the keyframes of [word] are emitted. *)
Definition clock_at (i : nat) (word : string) (st : loop_state) : Q :=
  if (0 <? i)%nat
  then ls_current_time st
       + get_transition_duration mapper0 (ls_previous_pose st) word
  else ls_current_time st.

(** The loop variables after the iteration for [word], whose pose is [p],
    started with [base] objects in the store. *)
Definition step (i : nat) (word : string) (p : AvatarPose) (base : nat)
    (st : loop_state) : loop_state :=
  mkLoopState
    (ls_keyframes st ++ imap (adjusted (clock_at i word st) base) (keyframes p))
    (clock_at i word st + py_sum (map duration (keyframes p)))
    word.

Lemma loop_body_spec i word st h p :
  get_pose mapper0 word = inr p ->
  pose_ok 19 p = true ->
  (19 <= length h)%nat ->
  loop_body mapper0 i word st h
  = inr (step i word p (length h) st, h ++ map (contents h) (keyframes p)).
Proof.
  intros Hp Hok Hlen. unfold loop_body, mbind, M_bind, lift. rewrite Hp.
  rewrite emit_pose_spec by (by eapply pose_ok_allocated).
  reflexivity.
Qed.

(** An invariant rule for the outer loop: [P done st h] relates the words
    already handled to the loop variables and the store. *)
Lemma loop_rule (P : list string -> loop_state -> heap -> Prop) :
  (forall done word p st h,
      P done st h -> (19 <= length h)%nat ->
      get_pose mapper0 word = inr p -> pose_ok 19 p = true ->
      P (done ++ [word]) (step (length done) word p (length h) st)
        (h ++ map (contents h) (keyframes p))) ->
  forall gloss_words done st h,
    P done st h -> (19 <= length h)%nat ->
    exists st' h',
      loop mapper0 (length done) gloss_words st h = inr (st', h')
      /\ P (done ++ gloss_words) st' h'
      /\ (19 <= length h')%nat.
Proof.
  intros Hstep gloss_words.
  induction gloss_words as [|word rest IH]; intros done st h HP Hlen.
  - exists st, h. rewrite app_nil_r. by repeat split.
  - destruct (get_pose_ok word) as (p & Hp & Hok).
    cbn [loop]. unfold mbind, M_bind.
    rewrite (loop_body_spec _ _ _ _ p Hp Hok Hlen).
    specialize (Hstep done word p st h HP Hlen Hp Hok).
    assert (Hlen' : (19 <= length (h ++ map (contents h) (keyframes p)))%nat)
      by (rewrite length_app; lia).
    destruct (IH (done ++ [word]) _ _ Hstep Hlen') as (st' & h' & Hrun & HP' & Hl).
    rewrite length_app in Hrun. cbn [length] in Hrun.
    rewrite Nat.add_1_r in Hrun.
    exists st', h'. rewrite <- app_assoc in HP'. by repeat split.
Qed.

(** What [_generate_keyframe_sequence] returns, in terms of the loop
    variables at the exit of the loop. *)
Definition rest_keyframe (st : loop_state) : KeyFrame :=
  mkKeyFrame (ls_current_time st + 0.5) 18 0.5.

Definition initial_state : loop_state := mkLoopState [] 0.0 "DEFAULT".

Lemma generate_rule (P : list string -> loop_state -> heap -> Prop) :
  (forall done word p st h,
      P done st h -> (19 <= length h)%nat ->
      get_pose mapper0 word = inr p -> pose_ok 19 p = true ->
      P (done ++ [word]) (step (length done) word p (length h) st)
        (h ++ map (contents h) (keyframes p))) ->
  forall gloss_words h,
    P [] initial_state h -> (19 <= length h)%nat ->
    exists st h',
      _generate_keyframe_sequence animation_engine gloss_words h
      = inr (ls_keyframes st ++ [rest_keyframe st], h')
      /\ P gloss_words st h'.
Proof.
  intros Hstep gloss_words h H0 Hlen.
  destruct (loop_rule P Hstep gloss_words [] initial_state h H0 Hlen)
    as (st & h' & Hrun & HP & _).
  exists st, h'. split; [|exact HP].
  unfold _generate_keyframe_sequence, mbind, M_bind.
  cbn [length] in Hrun. fold initial_state. rewrite Hrun.
  reflexivity.
Qed.

(** *** Order of the timestamps *)

Definition ts_le (a b : KeyFrame) : Prop := timestamp a <= timestamp b.

Lemma nondecreasing_b_sorted (l : list KeyFrame) :
  nondecreasing_b (map timestamp l) = true -> StronglySorted ts_le l.
Proof.
  induction l as [|a l IH]; intros H; [constructor|].
  destruct l as [|b l]; [repeat constructor|].
  cbn in H. apply andb_prop in H as [Hab Hrest].
  specialize (IH Hrest). constructor; [exact IH|].
  apply Qle_bool_iff in Hab.
  apply StronglySorted_inv in IH as [_ Hb].
  constructor; [exact Hab|].
  eapply Forall_impl; [exact Hb|].
  intros c Hc. unfold ts_le in *. lra.
Qed.

Lemma pose_ok_range n p kf :
  pose_ok n p = true -> kf ∈ keyframes p ->
  0 <= timestamp kf /\ timestamp kf <= py_sum (map duration (keyframes p)).
Proof.
  unfold pose_ok. intros Hok Hin.
  apply andb_prop in Hok as [Hall _].
  rewrite forallb_forall in Hall.
  specialize (Hall kf (proj1 (list_elem_of_In _ _) Hin)).
  unfold keyframe_ok in Hall.
  apply andb_prop in Hall as [Hall H2]. apply andb_prop in Hall as [_ H1].
  split; by apply Qle_bool_iff.
Qed.

Lemma pose_ok_sorted n p :
  pose_ok n p = true -> StronglySorted ts_le (keyframes p).
Proof.
  unfold pose_ok. intros Hok. apply andb_prop in Hok as [_ Hs].
  by apply nondecreasing_b_sorted.
Qed.

Lemma adjusted_sorted ct base (l : list KeyFrame) :
  StronglySorted ts_le l -> StronglySorted ts_le (imap (adjusted ct base) l).
Proof.
  revert base. induction l as [|a l IH]; intros base Hs; [constructor|].
  apply StronglySorted_inv in Hs as [Hl Ha].
  rewrite imap_cons. constructor.
  - rewrite (imap_ext _ (adjusted ct (S base))).
    + by apply IH.
    + intros i x _. unfold adjusted, compose. f_equal. lia.
  - apply Forall_forall. intros x Hx.
    apply elem_of_lookup_imap_1 in Hx as (i & y & -> & Hy).
    rewrite Forall_forall in Ha.
    specialize (Ha y (list_elem_of_lookup_2 _ _ _ Hy)).
    unfold ts_le, adjusted, compose in *. cbn. lra.
Qed.

Lemma clock_at_ge i word st : ls_current_time st <= clock_at i word st.
Proof.
  unfold clock_at. destruct (0 <? i)%nat; [|lra].
  pose proof (get_transition_duration_nonneg (ls_previous_pose st) word). lra.
Qed.

(** Every keyframe emitted so far is sorted by timestamp and lies at or
    before the clock. *)
Definition ordered (st : loop_state) : Prop :=
  StronglySorted ts_le (ls_keyframes st)
  /\ Forall (fun kf => timestamp kf <= ls_current_time st) (ls_keyframes st).

Lemma step_ordered i word p base st :
  pose_ok 19 p = true -> ordered st -> ordered (step i word p base st).
Proof.
  intros Hok [Hs Hb]. pose proof (clock_at_ge i word st) as Hge.
  assert (Hnew : forall x, x ∈ imap (adjusted (clock_at i word st) base) (keyframes p) ->
                 clock_at i word st <= timestamp x
                 /\ timestamp x <= clock_at i word st
                                   + py_sum (map duration (keyframes p))).
  { intros x Hx. apply elem_of_lookup_imap_1 in Hx as (j & y & -> & Hy).
    destruct (pose_ok_range _ _ y Hok (list_elem_of_lookup_2 _ _ _ Hy)).
    unfold adjusted. cbn. lra. }
  rewrite Forall_forall in Hb.
  split; cbn [step ls_keyframes ls_current_time].
  - apply StronglySorted_app_2; [|exact Hs|].
    + intros x1 x2 H1 H2. specialize (Hb _ H1).
      destruct (Hnew _ H2). unfold ts_le. lra.
    + apply adjusted_sorted. by eapply pose_ok_sorted.
  - apply Forall_app_2; apply Forall_forall; intros x Hx.
    + specialize (Hb _ Hx).
      assert (0 <= py_sum (map duration (keyframes p))).
      { destruct (keyframes p) as [|k0 ks] eqn:E; [cbn; lra|].
        assert (Hk : k0 ∈ keyframes p) by (rewrite E; left).
        destruct (pose_ok_range _ _ k0 Hok Hk). rewrite E in *. lra. }
      lra.
    + by destruct (Hnew _ Hx).
Qed.

Lemma sorted_timestamps (l : list KeyFrame) :
  StronglySorted ts_le l -> StronglySorted Qle (map timestamp l).
Proof.
  induction 1 as [|a l Hl IH Ha]; cbn; constructor; [exact IH|].
  apply Forall_forall. intros t Ht.
  apply list_elem_of_In, in_map_iff in Ht as (b & <- & Hb).
  rewrite Forall_forall in Ha. apply Ha. by apply list_elem_of_In.
Qed.

(** *** The clock *)

(** Exact sum of a list of durations. *)
Definition Qsum (l : list Q) : Q := foldr Qplus 0 l.

(** The transition durations the builder uses for a token sequence: one for
    each token but the first, looked up from the token before it. *)
Fixpoint transitions_from (m : ISLGlossMapper) (previous : string)
    (gloss_words : list string) : list Q :=
  match gloss_words with
  | [] => []
  | word :: rest =>
      get_transition_duration m previous word :: transitions_from m word rest
  end.

Definition transitions_used (m : ISLGlossMapper) (gloss_words : list string)
    : list Q :=
  match gloss_words with
  | [] => []
  | word :: rest => transitions_from m word rest
  end.

(** The durations of the keyframes of the pose of each token. *)
Definition pose_keyframe_durations (m : ISLGlossMapper) (word : string) : list Q :=
  match get_pose m word with
  | inr p => map duration (keyframes p)
  | inl _ => []
  end.

Definition pose_durations (m : ISLGlossMapper) (gloss_words : list string)
    : list Q :=
  flat_map (pose_keyframe_durations m) gloss_words.

Lemma Qsum_app l1 l2 : Qsum (l1 ++ l2) == Qsum l1 + Qsum l2.
Proof.
  induction l1 as [|x l1 IH].
  - cbn [app]. change (Qsum []) with 0. lra.
  - change (x + Qsum (l1 ++ l2) == x + Qsum l1 + Qsum l2). lra.
Qed.

Lemma fold_left_Qplus l : forall a, fold_left Qplus l a == a + Qsum l.
Proof.
  induction l as [|x l IH]; intros a.
  - cbn [fold_left]. change (Qsum []) with 0. lra.
  - cbn [fold_left]. rewrite IH. change (Qsum (x :: l)) with (x + Qsum l). lra.
Qed.

Lemma py_sum_Qsum l : py_sum l == Qsum l.
Proof. unfold py_sum. rewrite fold_left_Qplus. lra. Qed.

Lemma default_last_cons {A} (x y : A) (l : list A) :
  default x (last (y :: l)) = default y (last l).
Proof.
  revert x y. induction l as [|z l IH]; intros x y; [done|].
  change (last (y :: z :: l)) with (last (z :: l)).
  rewrite IH. symmetry. apply IH.
Qed.

Lemma transitions_from_snoc m previous ws word :
  transitions_from m previous (ws ++ [word])
  = transitions_from m previous ws
    ++ [get_transition_duration m (default previous (last ws)) word].
Proof.
  revert previous. induction ws as [|w ws IH]; intros previous; [done|].
  cbn [app transitions_from]. rewrite IH.
  by rewrite default_last_cons.
Qed.

Lemma transitions_used_snoc m ws word :
  transitions_used m (ws ++ [word])
  = match ws with
    | [] => []
    | _ => transitions_used m ws
           ++ [get_transition_duration m (default "DEFAULT" (last ws)) word]
    end.
Proof.
  destruct ws as [|w ws]; [done|].
  cbn [app transitions_used]. rewrite transitions_from_snoc.
  by rewrite default_last_cons.
Qed.

(** The clock is the sum of the transitions used and of the keyframe
    durations of the poses, and the cursor is the last token. *)
Definition clocked (done : list string) (st : loop_state) : Prop :=
  ls_current_time st
  == Qsum (transitions_used mapper0 done) + Qsum (pose_durations mapper0 done)
  /\ ls_previous_pose st = default "DEFAULT" (last done).

Lemma step_clocked done word p base st :
  get_pose mapper0 word = inr p ->
  clocked done st -> clocked (done ++ [word]) (step (length done) word p base st).
Proof.
  intros Hp [Hc Hprev]. split; cbn [step ls_current_time ls_previous_pose].
  - unfold pose_durations. rewrite flat_map_app. cbn [flat_map].
    rewrite app_nil_r, Qsum_app. unfold pose_keyframe_durations at 2.
    rewrite Hp, py_sum_Qsum, transitions_used_snoc.
    unfold clock_at. destruct done as [|w ws].
    + cbn [length Nat.ltb Nat.leb]. fold (pose_durations mapper0 []).
      change (transitions_used mapper0 []) with (@nil Q) in Hc. lra.
    + cbn [length Nat.ltb Nat.leb]. rewrite Qsum_app, Hprev.
      change (Qsum [?x]) with (x + 0).
      fold (pose_durations mapper0 (w :: ws)). lra.
  - by rewrite last_snoc.
Qed.

(** *** The store *)

(** The dicts of the pose library stay where they are, and every keyframe
    emitted by the loop holds a dict allocated since the call, when the
    store had [n0] objects. *)
Definition stored (n0 : nat) (st : loop_state) (h : heap) : Prop :=
  library_heap `prefix_of` h
  /\ (n0 <= length h)%nat
  /\ Forall (fun kf => (n0 <= joint_positions kf < length h)%nat)
            (ls_keyframes st).

Lemma step_stored n0 i word p st h :
  stored n0 st h ->
  stored n0 (step i word p (length h) st)
         (h ++ map (contents h) (keyframes p)).
Proof.
  intros (Hpre & Hn0 & Hall). split; [by apply prefix_app_r|].
  split; [rewrite length_app; lia|].
  cbn [step ls_keyframes]. apply Forall_app_2.
  - eapply Forall_impl; [exact Hall|]. cbn. intros kf Hkf.
    rewrite length_app. lia.
  - apply Forall_forall. intros x Hx.
    apply elem_of_lookup_imap_1 in Hx as (j & y & -> & Hy).
    apply lookup_lt_Some in Hy.
    unfold adjusted. cbn. rewrite length_app, length_map. lia.
Qed.

(** Every keyframe emitted by the loop is a copy of a keyframe [orig] of the
    pose of some token: shifted by the clock [c], with the duration of
    [orig], and holding a dict with the entries of the dict of [orig]. *)
Definition copy_of (h : heap) (kf : KeyFrame) : Prop :=
  exists word p orig c,
    get_pose mapper0 word = inr p
    /\ orig ∈ keyframes p
    /\ timestamp kf = c + timestamp orig
    /\ duration kf = duration orig
    /\ is_Some (h !! joint_positions orig)
    /\ h !! joint_positions kf = h !! joint_positions orig.

Definition copied (st : loop_state) (h : heap) : Prop :=
  Forall (copy_of h) (ls_keyframes st).

Lemma copy_of_app h extra kf : copy_of h kf -> copy_of (h ++ extra) kf.
Proof.
  intros (word & p & orig & c & Hp & Hin & Ht & Hd & [d Hd'] & Hj).
  exists word, p, orig, c. repeat split; try done.
  - exists d. by apply lookup_app_l_Some.
  - rewrite Hd' in Hj.
    by rewrite (lookup_app_l_Some _ _ _ _ Hj), (lookup_app_l_Some _ _ _ _ Hd').
Qed.

Lemma step_copied i word p st h :
  get_pose mapper0 word = inr p -> pose_ok 19 p = true ->
  (19 <= length h)%nat ->
  copied st h ->
  copied (step i word p (length h) st) (h ++ map (contents h) (keyframes p)).
Proof.
  intros Hp Hok Hlen Hall. unfold copied. cbn [step ls_keyframes].
  apply Forall_app_2.
  - eapply Forall_impl; [exact Hall|]. intros kf. apply copy_of_app.
  - apply Forall_forall. intros x Hx.
    apply elem_of_lookup_imap_1 in Hx as (j & y & -> & Hy).
    pose proof (pose_ok_allocated _ _ h Hok Hlen) as Halloc.
    rewrite Forall_forall in Halloc.
    specialize (Halloc y (list_elem_of_lookup_2 _ _ _ Hy)).
    destruct (lookup_lt_is_Some_2 h (joint_positions y) Halloc) as [d Hd].
    exists word, p, y, (clock_at i word st).
    split; [exact Hp|]. split; [by eapply list_elem_of_lookup_2|].
    split; [reflexivity|]. split; [reflexivity|].
    split; [exists d; by apply lookup_app_l_Some|].
    unfold adjusted. cbn [joint_positions].
    rewrite lookup_app_r by lia.
    replace (length h + j - length h)%nat with j by lia.
    rewrite (lookup_app_l_Some _ _ _ _ Hd).
    rewrite list_lookup_fmap_Some_2 with (x := y); [|exact Hy].
    unfold contents. by rewrite Hd.
Qed.

(** *** The durations *)

(** The durations of the keyframes emitted so far are those of the
    keyframes of the poses of the tokens handled so far. *)
Definition summed (done : list string) (st : loop_state) : Prop :=
  map duration (ls_keyframes st) = pose_durations mapper0 done.

Lemma duration_adjusted ct base (l : list KeyFrame) :
  map duration (imap (adjusted ct base) l) = map duration l.
Proof.
  revert base. induction l as [|a l IH]; intros base; [done|].
  rewrite imap_cons. cbn [map]. f_equal.
  rewrite (imap_ext _ (adjusted ct (S base))); [apply IH|].
  intros i x _. unfold adjusted, compose. f_equal. lia.
Qed.

Lemma step_summed done word p base st :
  get_pose mapper0 word = inr p ->
  summed done st -> summed (done ++ [word]) (step (length done) word p base st).
Proof.
  unfold summed. intros Hp Hs. cbn [step ls_keyframes].
  assert (E : pose_keyframe_durations mapper0 word
              = map duration (keyframes p))
    by (unfold pose_keyframe_durations; by rewrite Hp).
  rewrite map_app, duration_adjusted, Hs.
  unfold pose_durations. rewrite flat_map_app. cbn [flat_map].
  by rewrite app_nil_r, E.
Qed.

(** The invariants together. *)
Definition timeline_inv (n0 : nat) (done : list string) (st : loop_state)
    (h : heap) : Prop :=
  ordered st /\ clocked done st /\ stored n0 st h /\ copied st h
  /\ summed done st.

Lemma timeline_spec (gloss_words : list string) (extra : heap) :
  exists st h',
    _generate_keyframe_sequence animation_engine gloss_words
      (library_heap ++ extra)
    = inr (ls_keyframes st ++ [rest_keyframe st], h')
    /\ timeline_inv (length (library_heap ++ extra)) gloss_words st h'.
Proof.
  apply (generate_rule (timeline_inv (length (library_heap ++ extra)))).
  - intros done word p st h (Ho & Hc & Hs & Hcp & Hsum) Hlen Hp Hok.
    split; [by apply step_ordered|].
    split; [by apply step_clocked|].
    split; [by apply step_stored|].
    split; [by apply step_copied|by apply step_summed].
  - split; [split; constructor|].
    split; [split; [reflexivity|reflexivity]|].
    split; [|split; [constructor|reflexivity]].
    split; [by apply prefix_app_r|]. split; [lia|constructor].
  - rewrite length_app, library_heap_length. lia.
Qed.

(** ** Properties of the timeline builder *)

(** The entries of the joint-position dict of the only keyframe of the
    DEFAULT pose. *)
Definition DEFAULT_joints : joints :=
  [("head", (0.0, 0.0, 0.0));
   ("right_hand", (0.3, 0.5, 0.0));
   ("left_hand", (-0.3, 0.5, 0.0));
   ("torso", (0.0, 0.0, 0.0))].

Lemma DEFAULT_first_keyframe :
  get_pose mapper0 "DEFAULT" = inr DEFAULT_pose
  /\ first (keyframes DEFAULT_pose) = inr (mkKeyFrame 0.0 18 1.0).
Proof. split; reflexivity. Qed.

Lemma library_dict_stays (h : heap) (r : ref) (d : joints) :
  library_heap `prefix_of` h -> library_heap !! r = Some d -> h !! r = Some d.
Proof. intros [extra ->] Hr. by apply lookup_app_l_Some. Qed.

(** C5. For the empty token sequence the builder returns exactly one
    keyframe: it lies at 0.5 s, and its joint positions are those of the
    first keyframe of the DEFAULT pose.  The store is left as it was. *)
Theorem empty_sequence_single_rest_keyframe (extra : heap) :
  exists kf dflt k0,
    _generate_keyframe_sequence animation_engine [] (library_heap ++ extra)
    = inr ([kf], library_heap ++ extra)
    /\ timestamp kf == 0.5
    /\ get_pose mapper0 "DEFAULT" = inr dflt
    /\ first (keyframes dflt) = inr k0
    /\ joint_positions kf = joint_positions k0
    /\ (library_heap ++ extra) !! joint_positions kf = Some DEFAULT_joints.
Proof.
  exists (mkKeyFrame (0.0 + 0.5) 18 0.5), DEFAULT_pose, (mkKeyFrame 0.0 18 1.0).
  repeat split.
Qed.

(** With exact additions, the timestamp of the rest keyframe of a
    non-empty token sequence is the sum of the transition durations used,
    plus the sum of the keyframe durations of the poses of the tokens,
    plus 0.5. *)
Lemma rest_timestamp_exact (gloss_words : list string) (extra : heap) :
  gloss_words <> [] ->
  exists kfs h' rest,
    _generate_keyframe_sequence animation_engine gloss_words
      (library_heap ++ extra) = inr (kfs, h')
    /\ last kfs = Some rest
    /\ timestamp rest
       == Qsum (transitions_used mapper0 gloss_words)
          + Qsum (pose_durations mapper0 gloss_words)
          + 0.5.
Proof.
  intros _.
  destruct (timeline_spec gloss_words extra)
    as (st & h' & Hrun & _ & [Hclock _] & _).
  exists (ls_keyframes st ++ [rest_keyframe st]), h', (rest_keyframe st).
  split; [exact Hrun|]. split; [apply last_snoc|].
  cbn [rest_keyframe timestamp]. by rewrite Hclock.
Qed.

(** C4. For every list of strings the builder returns keyframes whose
    timestamps never decrease from the first to the last. *)
Theorem timestamps_nondecreasing (gloss_words : list string) (extra : heap) :
  exists kfs h',
    _generate_keyframe_sequence animation_engine gloss_words
      (library_heap ++ extra) = inr (kfs, h')
    /\ StronglySorted Qle (map timestamp kfs).
Proof.
  destruct (timeline_spec gloss_words extra)
    as (st & h' & Hrun & [Hs Hb] & _).
  exists (ls_keyframes st ++ [rest_keyframe st]), h'.
  split; [exact Hrun|]. apply sorted_timestamps.
  apply StronglySorted_app_2; [|exact Hs|repeat constructor].
  intros x1 x2 H1 H2. apply list_elem_of_singleton in H2 as ->.
  rewrite Forall_forall in Hb. specialize (Hb _ H1).
  unfold ts_le, rest_keyframe. cbn. lra.
Qed.

(** C3, on the code as it is.  For every token sequence the keyframes emitted
    for the tokens are copies: shifted by the clock, with the duration of
    the original, and holding a dict allocated by the call with the entries
    of the original.  The final rest keyframe is not: its dict is the very
    object held by the first keyframe of the DEFAULT pose in the library. *)
Theorem rest_keyframe_shares_library_dict (gloss_words : list string)
    (extra : heap) :
  exists emitted rest h' k0,
    _generate_keyframe_sequence animation_engine gloss_words
      (library_heap ++ extra) = inr (emitted ++ [rest], h')
    /\ Forall (copy_of h') emitted
    /\ Forall (fun kf =>
                 (length (library_heap ++ extra) <= joint_positions kf)%nat)
              emitted
    /\ first (keyframes DEFAULT_pose) = inr k0
    /\ pose_library mapper0 !! "DEFAULT" = Some DEFAULT_pose
    /\ joint_positions rest = joint_positions k0
    /\ (joint_positions rest < length library_heap)%nat.
Proof.
  destruct (timeline_spec gloss_words extra)
    as (st & h' & Hrun & _ & _ & (_ & _ & Hfresh) & Hcopied & _).
  exists (ls_keyframes st), (rest_keyframe st), h', (mkKeyFrame 0.0 18 1.0).
  split; [exact Hrun|]. split; [exact Hcopied|].
  split.
  { eapply Forall_impl; [exact Hfresh|]. cbn. intros kf Hkf. lia. }
  split; [reflexivity|]. split; [reflexivity|]. split; [reflexivity|].
  cbn. rewrite library_heap_length. lia.
Qed.

(** ** Properties of the two lookups *)

(** The fallback of [get_transition_duration]. *)
Definition fallback_transition : Q := 0.3.

(** The entry of the transition table for a pair of keys, if any. *)
Definition table_entry (m : ISLGlossMapper) (from_key to_key : string)
    : option Q :=
  row ← transition_rules m !! from_key; row !! to_key.

Lemma get_transition_duration_entry (m : ISLGlossMapper) (from_pose to_pose : string) :
  get_transition_duration m from_pose to_pose
  = default fallback_transition
      (table_entry m (Str.upper from_pose) (Str.upper to_pose)).
Proof.
  unfold get_transition_duration, table_entry.
  destruct (transition_rules m !! Str.upper from_pose) as [row|]; cbn; [done|].
  by rewrite lookup_empty.
Qed.

(** A token written with the long s (U+017F), whose upper-case form is the
    letter S, gets the pose of YES. *)
Lemma lookup_of_long_s :
  Str.upper ("ye" +:+ Str.bytes [197; 191]%nat) = "YES"
  /\ get_pose mapper0 ("ye" +:+ Str.bytes [197; 191]%nat)
     = get_pose mapper0 "YES"
  /\ (exists p, get_pose mapper0 "YES" = inr p /\ name p = "YES").
Proof.
  split; [reflexivity|]. split; [reflexivity|].
  rewrite get_pose_inr.
  destruct (pose_library mapper0 !! Str.upper "YES") as [p|] eqn:E;
    [|by vm_compute in E].
  exists p. split; [done|]. vm_compute in E. by injection E as <-.
Qed.

(** A token in capitals but for its Kelvin sign (U+212A), whose lower-case
    form is the letter k. *)
Definition kelvin_token : string :=
  "THAN" +:+ Str.bytes [226; 132; 170]%nat +:+ "-YOU".

(** C6, the counterexample.  The lookup is not the same for the two cases
    of every token: the token THAN?-YOU written with the Kelvin sign is its
    own upper-case form and is no key of the library, so it gets the
    DEFAULT pose, while its lower-case form is thank-you and gets the pose
    stored under THANK-YOU. *)
Theorem lookup_differs_on_kelvin_sign :
  Str.upper kelvin_token = kelvin_token
  /\ Str.lower kelvin_token = "thank-you"
  /\ get_pose mapper0 kelvin_token = inr DEFAULT_pose
  /\ (exists p, pose_library mapper0 !! "THANK-YOU" = Some p
                /\ get_pose mapper0 (Str.lower kelvin_token) = inr p
                /\ name p = "THANK-YOU")
  /\ get_pose mapper0 (Str.lower kelvin_token) <> get_pose mapper0 kelvin_token.
Proof.
  split; [reflexivity|]. split; [reflexivity|]. split; [reflexivity|].
  split.
  { destruct (pose_library mapper0 !! "THANK-YOU") as [p|] eqn:E;
      [|by vm_compute in E].
    exists p. split; [done|].
    change (Str.lower kelvin_token) with "thank-you".
    unfold get_pose. change (Str.upper "thank-you") with "THANK-YOU".
    rewrite E. split; [done|].
    vm_compute in E. by injection E as <-. }
  change (Str.lower kelvin_token) with "thank-you".
  rewrite !get_pose_inr.
  change (Str.upper "thank-you") with "THANK-YOU".
  change (Str.upper kelvin_token) with kelvin_token.
  intros H. apply (f_equal (fun r => match r with
                                     | inr p => name p
                                     | inl _ => EmptyString
                                     end)) in H.
  by vm_compute in H.
Qed.

(** C6. On the engine of the module both lookups return a result for every
    string and depend on it only through its upper-case form.  [get_pose]
    never raises: it returns the pose stored under the upper-cased token
    and, when there is none, the pose stored under DEFAULT.
    [get_transition_duration] returns the table entry of the upper-cased
    pair and, when there is none, 0.3 s.  Every string and its upper-case
    form get the same results; an ASCII string and its lower-case form get
    the same results.  Unseen tokens and the empty string get the DEFAULT
    pose and 0.3 s. *)
Theorem lookups_total_case_insensitive :
  pose_library mapper0 !! "DEFAULT" = Some DEFAULT_pose
  /\ (forall w,
        get_pose mapper0 w
        = inr (match pose_library mapper0 !! Str.upper w with
               | Some p => p
               | None => DEFAULT_pose
               end))
  /\ (forall w, get_pose mapper0 (Str.upper w) = get_pose mapper0 w)
  /\ (forall w, Str.isascii w = true ->
                get_pose mapper0 (Str.lower w) = get_pose mapper0 w)
  /\ (forall a b,
        get_transition_duration mapper0 a b
        = match table_entry mapper0 (Str.upper a) (Str.upper b) with
          | Some d => d
          | None => 0.3
          end)
  /\ (forall a b,
        get_transition_duration mapper0 (Str.upper a) (Str.upper b)
        = get_transition_duration mapper0 a b)
  /\ (forall a b,
        Str.isascii a = true -> Str.isascii b = true ->
        get_transition_duration mapper0 (Str.lower a) (Str.lower b)
        = get_transition_duration mapper0 a b)
  /\ get_pose mapper0 EmptyString = inr DEFAULT_pose
  /\ get_pose mapper0 "GOODBYE" = inr DEFAULT_pose
  /\ get_pose mapper0 "hello" = get_pose mapper0 "HELLO"
  /\ get_transition_duration mapper0 EmptyString EmptyString = 0.3
  /\ get_transition_duration mapper0 "YES" "NO" = 0.3
  /\ get_transition_duration mapper0 "hello" "You" = 0.2.
Proof.
  split; [reflexivity|].
  split; [intros w; apply get_pose_inr|].
  split.
  { intros w. unfold get_pose. by rewrite upper_idem. }
  split.
  { intros w Hw. unfold get_pose. by rewrite upper_lower. }
  split; [intros a b; apply get_transition_duration_entry|].
  split.
  { intros a b. rewrite !get_transition_duration_entry.
    by rewrite !upper_idem. }
  split.
  { intros a b Ha Hb. rewrite !get_transition_duration_entry.
    by rewrite !upper_lower. }
  repeat split.
Qed.

Lemma lookups_total_case_insensitive_witness :
  Str.isascii "Thank-You" = true
  /\ get_pose mapper0 (Str.lower "Thank-You") = get_pose mapper0 "Thank-You"
  /\ get_transition_duration mapper0 (Str.lower "Hello") (Str.lower "You")
     = get_transition_duration mapper0 "Hello" "You".
Proof.
  pose proof lookups_total_case_insensitive
    as (_ & _ & _ & Hpose & _ & _ & Hduration & _).
  split; [reflexivity|]. split.
  - by apply Hpose.
  - by apply Hduration.
Defined.

(** ** The rest keyframe on binary64 *)

(** The keyframe emitted for the [i]-th keyframe [kf] of a pose, when the
    clock is [current_time] and the store has [base] objects. *)
Definition adjusted64 (current_time : float) (base i : nat) (kf : KeyFrame)
    : Binary64.KeyFrame :=
  Binary64.mkKeyFrame
    (current_time + Binary64.timestamp_of kf)%float (base + i)%nat
    (Binary64.duration_of kf).

Lemma emit_pose_binary64 current_time pose_kfs :
  forall acc h,
    Forall (allocated h) pose_kfs ->
    Binary64.emit_pose current_time pose_kfs acc h
    = inr (acc ++ imap (adjusted64 current_time (length h)) pose_kfs,
           h ++ map (contents h) pose_kfs).
Proof.
  induction pose_kfs as [|kf rest IH]; intros acc h Hall.
  - simpl. by rewrite !app_nil_r.
  - inversion Hall as [|? ? Hkf Hrest]; subst.
    destruct (lookup_lt_is_Some_2 h (joint_positions kf) Hkf) as [d Hd].
    cbn [Binary64.emit_pose].
    unfold mbind, M_bind, dict_copy, Binary64.joint_positions_of.
    rewrite Hd. rewrite IH.
    + rewrite length_app, imap_cons. cbn [length map].
      rewrite <- !app_assoc. cbn [app].
      assert (E1 : imap (adjusted64 current_time (length h + 1)) rest
                   = imap (adjusted64 current_time (length h) ∘ S) rest).
      { apply imap_ext. intros i x _. unfold adjusted64, compose.
        f_equal. lia. }
      assert (E2 : map (contents (h ++ [d])) rest = map (contents h) rest).
      { apply map_ext_Forall.
        eapply Forall_impl; [exact Hrest|].
        intros x Hx. by apply contents_app. }
      assert (E3 : contents h kf = d).
      { unfold contents. by rewrite Hd. }
      rewrite E1, E2, E3. unfold adjusted64. by rewrite Nat.add_0_r.
    + eapply Forall_impl; [exact Hrest|].
      intros x Hx. unfold allocated in *. rewrite length_app. lia.
Qed.

(** The outer loop runs to its end, on a store that holds the library, and
    leaves the clock of the design document in [current_time]. *)
Lemma loop_binary64 (py_sum : list float -> float) (gloss_words : list string) :
  forall i st h,
    (19 <= length h)%nat ->
    exists st' h',
      Binary64.loop py_sum mapper0 i gloss_words st h = inr (st', h')
      /\ Binary64.ls_current_time st'
         = Binary64.clock py_sum mapper0 i (Binary64.ls_previous_pose st)
             (Binary64.ls_current_time st) gloss_words
      /\ h `prefix_of` h'.
Proof.
  induction gloss_words as [|word rest IH]; intros i st h Hlen.
  - exists st, h. by repeat split.
  - destruct (get_pose_ok word) as (p & Hp & Hok).
    cbn [Binary64.loop Binary64.clock].
    unfold mbind at 1. unfold M_bind at 1.
    unfold Binary64.loop_body, mbind, M_bind, lift. rewrite Hp.
    rewrite emit_pose_binary64 by (by eapply pose_ok_allocated).
    unfold mret, M_ret.
    match goal with
    | |- context [Binary64.loop _ _ _ _ ?st1 ?h1] =>
        destruct (IH (S i) st1 h1) as (st' & h' & Hrun & Hclock & Hpre);
          [rewrite length_app; lia|]
    end.
    exists st', h'. split; [exact Hrun|]. split.
    + rewrite Hclock. cbn [Binary64.ls_previous_pose Binary64.ls_current_time].
      unfold Binary64.pose_keyframe_durations. by rewrite Hp.
    + etrans; [|exact Hpre]. by apply prefix_app_r.
Qed.

(** Every number of the pose library is written with few digits, so that
    [literal] reads it as Python does. *)
Lemma library_literals_small :
  map_Forall
    (fun _ pose =>
       forallb (fun kf => Binary64.small (timestamp kf)
                          && Binary64.small (duration kf))
               (keyframes pose) = true)
    (pose_library mapper0)
  /\ map_Forall
       (fun _ row => map_Forall (fun _ d => Binary64.small d = true) row)
       (transition_rules mapper0)
  /\ Binary64.small 0.3 = true.
Proof. split; [by_evaluation|]. split; [by_evaluation|reflexivity]. Qed.

(** The timestamp of the last keyframe that the builder returns for the
    tokens, on the store of the library. *)
Definition rest_timestamp (py_sum : list float -> float)
    (gloss_words : list string) : option float :=
  match Binary64._generate_keyframe_sequence py_sum animation_engine
          gloss_words library_heap with
  | inr (kfs, _) => Binary64.timestamp <$> last kfs
  | inl _ => None
  end.

(** C2, the counterexample.  For the tokens HOW, HELLO the builder puts the
    rest keyframe at 3.3000000000000003, with either [sum]: the clock goes
    0.8 + 0.4 = 1.2000000000000002, then by the transition 0.3 to
    1.5000000000000002, then by 0.5 + 0.5 + 0.3 = 1.3 to
    2.8000000000000003.  The sum of the transition used and of the five
    durations, plus 0.5, is 3.3; the double nearest to it, and the sum
    taken on doubles, are both the double written 3.3, which the timestamp
    is not.  For NO, NO, NO and the [sum] that adds from the left, the rest
    keyframe lies at 3.7999999999999994, and the sum is 3.8. *)
Theorem rest_timestamp_is_not_the_sum :
  rest_timestamp Binary64.sum_left ["HOW"; "HELLO"]
  = Some 3.3000000000000003%float
  /\ rest_timestamp Binary64.sum_compensated ["HOW"; "HELLO"]
     = Some 3.3000000000000003%float
  /\ PrimFloat.ltb 3.3 3.3000000000000003 = true
  /\ rest_timestamp Binary64.sum_left ["HOW"; "HELLO"] <> Some 3.3%float
  /\ rest_timestamp Binary64.sum_compensated ["HOW"; "HELLO"]
     <> Some 3.3%float
  /\ transitions_used mapper0 ["HOW"; "HELLO"] = [0.3]
  /\ pose_durations mapper0 ["HOW"; "HELLO"] = [0.8; 0.4; 0.5; 0.5; 0.3]
  /\ Qsum [0.3] + Qsum [0.8; 0.4; 0.5; 0.5; 0.3] + 0.5 == 3.3
  /\ Binary64.literal 3.3 = 3.3%float
  /\ Binary64.stated_sum [0.3] [0.8; 0.4; 0.5; 0.5; 0.3] = 3.3%float
  /\ rest_timestamp Binary64.sum_left ["NO"; "NO"; "NO"]
     = Some 3.7999999999999994%float
  /\ PrimFloat.ltb 3.7999999999999994 3.8 = true
  /\ rest_timestamp Binary64.sum_left ["NO"; "NO"; "NO"] <> Some 3.8%float
  /\ Qsum (transitions_used mapper0 ["NO"; "NO"; "NO"])
     + Qsum (pose_durations mapper0 ["NO"; "NO"; "NO"]) + 0.5 == 3.8
  /\ Binary64.literal 3.8 = 3.8%float
  /\ Binary64.stated_sum (transitions_used mapper0 ["NO"; "NO"; "NO"])
       (pose_durations mapper0 ["NO"; "NO"; "NO"]) = 3.8%float.
Proof.
  assert (H1 : rest_timestamp Binary64.sum_left ["HOW"; "HELLO"]
               = Some 3.3000000000000003%float) by (by vm_compute).
  assert (H2 : rest_timestamp Binary64.sum_compensated ["HOW"; "HELLO"]
               = Some 3.3000000000000003%float) by (by vm_compute).
  assert (H3 : rest_timestamp Binary64.sum_left ["NO"; "NO"; "NO"]
               = Some 3.7999999999999994%float) by (by vm_compute).
  assert (Hneq : forall x y, PrimFloat.ltb x y = true ->
                             PrimFloat.ltb y y = false -> Some x <> Some y).
  { intros x y Hxy Hyy [= ->]. by rewrite Hxy in Hyy. }
  split; [exact H1|]. split; [exact H2|]. split; [reflexivity|].
  split; [rewrite H1; apply not_eq_sym, Hneq; reflexivity|].
  split; [rewrite H2; apply not_eq_sym, Hneq; reflexivity|].
  split; [reflexivity|]. split; [reflexivity|]. split; [reflexivity|].
  split; [reflexivity|]. split; [reflexivity|].
  split; [exact H3|]. split; [reflexivity|].
  split; [rewrite H3; apply Hneq; reflexivity|].
  split; [reflexivity|]. split; reflexivity.
Qed.

(** C2.  For every non-empty token sequence, and whatever [sum] is, the
    builder returns a list whose last keyframe is the rest keyframe: its
    timestamp is the clock plus 0.5, where the clock starts at 0.0 and
    takes, for each token in turn, the transition from the token before
    it, but for the first token, and then the sum of the durations of the
    keyframes of its pose, every addition being one of doubles; it holds
    the joint positions of the first keyframe of the DEFAULT pose; its
    duration is 0.5 s. *)
Theorem last_keyframe_is_rest (py_sum : list float -> float)
    (gloss_words : list string) (extra : heap) :
  gloss_words <> [] ->
  exists kfs h' rest dflt k0,
    Binary64._generate_keyframe_sequence py_sum animation_engine gloss_words
      (library_heap ++ extra) = inr (kfs, h')
    /\ last kfs = Some rest
    /\ Binary64.timestamp rest
       = (Binary64.clock py_sum mapper0 0 "DEFAULT" 0.0 gloss_words
          + 0.5)%float
    /\ get_pose mapper0 "DEFAULT" = inr dflt
    /\ first (keyframes dflt) = inr k0
    /\ Binary64.joint_positions rest = joint_positions k0
    /\ h' !! Binary64.joint_positions rest = Some DEFAULT_joints
    /\ Binary64.duration rest = 0.5%float.
Proof.
  intros _.
  destruct (loop_binary64 py_sum gloss_words 0
              (Binary64.mkLoopState [] 0.0 "DEFAULT") (library_heap ++ extra))
    as (st & h' & Hrun & Hclock & Hpre).
  { rewrite length_app, library_heap_length. lia. }
  exists (Binary64.ls_keyframes st
          ++ [Binary64.mkKeyFrame (Binary64.ls_current_time st + 0.5)%float
                18 0.5%float]),
    h', (Binary64.mkKeyFrame (Binary64.ls_current_time st + 0.5)%float
           18 0.5%float),
    DEFAULT_pose, (mkKeyFrame 0.0 18 1.0).
  split.
  { unfold Binary64._generate_keyframe_sequence, mbind, M_bind.
    rewrite Hrun. reflexivity. }
  split; [apply last_snoc|].
  split; [cbn [Binary64.timestamp]; by rewrite Hclock|].
  split; [reflexivity|]. split; [reflexivity|]. split; [reflexivity|].
  split; [|reflexivity].
  apply (library_dict_stays h' 18 DEFAULT_joints); [|reflexivity].
  etrans; [|exact Hpre]. by apply prefix_app_r.
Qed.

Lemma last_keyframe_is_rest_witness :
  exists kfs h' rest dflt k0,
    Binary64._generate_keyframe_sequence Binary64.sum_left animation_engine
      ["HELLO"; "you"] (library_heap ++ []) = inr (kfs, h')
    /\ last kfs = Some rest
    /\ Binary64.timestamp rest
       = (Binary64.clock Binary64.sum_left mapper0 0 "DEFAULT" 0.0
            ["HELLO"; "you"] + 0.5)%float
    /\ get_pose mapper0 "DEFAULT" = inr dflt
    /\ first (keyframes dflt) = inr k0
    /\ Binary64.joint_positions rest = joint_positions k0
    /\ h' !! Binary64.joint_positions rest = Some DEFAULT_joints
    /\ Binary64.duration rest = 0.5%float.
Proof.
  apply (last_keyframe_is_rest Binary64.sum_left ["HELLO"; "you"] []).
  discriminate.
Defined.

(** ** Properties of the packaging *)

(** A joint position read back from a decoded frame. *)
Definition vec3_of_value (v : value) : option vec3 :=
  match v with
  | VList [VFloat x; VFloat y; VFloat z] => Some (x, y, z)
  | VTuple [VFloat x; VFloat y; VFloat z] => Some (x, y, z)
  | _ => None
  end.

(** The joint positions read back from a decoded frame. *)
Definition joints_of_value (v : value) : option joints :=
  match v with
  | VDict entries =>
      mapM (fun kv => p ← vec3_of_value kv.2; Some (kv.1, p)) entries
  | _ => None
  end.

Lemma joints_read_back (d : joints) :
  joints_of_value (json_image (joints_value d)) = Some d.
Proof.
  unfold joints_value. cbn [json_image joints_of_value].
  induction d as [|[k [[x y] z]] d IH]; [done|].
  cbn [map mapM]. cbn [map] in IH. rewrite IH. reflexivity.
Qed.

Section Packaging.

Variable json_dumps_compact : value -> string.
Variable json_loads : string -> option value.
Variable b64encode : string -> string.
Variable b64decode : string -> option string.
Variable utf8_encode : string -> string.
Variable utf8_decode : string -> option string.

(** What the library promises: each decoder undoes its encoder, and
    [json.loads] returns the tuples of the value as lists. *)
Hypothesis json_round_trip :
  forall v, json_loads (json_dumps_compact v) = Some (json_image v).
Hypothesis b64_round_trip : forall b, b64decode (b64encode b) = Some b.
Hypothesis utf8_round_trip : forall s, utf8_decode (utf8_encode s) = Some s.

Variable e : AvatarAnimationEngine.

(** The dict of the keyframe at index [i] of [n], as a function of the
    store. *)
Definition frame_value (h : heap) (n i : nat) (keyframe : KeyFrame) : value :=
  VDict
    [ ("frame_number", VInt (Z.of_nat i));
      ("timestamp", VFloat (timestamp keyframe));
      ("duration", VFloat (duration keyframe));
      ("joint_positions", joints_value (contents h keyframe));
      ("interpolation",
       VStr (if (Z.of_nat i <? Z.of_nat n - 1)%Z then "linear" else "hold"));
      ("visual_frame",
       _create_visual_frame b64encode utf8_encode e (contents h keyframe)
         (timestamp keyframe) i) ].

Lemma frame_data_spec h n i keyframe :
  allocated h keyframe ->
  frame_data b64encode utf8_encode e n i keyframe h
  = inr (frame_value h n i keyframe, h).
Proof.
  intros Ha. unfold frame_data, deref, mbind, M_bind, frame_value, contents.
  destruct (lookup_lt_is_Some_2 h (joint_positions keyframe) Ha) as [d Hd].
  by rewrite Hd.
Qed.

Lemma animation_frames_spec h n kfs :
  forall i,
    Forall (allocated h) kfs ->
    animation_frames b64encode utf8_encode e n i kfs h
    = inr (imap (fun j => frame_value h n (i + j)) kfs, h).
Proof.
  induction kfs as [|kf kfs IH]; intros i Hall; [done|].
  inversion Hall as [|? ? Hkf Hrest]; subst.
  cbn [animation_frames]. unfold mbind, M_bind.
  rewrite frame_data_spec by done. rewrite IH by done.
  rewrite imap_cons, Nat.add_0_r. unfold mret, M_ret. do 3 f_equal.
  apply imap_ext. intros j x _. unfold compose. f_equal. lia.
Qed.

Lemma _generate_video_frames_spec h kfs :
  Forall (allocated h) kfs ->
  _generate_video_frames json_dumps_compact b64encode utf8_encode e kfs h
  = inr (b64encode
           (utf8_encode
              (json_dumps_compact
                 (video_metadata e kfs
                    (imap (frame_value h (length kfs)) kfs)))),
         h).
Proof.
  intros Hall. unfold _generate_video_frames, mbind, M_bind.
  by rewrite animation_frames_spec.
Qed.

Lemma frames_read_back h n kfs :
  forall i,
    Forall2
      (fun kf frame =>
         exists entries jp,
           frame = VDict entries
           /\ assoc "joint_positions" entries = Some jp
           /\ joints_of_value jp = Some (contents h kf))
      kfs
      (map json_image (imap (fun j => frame_value h n (i + j)) kfs)).
Proof.
  induction kfs as [|kf kfs IH]; intros i; [constructor|].
  rewrite imap_cons. cbn [map]. constructor.
  - eexists _, _. split; [reflexivity|]. split; [reflexivity|].
    apply joints_read_back.
  - rewrite (imap_ext _ (fun j => frame_value h n (S i + j))).
    + apply IH.
    + intros j x _. unfold compose. f_equal. lia.
Qed.

(** C7. For every list of keyframes whose dicts are in the store, the
    blob that [_generate_video_frames] returns decodes, with the decoding
    steps of [stream_animation] (base64, UTF-8, JSON), to as many frames as
    there are keyframes, to the frame rate of the engine, and, frame by
    frame, to the joint positions of the keyframe.  The store is left as it
    was. *)
Theorem packaged_frames_round_trip (kfs : list KeyFrame) (h : heap) :
  Forall (allocated h) kfs ->
  exists blob frames,
    _generate_video_frames json_dumps_compact b64encode utf8_encode e kfs h
    = inr (blob, h)
    /\ decode_animation json_loads b64decode utf8_decode (VStr blob)
       = Some (VList frames, VInt (fps e))
    /\ length frames = length kfs
    /\ Forall2
         (fun kf frame =>
            exists entries jp,
              frame = VDict entries
              /\ assoc "joint_positions" entries = Some jp
              /\ joints_of_value jp = Some (contents h kf))
         kfs frames.
Proof.
  intros Hall. eexists _, _.
  split; [by apply _generate_video_frames_spec|].
  split.
  { unfold decode_animation.
    rewrite b64_round_trip. cbn [mbind option_bind].
    rewrite utf8_round_trip. cbn [mbind option_bind].
    rewrite json_round_trip. cbn [mbind option_bind].
    reflexivity. }
  split; [by rewrite length_map, length_imap|].
  apply (frames_read_back h (length kfs) kfs 0).
Qed.

End Packaging.

Lemma packaged_frames_round_trip_witness :
  let kfs := [mkKeyFrame 0.0 0 0.5; mkKeyFrame (0.0 + 0.5) 18 0.5] in
  Forall (allocated library_heap) kfs
  /\ exists blob frames,
       _generate_video_frames Wire.dumps Wire.plain Wire.plain
         animation_engine kfs library_heap
       = inr (blob, library_heap)
       /\ decode_animation Wire.loads Wire.plain_back Wire.plain_back
            (VStr blob)
          = Some (VList frames, VInt (fps animation_engine))
       /\ length frames = length kfs
       /\ Forall2
            (fun kf frame =>
               exists entries jp,
                 frame = VDict entries
                 /\ assoc "joint_positions" entries = Some jp
                 /\ joints_of_value jp = Some (contents library_heap kf))
            kfs frames.
Proof.
  assert (Hall : Forall (allocated library_heap)
                   [mkKeyFrame 0.0 0 0.5; mkKeyFrame (0.0 + 0.5) 18 0.5]).
  { repeat constructor; unfold allocated; rewrite library_heap_length;
      cbn; lia. }
  split; [exact Hall|].
  exact (packaged_frames_round_trip Wire.dumps Wire.loads Wire.plain
           Wire.plain_back Wire.plain Wire.plain_back
           Wire.loads_dumps (fun b => eq_refl) (fun s => eq_refl)
           animation_engine _ library_heap Hall).
Defined.

(** ** The recorded total duration *)

(** *** Rounding to two places *)

Lemma round_half_even_comp (x y : Q) :
  x == y -> round_half_even x = round_half_even y.
Proof.
  intros H. unfold round_half_even.
  rewrite (Qfloor_comp _ _ H).
  assert (E : x - inject_Z (Qfloor y) == y - inject_Z (Qfloor y))
    by (rewrite H; reflexivity).
  by rewrite (Qcompare_comp _ _ E (1 # 2) (1 # 2) (Qeq_refl _)).
Qed.

Lemma round_half_even_inject_Z (z : Z) : round_half_even (inject_Z z) = z.
Proof.
  unfold round_half_even. rewrite Qfloor_Z.
  assert (E : inject_Z z - inject_Z z == 0) by lra.
  by rewrite (Qcompare_comp _ _ E (1 # 2) (1 # 2) (Qeq_refl _)).
Qed.

(** A whole number of hundredths. *)
Definition hundredths (x : Q) : Prop := exists n : Z, x == n # 100.

Definition hundredths_b (x : Q) : bool :=
  ((Qnum x * 100) mod Zpos (Qden x) =? 0)%Z.

Lemma hundredths_b_true (x : Q) : hundredths_b x = true -> hundredths x.
Proof.
  unfold hundredths_b, hundredths. intros H. apply Z.eqb_eq in H.
  assert (Hd : (Zpos (Qden x) <> 0)%Z) by lia.
  apply (Z.div_exact _ _ Hd) in H.
  remember ((Qnum x * 100) / Zpos (Qden x))%Z as q eqn:Eq. clear Eq.
  exists q. unfold Qeq. cbn [Qnum Qden]. lia.
Qed.

Lemma hundredths_plus (x y : Q) :
  hundredths x -> hundredths y -> hundredths (x + y).
Proof.
  intros [n Hn] [m Hm]. exists (n + m)%Z. rewrite Hn, Hm.
  unfold Qeq, Qplus. cbn [Qnum Qden]. lia.
Qed.

Lemma hundredths_Qsum (l : list Q) : Forall hundredths l -> hundredths (Qsum l).
Proof.
  induction 1 as [|x l Hx _ IH].
  - exists 0%Z. reflexivity.
  - change (Qsum (x :: l)) with (x + Qsum l). by apply hundredths_plus.
Qed.

(** Rounding to two places leaves a whole number of hundredths as it is. *)
Lemma py_round2_hundredths (x : Q) : hundredths x -> py_round2 x == x.
Proof.
  intros [n Hn]. unfold py_round2.
  assert (E : x * 100 == inject_Z n).
  { rewrite Hn. unfold Qeq, Qmult, inject_Z. cbn [Qnum Qden]. lia. }
  rewrite (round_half_even_comp _ _ E), round_half_even_inject_Z, Hn.
  unfold Qeq, Qdiv, Qmult, Qinv, inject_Z. cbn. lia.
Qed.

(** *** The durations of the library *)

Definition durations_ok (p : AvatarPose) : bool :=
  forallb (fun kf => hundredths_b (duration kf)) (keyframes p).

Lemma library_durations_ok :
  map_Forall (fun _ p => durations_ok p = true) (pose_library mapper0).
Proof. by_evaluation. Qed.

Lemma pose_durations_hundredths (gloss_words : list string) :
  Forall hundredths (pose_durations mapper0 gloss_words).
Proof.
  unfold pose_durations. induction gloss_words as [|word rest IH];
    [constructor|].
  cbn [flat_map]. apply Forall_app_2; [|exact IH].
  unfold pose_keyframe_durations. rewrite get_pose_inr.
  assert (Hok : durations_ok (default DEFAULT_pose
                               (pose_library mapper0 !! Str.upper word)) = true).
  { destruct (pose_library mapper0 !! Str.upper word) as [p|] eqn:E; cbn.
    - exact (map_Forall_lookup_1 _ _ _ _ library_durations_ok E).
    - exact (map_Forall_lookup_1 _ _ _ _ library_durations_ok lookup_DEFAULT). }
  unfold durations_ok in Hok. rewrite forallb_forall in Hok.
  apply Forall_forall. intros d Hd.
  apply list_elem_of_In, in_map_iff in Hd as (kf & <- & Hkf).
  by apply hundredths_b_true, Hok.
Qed.

(** *** What the engine records *)

(** The sum of the durations of the keyframes the builder returns: the
    keyframes of the poses and the rest keyframe; no transition is in it. *)
Lemma sum_of_durations (gloss_words : list string) (st : loop_state) :
  summed gloss_words st ->
  py_sum (map duration (ls_keyframes st ++ [rest_keyframe st]))
  == Qsum (pose_durations mapper0 gloss_words) + 0.5
  /\ hundredths (py_sum (map duration (ls_keyframes st ++ [rest_keyframe st]))).
Proof.
  unfold summed. intros Hs.
  assert (E : py_sum (map duration (ls_keyframes st ++ [rest_keyframe st]))
              == Qsum (pose_durations mapper0 gloss_words) + 0.5).
  { rewrite py_sum_Qsum, map_app, Qsum_app, Hs.
    change (Qsum (map duration [rest_keyframe st])) with (0.5 + 0). lra. }
  split; [exact E|].
  destruct (hundredths_Qsum _ (pose_durations_hundredths gloss_words))
    as [n Hn].
  exists (n + 50)%Z. rewrite E, Hn.
  unfold Qeq, Qplus. cbn [Qnum Qden]. lia.
Qed.

(** The end of the last keyframe: the transitions and the rest keyframe's
    own offset of 0.5 s come on top of the durations. *)
Lemma end_of_last_keyframe (gloss_words : list string) (st : loop_state) :
  clocked gloss_words st ->
  timestamp (rest_keyframe st) + duration (rest_keyframe st)
  == Qsum (transitions_used mapper0 gloss_words)
     + Qsum (pose_durations mapper0 gloss_words) + 1.0.
Proof. intros [Hc _]. cbn [rest_keyframe timestamp duration]. rewrite Hc. lra. Qed.

Lemma transitions_from_nonneg previous (ws : list string) :
  0 <= Qsum (transitions_from mapper0 previous ws).
Proof.
  revert previous. induction ws as [|w ws IH]; intros previous.
  - cbn [transitions_from]. change (Qsum []) with 0. lra.
  - cbn [transitions_from].
    change (Qsum (?x :: ?l)) with (x + Qsum l).
    pose proof (get_transition_duration_nonneg previous w).
    specialize (IH w). lra.
Qed.

Lemma transitions_used_nonneg (ws : list string) :
  0 <= Qsum (transitions_used mapper0 ws).
Proof.
  destruct ws as [|w ws];
    [cbn [transitions_used]; change (Qsum []) with 0; lra|].
  apply transitions_from_nonneg.
Qed.

Section TotalDuration.

Variable json_dumps_compact : value -> string.
Variable b64encode : string -> string.
Variable utf8_encode : string -> string.

(** What [generate_animation_sequence] returns on the engine of the module,
    in terms of the loop variables at the exit of the loop. *)
Lemma generate_animation_sequence_spec (clock : nat -> Q) (isl_gloss : string)
    (extra : heap) :
  exists st h' md art,
    let kfs := ls_keyframes st ++ [rest_keyframe st] in
    _generate_keyframe_sequence animation_engine (_parse_gloss isl_gloss)
      (library_heap ++ extra) = inr (kfs, h')
    /\ timeline_inv (length (library_heap ++ extra)) (_parse_gloss isl_gloss)
         st h'
    /\ generate_animation_sequence json_dumps_compact b64encode utf8_encode
         animation_engine clock isl_gloss (library_heap ++ extra)
       = inr (art, h')
    /\ assoc "total_duration_seconds" art
       = Some (VFloat (py_round2 (py_sum (map duration kfs))))
    /\ assoc "video_data_base64" art
       = Some (VStr (b64encode (utf8_encode (json_dumps_compact (VDict md)))))
    /\ assoc "duration" md
       = Some (VFloat (timestamp (rest_keyframe st)
                       + duration (rest_keyframe st))).
Proof.
  destruct (timeline_spec (_parse_gloss isl_gloss) extra)
    as (st & h' & Hrun & Hinv).
  pose proof Hinv as (_ & _ & (Hpre & Hn0 & Hfresh) & _ & _).
  assert (Hall : Forall (allocated h')
                        (ls_keyframes st ++ [rest_keyframe st])).
  { apply Forall_app_2.
    - eapply Forall_impl; [exact Hfresh|]. cbn. unfold allocated. lia.
    - repeat constructor. unfold allocated, rest_keyframe. cbn.
      rewrite length_app, library_heap_length in Hn0. lia. }
  eexists st, h', _, _. cbn zeta.
  split; [exact Hrun|]. split; [exact Hinv|].
  split.
  { unfold generate_animation_sequence, mbind, M_bind. rewrite Hrun.
    rewrite (_generate_video_frames_spec json_dumps_compact b64encode
               utf8_encode animation_engine h' _ Hall).
    unfold video_metadata. reflexivity. }
  split; [reflexivity|]. split; [reflexivity|].
  cbn [assoc String.eqb Ascii.eqb Bool.eqb]. by rewrite last_snoc.
Qed.

End TotalDuration.

(** What the engine records, for every gloss: [total_duration_seconds] is
    the sum of the durations of all the keyframes of the timeline, rounded
    to two places, which is the keyframe durations of the poses of the
    tokens plus the 0.5 s of the rest keyframe, with no transition in it.
    The [duration] written into the packaged frames is the end of the last
    keyframe: transitions, pose durations, and 1.0 s. *)
Lemma recorded_durations
    (json_dumps_compact : value -> string) (b64encode utf8_encode : string -> string)
    (clock : nat -> Q) (isl_gloss : string) (extra : heap) :
  exists art h kfs rest total md,
    generate_animation_sequence json_dumps_compact b64encode utf8_encode
      animation_engine clock isl_gloss (library_heap ++ extra)
    = inr (art, h)
    /\ _generate_keyframe_sequence animation_engine (_parse_gloss isl_gloss)
         (library_heap ++ extra) = inr (kfs, h)
    /\ last kfs = Some rest
    /\ assoc "total_duration_seconds" art = Some (VFloat total)
    /\ total = py_round2 (py_sum (map duration kfs))
    /\ total == Qsum (pose_durations mapper0 (_parse_gloss isl_gloss)) + 0.5
    /\ assoc "video_data_base64" art
       = Some (VStr (b64encode (utf8_encode (json_dumps_compact (VDict md)))))
    /\ assoc "duration" md = Some (VFloat (timestamp rest + duration rest))
    /\ timestamp rest + duration rest
       == Qsum (transitions_used mapper0 (_parse_gloss isl_gloss))
          + Qsum (pose_durations mapper0 (_parse_gloss isl_gloss)) + 1.0.
Proof.
  destruct (generate_animation_sequence_spec json_dumps_compact b64encode
              utf8_encode clock isl_gloss extra)
    as (st & h' & md & art & Hk & (_ & Hclock & _ & _ & Hsum) & Hrun
        & Htotal & Hblob & Hdur).
  cbn zeta in *.
  destruct (sum_of_durations _ _ Hsum) as [Hs Hh].
  exists art, h', (ls_keyframes st ++ [rest_keyframe st]), (rest_keyframe st),
    (py_round2 (py_sum (map duration (ls_keyframes st ++ [rest_keyframe st])))),
    md.
  split; [exact Hrun|]. split; [exact Hk|]. split; [apply last_snoc|].
  split; [exact Htotal|]. split; [reflexivity|].
  split; [by rewrite (py_round2_hundredths _ Hh)|].
  split; [exact Hblob|]. split; [exact Hdur|].
  by apply end_of_last_keyframe.
Qed.

(** C1, on the code as it is.  For the gloss HELLO YOU the engine of the
    module records a total duration of 2.8 s: the 2.3 s of the five pose
    keyframes and the 0.5 s of the rest keyframe.  The transition of 0.2 s
    is not in it, and it is not the end of the last keyframe, which lies at
    3.0 s and lasts until 3.5 s, the [duration] that the packaged frames
    carry.  So the recorded total is neither of the two sums of the claim,
    whether the trailing rest counts for 0.5 s or for 1.0 s. *)
Theorem total_duration_of_HELLO_YOU :
  _parse_gloss "HELLO YOU" = ["HELLO"; "YOU"]
  /\ exists art h kfs rest total md,
       generate_animation_sequence Wire.dumps Wire.plain Wire.plain
         animation_engine (fun _ => 0) "HELLO YOU" library_heap
       = inr (art, h)
       /\ _generate_keyframe_sequence animation_engine ["HELLO"; "YOU"]
            library_heap = inr (kfs, h)
       /\ last kfs = Some rest
       /\ assoc "total_duration_seconds" art = Some (VFloat total)
       /\ assoc "video_data_base64" art
          = Some (VStr (Wire.plain (Wire.plain (Wire.dumps (VDict md)))))
       /\ assoc "duration" md = Some (VFloat (timestamp rest + duration rest))
       /\ total == 2.8
       /\ Qsum (pose_durations mapper0 ["HELLO"; "YOU"]) == 2.3
       /\ Qsum (transitions_used mapper0 ["HELLO"; "YOU"]) == 0.2
       /\ timestamp rest == 3.0
       /\ timestamp rest + duration rest == 3.5
       /\ ~ total == timestamp rest + duration rest
       /\ ~ total == Qsum (pose_durations mapper0 ["HELLO"; "YOU"])
                     + Qsum (transitions_used mapper0 ["HELLO"; "YOU"]) + 0.5
       /\ ~ total == Qsum (pose_durations mapper0 ["HELLO"; "YOU"])
                     + Qsum (transitions_used mapper0 ["HELLO"; "YOU"]) + 1.0.
Proof.
  split; [reflexivity|].
  destruct (generate_animation_sequence_spec Wire.dumps Wire.plain Wire.plain
              (fun _ => 0) "HELLO YOU" [])
    as (st & h' & md & art & Hk & (_ & Hclock & _ & _ & Hsum) & Hrun
        & Htotal & Hblob & Hdur).
  cbn zeta in *.
  change (_parse_gloss "HELLO YOU") with ["HELLO"; "YOU"] in *.
  destruct (sum_of_durations _ _ Hsum) as [Hs Hh].
  pose proof (py_round2_hundredths _ Hh) as Hr.
  pose proof (end_of_last_keyframe _ _ Hclock) as He.
  destruct Hclock as [Hc _].
  assert (HP : Qsum (pose_durations mapper0 ["HELLO"; "YOU"]) == 2.3)
    by reflexivity.
  assert (HT : Qsum (transitions_used mapper0 ["HELLO"; "YOU"]) == 0.2)
    by reflexivity.
  exists art, h', (ls_keyframes st ++ [rest_keyframe st]), (rest_keyframe st),
    (py_round2 (py_sum (map duration (ls_keyframes st ++ [rest_keyframe st])))),
    md.
  split; [exact Hrun|]. split; [exact Hk|]. split; [apply last_snoc|].
  split; [exact Htotal|]. split; [exact Hblob|]. split; [exact Hdur|].
  split; [rewrite Hr, Hs, HP; reflexivity|].
  split; [exact HP|]. split; [exact HT|].
  split; [cbn [rest_keyframe timestamp]; rewrite Hc, HP, HT; reflexivity|].
  split; [rewrite He, HP, HT; reflexivity|].
  split; [intros H; rewrite Hr, Hs, He, HP, HT in H; discriminate H|].
  split; intros H; rewrite Hr, Hs, HP, HT in H; discriminate H.
Qed.

(** ** Properties of the stream manager *)

Section Manager.

Variable json_dumps : value -> string.
Variable json_loads : string -> option value.
Variable b64decode : string -> option string.
Variable utf8_decode : string -> option string.

(** *** The two registries have the same keys *)

Definition consistent (m : AvatarStreamManager) : Prop :=
  dom (active_connections m) = dom (connection_metadata m).

(** [c] keeps the two registries on the same keys. *)
Definition preserves {A} (c : W A) : Prop :=
  forall w, consistent (manager w) -> consistent (manager (c w).2).

Lemma preserves_ret {A} (a : A) : preserves (mret a).
Proof. by intros w Hw. Qed.

Lemma preserves_bind {A B} (c : W A) (k : A -> W B) :
  preserves c -> (forall a, preserves (k a)) -> preserves (c ≫= k).
Proof.
  intros Hc Hk w Hw. unfold mbind, W_bind.
  specialize (Hc w Hw). destruct (c w) as [a w']. by apply Hk.
Qed.

Lemma preserves_time_time : preserves time_time.
Proof. by intros w Hw. Qed.

Lemma preserves_emit ev : preserves (emit ev).
Proof. by intros w Hw. Qed.

Lemma preserves_ws_send_text ws text : preserves (ws_send_text ws text).
Proof. by intros w Hw. Qed.

Lemma preserves_asyncio_sleep d : preserves (asyncio_sleep d).
Proof. by intros w Hw. Qed.

Lemma preserves_connect websocket stream_id :
  preserves (connect websocket stream_id).
Proof.
  intros w Hw. unfold connect, ws_accept, mbind, W_bind, transport_outcome.
  cbn. destruct (transport w (length (trace w))); cbn; [|exact Hw].
  unfold consistent in *. cbn. rewrite !dom_insert_L. by rewrite Hw.
Qed.

Lemma preserves_disconnect stream_id : preserves (disconnect stream_id).
Proof.
  intros w Hw. unfold disconnect, mbind, W_bind. cbn.
  unfold consistent in *.
  destruct (active_connections (manager w) !! stream_id) as [ws|] eqn:Ea;
    destruct (connection_metadata (manager w) !! stream_id) as [md|] eqn:Em;
    cbn.
  - rewrite !dom_delete_L. by rewrite Hw.
  - apply not_elem_of_dom in Em. rewrite <- Hw in Em.
    apply not_elem_of_dom in Em. congruence.
  - apply not_elem_of_dom in Ea. rewrite Hw in Ea.
    apply not_elem_of_dom in Ea. congruence.
  - exact Hw.
Qed.

Lemma preserves_store_animation_data stream_id animation_data :
  preserves (store_animation_data stream_id animation_data).
Proof. by intros w Hw. Qed.

Lemma ws_send_text_run ws text w :
  ws_send_text ws text w
  = (transport w (length (trace w)),
     mkWorld (manager w)
       (trace w ++ [SendText (ws_id ws) text (transport w (length (trace w)))])
       (transport w) (wall_clock w) (clock_reads w)).
Proof. reflexivity. Qed.

Lemma preserves_send_animation_frame stream_id frame_data :
  preserves (send_animation_frame json_dumps stream_id frame_data).
Proof.
  intros w Hw. unfold send_animation_frame, mbind, W_bind. cbn [get_manager].
  destruct (active_connections (manager w) !! stream_id) as [ws|] eqn:Ea;
    [|exact Hw].
  rewrite ws_send_text_run.
  destruct (transport w (length (trace w))) eqn:Eok.
  - destruct (connection_metadata (manager w) !! stream_id) as [md|] eqn:Em;
      [|exact Hw].
    cbn. unfold consistent in *. cbn. rewrite dom_insert_L.
    assert (stream_id ∈ dom (connection_metadata (manager w)))
      by (apply elem_of_dom; eauto).
    rewrite Hw. symmetry. apply subseteq_union_1_L.
    by apply singleton_subseteq_l.
  - match goal with
    | |- context [disconnect ?s ?w'] =>
        pose proof (preserves_disconnect s w' Hw) as Hd;
        destruct (disconnect s w') as [u w'']
    end.
    exact Hd.
Qed.

Lemma preserves_send_error stream_id error_code error_message :
  preserves (send_error json_dumps stream_id error_code error_message).
Proof.
  unfold send_error.
  apply preserves_bind; [apply preserves_time_time|]. intros now.
  apply preserves_bind; [apply preserves_send_animation_frame|]. intros _.
  apply preserves_ret.
Qed.

Lemma preserves_stream_frames stream_id frame_duration frames :
  preserves (stream_frames json_dumps stream_id frame_duration frames).
Proof.
  induction frames as [|frame rest IH]; [apply preserves_ret|].
  cbn [stream_frames].
  apply preserves_bind; [apply preserves_time_time|]. intros now.
  apply preserves_bind; [apply preserves_send_animation_frame|]. intros [|].
  - apply preserves_bind; [apply preserves_asyncio_sleep|]. by intros _.
  - apply preserves_ret.
Qed.

Lemma preserves_stream_animation stream_id :
  preserves (stream_animation json_dumps json_loads b64decode utf8_decode
               stream_id).
Proof.
  intros w Hw. unfold stream_animation.
  unfold mbind at 1, W_bind at 1. cbn [get_manager].
  destruct (animation_cache (manager w) !! stream_id) as [animation_data|];
    [|by apply preserves_send_error].
  destruct (active_connections (manager w) !! stream_id) as [ws|];
    [|exact Hw].
  revert w Hw. fold (preserves (A := unit)).
  apply preserves_bind; [apply preserves_time_time|]. intros now.
  apply preserves_bind; [apply preserves_send_animation_frame|]. intros [|];
    [|apply preserves_ret].
  destruct (truthy _); [|apply preserves_send_error].
  destruct (decode_animation _ _ _ _) as [[frames fps_value]|];
    [|apply preserves_send_error].
  destruct (one_over fps_value) as [frame_duration|];
    [|apply preserves_send_error].
  destruct (items_of frames) as [frame_list|]; [|apply preserves_send_error].
  apply preserves_bind; [apply preserves_stream_frames|]. intros _.
  apply preserves_bind; [apply preserves_time_time|]. intros now'.
  apply preserves_bind; [apply preserves_send_animation_frame|]. intros _.
  apply preserves_ret.
Qed.

Lemma preserves_cleanup_expired_streams max_age_seconds :
  preserves (cleanup_expired_streams max_age_seconds).
Proof.
  intros w Hw. unfold cleanup_expired_streams, mbind, W_bind.
  cbn [get_manager time_time]. by destruct (decide _).
Qed.

Lemma preserves_run_call (c : call) :
  preserves (run_call json_dumps json_loads b64decode utf8_decode c).
Proof.
  destruct c; cbn [run_call].
  - apply preserves_bind; [apply preserves_connect|]. intros _.
    apply preserves_ret.
  - apply preserves_disconnect.
  - apply preserves_store_animation_data.
  - apply preserves_bind; [apply preserves_send_animation_frame|]. intros _.
    apply preserves_ret.
  - apply preserves_stream_animation.
  - apply preserves_send_error.
  - apply preserves_bind; [apply preserves_cleanup_expired_streams|].
    intros _. apply preserves_ret.
Qed.

Lemma preserves_run_calls (cs : list call) :
  preserves (run_calls json_dumps json_loads b64decode utf8_decode cs).
Proof.
  induction cs as [|c cs IH]; [apply preserves_ret|].
  cbn [run_calls]. apply preserves_bind; [apply preserves_run_call|].
  by intros _.
Qed.

Lemma connect_registers websocket stream_id w :
  if transport w (length (trace w))
  then (connect websocket stream_id w).1 = true
       /\ active_connections (manager (connect websocket stream_id w).2)
            !! stream_id = Some websocket
       /\ is_Some (connection_metadata
                     (manager (connect websocket stream_id w).2) !! stream_id)
  else (connect websocket stream_id w).1 = false
       /\ manager (connect websocket stream_id w).2 = manager w.
Proof.
  unfold connect, ws_accept, mbind, W_bind, transport_outcome. cbn.
  destruct (transport w (length (trace w))); cbn; [|done].
  rewrite !lookup_insert_eq. eauto.
Qed.

Lemma disconnect_removes stream_id w :
  active_connections (manager (disconnect stream_id w).2) !! stream_id = None
  /\ connection_metadata (manager (disconnect stream_id w).2) !! stream_id
     = None.
Proof.
  unfold disconnect, mbind, W_bind. cbn.
  destruct (active_connections (manager w) !! stream_id) as [ws|] eqn:Ea;
    destruct (connection_metadata (manager w) !! stream_id) as [md|] eqn:Em;
    cbn; by rewrite ?lookup_delete_eq.
Qed.

(** The world after the socket call that [send_animation_frame] makes. *)
Definition after_send (ws : WebSocket) (text : string) (w : World) : World :=
  (ws_send_text ws text w).2.

Lemma failed_send_disconnects stream_id frame_data w :
  match active_connections (manager w) !! stream_id with
  | Some ws =>
      if transport w (length (trace w))
      then (send_animation_frame json_dumps stream_id frame_data w).1 = true
           /\ active_connections
                (manager (send_animation_frame json_dumps stream_id
                            frame_data w).2)
              = active_connections (manager w)
      else send_animation_frame json_dumps stream_id frame_data w
           = (false,
              (disconnect stream_id
                 (after_send ws (json_dumps frame_data) w)).2)
  | None => send_animation_frame json_dumps stream_id frame_data w = (false, w)
  end.
Proof.
  unfold send_animation_frame, after_send, mbind, W_bind. cbn [get_manager].
  destruct (active_connections (manager w) !! stream_id) as [ws|] eqn:Ea;
    [|done].
  rewrite ws_send_text_run.
  destruct (transport w (length (trace w))) eqn:Eok.
  - by destruct (connection_metadata (manager w) !! stream_id).
  - cbn [snd]. by destruct (disconnect _ _).
Qed.

(** *** What one call sends *)

(** The reading of the clock that the next call of [time.time()] returns. *)
Definition t_now (w : World) : Q := wall_clock w (clock_reads w).

Lemma disconnect_keeps_trace stream_id w :
  trace (disconnect stream_id w).2 = trace w
  /\ transport (disconnect stream_id w).2 = transport w.
Proof.
  unfold disconnect, mbind, W_bind. cbn.
  by destruct (connection_metadata (manager w) !! stream_id).
Qed.

(** [send_animation_frame] calls [send_text] once when the stream has a
    socket, and not at all when it has none. *)
Lemma send_animation_frame_trace stream_id frame_data w :
  trace (send_animation_frame json_dumps stream_id frame_data w).2
  = trace w
    ++ match active_connections (manager w) !! stream_id with
       | Some ws => [SendText (ws_id ws) (json_dumps frame_data)
                       (transport w (length (trace w)))]
       | None => []
       end.
Proof.
  pose proof (failed_send_disconnects stream_id frame_data w) as H.
  unfold send_animation_frame, mbind, W_bind in *. cbn [get_manager] in *.
  destruct (active_connections (manager w) !! stream_id) as [ws|] eqn:Ea;
    [|by rewrite app_nil_r].
  rewrite ws_send_text_run in *.
  destruct (transport w (length (trace w))) eqn:Eok.
  - by destruct (connection_metadata (manager w) !! stream_id).
  - match goal with
    | |- context [disconnect ?s ?w'] =>
        destruct (disconnect_keeps_trace s w') as [Ht _];
        destruct (disconnect s w') as [u w'']
    end.
    exact Ht.
Qed.

Lemma send_animation_frame_transport stream_id frame_data w :
  transport (send_animation_frame json_dumps stream_id frame_data w).2
  = transport w.
Proof.
  unfold send_animation_frame, mbind, W_bind. cbn [get_manager].
  destruct (active_connections (manager w) !! stream_id) as [ws|] eqn:Ea;
    [|done].
  rewrite ws_send_text_run.
  destruct (transport w (length (trace w))) eqn:Eok.
  - by destruct (connection_metadata (manager w) !! stream_id).
  - match goal with
    | |- context [disconnect ?s ?w'] =>
        destruct (disconnect_keeps_trace s w') as [_ Ht];
        destruct (disconnect s w') as [u w'']
    end.
    exact Ht.
Qed.

Lemma send_error_trace stream_id error_code error_message w :
  trace (send_error json_dumps stream_id error_code error_message w).2
  = trace w
    ++ match active_connections (manager w) !! stream_id with
       | Some ws =>
           [SendText (ws_id ws)
              (json_dumps (error_frame stream_id error_code error_message
                             (t_now w)))
              (transport w (length (trace w)))]
       | None => []
       end.
Proof.
  unfold send_error, mbind at 1, W_bind at 1. cbn [time_time].
  unfold mbind, W_bind.
  match goal with
  | |- context [send_animation_frame _ ?s ?f ?w'] =>
      pose proof (send_animation_frame_trace s f w') as Ht;
      destruct (send_animation_frame json_dumps s f w') as [ok w'']
  end.
  exact Ht.
Qed.

End Manager.

(** C10.  The two registries of the manager have the same keys when the
    module is loaded, and every sequence of calls on the manager keeps them
    so, whatever the peers and the clock do.  [connect], when [accept()]
    returns, registers the stream in both, and when [accept()] raises it
    leaves the manager as it was; [disconnect] removes the stream from
    both; [send_animation_frame], when the send raises, ends as
    [disconnect] does. *)
Theorem registries_keep_the_same_keys
    (json_dumps : value -> string) (json_loads : string -> option value)
    (b64decode utf8_decode : string -> option string)
    (w : World) (cs : list call)
    (websocket : WebSocket) (stream_id : string) (frame_data : value) :
  dom (active_connections (manager w)) = dom (connection_metadata (manager w)) ->
  dom (active_connections AvatarStreamManager_init)
  = dom (connection_metadata AvatarStreamManager_init)
  /\ (let w' := (run_calls json_dumps json_loads b64decode utf8_decode cs w).2 in
      dom (active_connections (manager w'))
      = dom (connection_metadata (manager w')))
  /\ (if transport w (length (trace w))
      then (connect websocket stream_id w).1 = true
           /\ active_connections (manager (connect websocket stream_id w).2)
                !! stream_id = Some websocket
           /\ is_Some (connection_metadata
                         (manager (connect websocket stream_id w).2)
                       !! stream_id)
      else (connect websocket stream_id w).1 = false
           /\ manager (connect websocket stream_id w).2 = manager w)
  /\ (active_connections (manager (disconnect stream_id w).2) !! stream_id
      = None
      /\ connection_metadata (manager (disconnect stream_id w).2) !! stream_id
         = None)
  /\ match active_connections (manager w) !! stream_id with
     | Some ws =>
         if transport w (length (trace w))
         then (send_animation_frame json_dumps stream_id frame_data w).1 = true
              /\ active_connections
                   (manager (send_animation_frame json_dumps stream_id
                               frame_data w).2)
                 = active_connections (manager w)
         else send_animation_frame json_dumps stream_id frame_data w
              = (false,
                 (disconnect stream_id
                    (after_send ws (json_dumps frame_data) w)).2)
     | None =>
         send_animation_frame json_dumps stream_id frame_data w = (false, w)
     end.
Proof.
  intros Hw.
  split; [done|].
  split; [exact (preserves_run_calls json_dumps json_loads b64decode
                   utf8_decode cs w Hw)|].
  split; [apply connect_registers|].
  split; [apply disconnect_removes|].
  apply failed_send_disconnects.
Qed.

(** *** Playing a stream that has no artifact *)

(** The claim as the design document words it: the call adds exactly one
    event, the send of an error frame with the given code. *)
Definition sends_one_error_frame (json_dumps : value -> string)
    (error_code stream_id : string) (w w' : World) : Prop :=
  exists ws message now ok,
    trace w'
    = trace w
      ++ [SendText ws
            (json_dumps (error_frame stream_id error_code message now)) ok].

(** A world with no connection and an empty cache. *)
Definition idle_world : World := initial_world (fun _ => true) (fun _ => 0).

(** C8 as worded fails: with no socket registered for the stream, nothing
    is sent at all. *)
Lemma play_unconnected_sends_nothing :
  animation_cache (manager idle_world) !! "isl_avatar_1" = None
  /\ (forall json_dumps json_loads b64decode utf8_decode,
        trace (stream_animation json_dumps json_loads b64decode utf8_decode
                 "isl_avatar_1" idle_world).2 = [])
  /\ ~ (exists json_dumps json_loads b64decode utf8_decode,
          sends_one_error_frame json_dumps "ANIMATION_NOT_FOUND"
            "isl_avatar_1" idle_world
            (stream_animation json_dumps json_loads b64decode utf8_decode
               "isl_avatar_1" idle_world).2).
Proof.
  split; [reflexivity|]. split; [reflexivity|].
  intros (jd & jl & bd & ud & ws & message & now & ok & H).
  cbn in H. discriminate H.
Qed.

(** C8, amended.  When [stream_animation] is called for a stream with no
    cached artifact, it calls [send_text] exactly once if a socket is
    registered for the stream, with the error frame of code
    ANIMATION_NOT_FOUND, and sends nothing if none is registered. *)
Theorem play_without_artifact
    (json_dumps : value -> string) (json_loads : string -> option value)
    (b64decode utf8_decode : string -> option string)
    (w : World) (stream_id : string) :
  animation_cache (manager w) !! stream_id = None ->
  trace (stream_animation json_dumps json_loads b64decode utf8_decode
           stream_id w).2
  = trace w
    ++ match active_connections (manager w) !! stream_id with
       | Some ws =>
           [SendText (ws_id ws)
              (json_dumps
                 (error_frame stream_id "ANIMATION_NOT_FOUND"
                    "Animation data not available" (t_now w)))
              (transport w (length (trace w)))]
       | None => []
       end.
Proof.
  intros Hcache. unfold stream_animation, mbind at 1, W_bind at 1.
  cbn [get_manager]. rewrite Hcache. apply send_error_trace.
Qed.

(** A client on socket 7 connects to a stream that has no artifact. *)
Definition connected_world : World :=
  (connect (mkWebSocket 7 (Some "127.0.0.1")) "isl_avatar_1" idle_world).2.

Lemma play_without_artifact_witness :
  animation_cache (manager connected_world) !! "isl_avatar_1" = None
  /\ trace (stream_animation Wire.dumps Wire.loads Wire.plain_back
              Wire.plain_back "isl_avatar_1" connected_world).2
     = [Accept 7 true;
        SendText 7
          (Wire.dumps
             (error_frame "isl_avatar_1" "ANIMATION_NOT_FOUND"
                "Animation data not available" 0))
          true].
Proof.
  split; [reflexivity|].
  exact (play_without_artifact Wire.dumps Wire.loads Wire.plain_back
           Wire.plain_back connected_world "isl_avatar_1" eq_refl).
Defined.

(** *** Playing an artifact that has no frames *)

(** The claim as worded: the call adds exactly two events, the send of the
    metadata frame and then the send of one error frame with the given
    code. *)
Definition sends_metadata_then_error (json_dumps : value -> string)
    (error_code stream_id : string) (animation_data : dict) (w w' : World)
    : Prop :=
  exists ws t1 message t2 ok1 ok2,
    trace w'
    = trace w
      ++ [SendText ws
            (json_dumps (metadata_message stream_id animation_data t1)) ok1;
          SendText ws
            (json_dumps (error_frame stream_id error_code message t2)) ok2].

(** The artifact [store_animation_data] keeps for a fallback. *)
Definition cached_fallback : dict :=
  dict_set (fallback_data "HELLO" "generation failed" 0) "cached_at" (VFloat 0).

(** A fallback artifact is cached, a client on socket 7 connects, and the
    peer is gone by the time of the first send: [accept()] returns, every
    later call on the socket raises. *)
Definition broken_peer_world : World :=
  (run_calls Wire.dumps Wire.loads Wire.plain_back Wire.plain_back
     [StoreAnimationData "fallback_1" (fallback_data "HELLO" "generation failed" 0);
      Connect (mkWebSocket 7 None) "fallback_1"]
     (initial_world (fun n => (n =? 0)%nat) (fun _ => 0))).2.

(** C9 as worded fails: when the send of the metadata frame raises, the
    stream is disconnected, removed from both registries, and no error
    frame follows. *)
Lemma play_fallback_on_broken_peer :
  animation_cache (manager broken_peer_world) !! "fallback_1"
  = Some cached_fallback
  /\ active_connections (manager broken_peer_world) !! "fallback_1"
     = Some (mkWebSocket 7 None)
  /\ assoc "video_data_base64" cached_fallback = None
  /\ (forall json_dumps json_loads b64decode utf8_decode,
        let w' := (stream_animation json_dumps json_loads b64decode
                     utf8_decode "fallback_1" broken_peer_world).2 in
        trace w'
        = [Accept 7 true;
           SendText 7
             (json_dumps (metadata_message "fallback_1" cached_fallback 0))
             false]
        /\ active_connections (manager w') !! "fallback_1" = None
        /\ connection_metadata (manager w') !! "fallback_1" = None)
  /\ ~ (exists json_dumps json_loads b64decode utf8_decode,
          sends_metadata_then_error json_dumps "NO_ANIMATION_DATA"
            "fallback_1" cached_fallback broken_peer_world
            (stream_animation json_dumps json_loads b64decode utf8_decode
               "fallback_1" broken_peer_world).2).
Proof.
  split; [reflexivity|]. split; [reflexivity|]. split; [reflexivity|].
  split; [intros jd jl bd ud; split; [reflexivity|split; reflexivity]|].
  intros (jd & jl & bd & ud & ws & t1 & message & t2 & ok1 & ok2 & H).
  cbn in H. discriminate H.
Qed.

(** C9, amended.  When a cached artifact exists for a stream with a
    registered socket and its [video_data_base64] is missing or empty,
    [stream_animation] sends the metadata frame; if that send returns, it
    then sends exactly one error frame, of code NO_ANIMATION_DATA, and
    nothing else: no animation frame and no completion frame.  If the send
    of the metadata frame raises, nothing follows it, and the stream is
    disconnected: it is in neither registry afterwards, and the cache is
    as it was. *)
Theorem play_without_frames
    (json_dumps : value -> string) (json_loads : string -> option value)
    (b64decode utf8_decode : string -> option string)
    (w : World) (stream_id : string) (animation_data : dict)
    (ws : WebSocket) :
  animation_cache (manager w) !! stream_id = Some animation_data ->
  active_connections (manager w) !! stream_id = Some ws ->
  truthy (dict_get animation_data "video_data_base64" (VStr EmptyString))
  = false ->
  let metadata := metadata_message stream_id animation_data (t_now w) in
  let w1 := (send_animation_frame json_dumps stream_id metadata
               (time_time w).2).2 in
  let w' := (stream_animation json_dumps json_loads b64decode utf8_decode
               stream_id w).2 in
  trace w'
  = trace w
    ++ SendText (ws_id ws) (json_dumps metadata)
         (transport w (length (trace w)))
       :: (if transport w (length (trace w))
           then [SendText (ws_id ws)
                   (json_dumps
                      (error_frame stream_id "NO_ANIMATION_DATA"
                         "No animation frames available" (t_now w1)))
                   (transport w (S (length (trace w))))]
           else [])
  /\ (transport w (length (trace w)) = false ->
        active_connections (manager w') !! stream_id = None
        /\ connection_metadata (manager w') !! stream_id = None
        /\ animation_cache (manager w') = animation_cache (manager w)).
Proof.
  intros Hcache Hactive Hempty metadata w1 w'. subst w'.
  destruct (stream_animation json_dumps json_loads b64decode utf8_decode
              stream_id w) as [u wf] eqn:Erun.
  cbn [snd].
  unfold stream_animation, mbind at 1, W_bind at 1 in Erun.
  cbn [get_manager] in Erun. rewrite Hcache, Hactive in Erun.
  unfold mbind at 1, W_bind at 1 in Erun. cbn [time_time] in Erun.
  fold (t_now w) in Erun. fold metadata in Erun.
  unfold mbind at 1, W_bind at 1 in Erun.
  set (w0 := mkWorld (manager w) (trace w) (transport w) (wall_clock w)
                     (S (clock_reads w))) in *.
  pose proof (send_animation_frame_trace json_dumps stream_id metadata w0)
    as Ht.
  pose proof (send_animation_frame_transport json_dumps stream_id metadata w0)
    as Hp.
  pose proof (failed_send_disconnects json_dumps stream_id metadata w0) as Hr.
  change (manager w0) with (manager w) in *.
  change (trace w0) with (trace w) in *.
  change (transport w0) with (transport w) in *.
  rewrite Hactive in Ht, Hr.
  change (time_time w).2 with w0 in w1.
  destruct (transport w (length (trace w))) eqn:Eok.
  - split; [|done]. destruct Hr as [Hok Hact].
    destruct (send_animation_frame json_dumps stream_id metadata w0)
      as [ok w1'] eqn:Es.
    cbn [fst snd] in *. subst ok w1. rewrite Hempty in Erun.
    apply (f_equal snd) in Erun. cbn [snd] in Erun. subst wf.
    rewrite send_error_trace, Ht, Hact, Hactive, Hp, <- app_assoc.
    cbn [app]. rewrite length_app. cbn [length].
    by rewrite Nat.add_1_r.
  - destruct (send_animation_frame json_dumps stream_id metadata w0)
      as [ok w1'] eqn:Es.
    injection Hr as -> Hw1. injection Erun as _ <-.
    split; [exact Ht|]. intros _. rewrite Hw1.
    destruct (disconnect_removes stream_id
                (after_send ws (json_dumps metadata) w0)) as [Ha Hm].
    split; [exact Ha|]. split; [exact Hm|].
    unfold disconnect, after_send, ws_send_text, mbind, W_bind. cbn.
    by destruct (connection_metadata (manager w) !! stream_id).
Qed.

(** A fallback artifact is cached, a client on socket 7 connects, and the
    peer stays. *)
Definition fallback_world : World :=
  (run_calls Wire.dumps Wire.loads Wire.plain_back Wire.plain_back
     [StoreAnimationData "fallback_1" (fallback_data "HELLO" "generation failed" 0);
      Connect (mkWebSocket 7 None) "fallback_1"]
     (initial_world (fun _ => true) (fun _ => 0))).2.

Lemma play_without_frames_witness :
  animation_cache (manager fallback_world) !! "fallback_1"
  = Some cached_fallback
  /\ active_connections (manager fallback_world) !! "fallback_1"
     = Some (mkWebSocket 7 None)
  /\ truthy (dict_get cached_fallback "video_data_base64" (VStr EmptyString))
     = false
  /\ trace (stream_animation Wire.dumps Wire.loads Wire.plain_back
              Wire.plain_back "fallback_1" fallback_world).2
     = [Accept 7 true;
        SendText 7
          (Wire.dumps (metadata_message "fallback_1" cached_fallback 0)) true;
        SendText 7
          (Wire.dumps
             (error_frame "fallback_1" "NO_ANIMATION_DATA"
                "No animation frames available" 0))
          true].
Proof.
  split; [reflexivity|]. split; [reflexivity|]. split; [reflexivity|].
  exact (proj1 (play_without_frames Wire.dumps Wire.loads Wire.plain_back
                  Wire.plain_back fallback_world "fallback_1" cached_fallback
                  (mkWebSocket 7 None) eq_refl eq_refl eq_refl)).
Defined.

Lemma registries_keep_the_same_keys_witness :
  dom (active_connections (manager fallback_world))
  = dom (connection_metadata (manager fallback_world))
  /\ (let w' :=
        (run_calls Wire.dumps Wire.loads Wire.plain_back Wire.plain_back
           [StreamAnimation "fallback_1"; Disconnect "fallback_1"]
           fallback_world).2 in
      dom (active_connections (manager w'))
      = dom (connection_metadata (manager w')))
  /\ active_connections
       (manager (connect (mkWebSocket 8 None) "isl_avatar_3" fallback_world).2)
     !! "isl_avatar_3" = Some (mkWebSocket 8 None).
Proof.
  assert (H : dom (active_connections (manager fallback_world))
              = dom (connection_metadata (manager fallback_world)))
    by (by vm_compute).
  split; [exact H|].
  pose proof (registries_keep_the_same_keys Wire.dumps Wire.loads
                Wire.plain_back Wire.plain_back fallback_world
                [StreamAnimation "fallback_1"; Disconnect "fallback_1"]
                (mkWebSocket 8 None) "isl_avatar_3" VNone H)
    as (_ & Hcalls & Hconnect & _).
  split; [exact Hcalls|]. exact (proj1 (proj2 Hconnect)).
Defined.

(** * Further properties

    ** The cache of the stream manager *)

Lemma assoc_dict_set_eq {V} (d : list (string * V)) (key : string) (v : V) :
  assoc key (dict_set d key v) = Some v.
Proof.
  induction d as [|[k x] d IH]; cbn [dict_set assoc].
  - by rewrite String.eqb_refl.
  - destruct (String.eqb key k) eqn:E; cbn [assoc]; rewrite E; [done|exact IH].
Qed.

Lemma assoc_dict_set_ne {V} (d : list (string * V)) (key key' : string) (v : V) :
  key' <> key -> assoc key' (dict_set d key v) = assoc key' d.
Proof.
  intros Hne. induction d as [|[k x] d IH]; cbn [dict_set assoc].
  - by apply String.eqb_neq in Hne as ->.
  - destruct (String.eqb key k) eqn:E; cbn [assoc].
    + apply String.eqb_eq in E as <-. by apply String.eqb_neq in Hne as ->.
    + by rewrite IH.
Qed.

(** [store_animation_data] followed by a look-up: the cache holds the
    artifact under the stream, stamped with the time of the call under
    [cached_at] (also when the artifact came with such a key), with every
    other key as given; the other streams, the two registries and the
    sockets are not touched. *)
Theorem store_then_lookup (w : World) (stream_id : string)
    (animation_data : dict) :
  exists stored,
    let w' := (store_animation_data stream_id animation_data w).2 in
    animation_cache (manager w') !! stream_id = Some stored
    /\ assoc "cached_at" stored = Some (VFloat (t_now w))
    /\ (forall key, key <> "cached_at" ->
                    assoc key stored = assoc key animation_data)
    /\ (forall other, other <> stream_id ->
                      animation_cache (manager w') !! other
                      = animation_cache (manager w) !! other)
    /\ active_connections (manager w') = active_connections (manager w)
    /\ connection_metadata (manager w') = connection_metadata (manager w)
    /\ trace w' = trace w.
Proof.
  exists (dict_set animation_data "cached_at" (VFloat (t_now w))).
  cbn. split; [apply lookup_insert_eq|].
  split; [apply assoc_dict_set_eq|].
  split; [intros key Hk; by apply assoc_dict_set_ne|].
  split; [intros other Ho; by apply lookup_insert_ne|].
  done.
Qed.

(** An artifact stored at time [t] is expired at time [now] exactly when
    it is older than the maximal age. *)
Lemma expired_stored (now max_age_seconds t : Q) (animation_data : dict) :
  expired now max_age_seconds (dict_set animation_data "cached_at" (VFloat t))
  = Some (negb (Qle_bool (now - t) max_age_seconds)).
Proof.
  unfold expired, dict_get. by rewrite assoc_dict_set_eq.
Qed.

(** Every artifact of the cache has a number under [cached_at], or no such
    key: the test of the sweep raises on none of them. *)
Definition stamped (m : AvatarStreamManager) : Prop :=
  forall stream_id data,
    animation_cache m !! stream_id = Some data ->
    is_Some (as_number (dict_get data "cached_at" (VInt 0))).

Lemma expired_None (now max_age_seconds : Q) (data : dict) :
  expired now max_age_seconds data = None
  <-> as_number (dict_get data "cached_at" (VInt 0)) = None.
Proof.
  unfold expired. by destruct (as_number _).
Qed.

Lemma stamped_filter (m : AvatarStreamManager) (now max_age_seconds : Q) :
  stamped m
  <-> filter (fun kv : string * dict =>
                expired now max_age_seconds kv.2 = None)
             (animation_cache m) = ∅.
Proof.
  rewrite map_empty_filter. split.
  - intros Hs stream_id data Hd He.
    cbn in He. apply expired_None in He.
    destruct (Hs stream_id data Hd) as [x Hx]. congruence.
  - intros Hf stream_id data Hd.
    specialize (Hf stream_id data Hd).
    cbn in Hf. rewrite expired_None in Hf.
    by destruct (as_number _).
Qed.

Lemma stamped_init : stamped AvatarStreamManager_init.
Proof. intros stream_id data H. cbn in H. by rewrite lookup_empty in H. Qed.

Lemma stamped_store (w : World) (stream_id : string) (animation_data : dict) :
  stamped (manager w) ->
  stamped (manager (store_animation_data stream_id animation_data w).2).
Proof.
  intros Hs other data Hd.
  change (<[stream_id := dict_set animation_data "cached_at"
                           (VFloat (t_now w))]>
            (animation_cache (manager w)) !! other = Some data) in Hd.
  apply lookup_insert_Some in Hd as [[-> <-]|[_ Hd]].
  - unfold dict_get. by rewrite assoc_dict_set_eq.
  - by apply (Hs other).
Qed.

Lemma cleanup_expired_streams_run (max_age_seconds : Q) (w : World) :
  stamped (manager w) ->
  cleanup_expired_streams max_age_seconds w
  = (true,
     mkWorld
       (mkAvatarStreamManager (active_connections (manager w))
          (filter (fun kv => expired (t_now w) max_age_seconds kv.2
                             = Some false)
                  (animation_cache (manager w)))
          (connection_metadata (manager w)))
       (trace w) (transport w) (wall_clock w) (S (clock_reads w))).
Proof.
  intros Hs. apply (stamped_filter _ (t_now w) max_age_seconds) in Hs.
  unfold cleanup_expired_streams, mbind, W_bind. cbn [get_manager time_time].
  fold (t_now w). cbn [manager].
  by destruct (decide _) as [_|Hne].
Qed.

Lemma cleanup_expired_streams_raises (max_age_seconds : Q) (w : World) :
  ~ stamped (manager w) ->
  cleanup_expired_streams max_age_seconds w
  = (false,
     mkWorld (manager w) (trace w) (transport w) (wall_clock w)
             (S (clock_reads w))).
Proof.
  intros Hs. rewrite (stamped_filter _ (t_now w) max_age_seconds) in Hs.
  unfold cleanup_expired_streams, mbind, W_bind. cbn [get_manager time_time].
  fold (t_now w). cbn [manager].
  by destruct (decide _) as [He|_].
Qed.

(** X2.  When the test of the sweep raises on no artifact of the cache,
    [cleanup_expired_streams] returns and removes from the cache exactly
    the artifacts older than the maximal age: an artifact stored at time
    [t] is still there afterwards if and only if [now - t <=
    max_age_seconds]; no artifact is added or changed.  When the test
    raises on some artifact, whose [cached_at] is no number, the call
    raises before it has removed anything.  In both cases the two
    registries and the sockets are not touched. *)
Theorem cleanup_removes_the_old (w : World) (max_age_seconds t : Q)
    (stream_id : string) (animation_data : dict) :
  animation_cache (manager w) !! stream_id
  = Some (dict_set animation_data "cached_at" (VFloat t)) ->
  let w' := (cleanup_expired_streams max_age_seconds w).2 in
  (stamped (manager w) ->
     (cleanup_expired_streams max_age_seconds w).1 = true
     /\ animation_cache (manager w') !! stream_id
        = (if Qle_bool (t_now w - t) max_age_seconds
           then Some (dict_set animation_data "cached_at" (VFloat t))
           else None)
     /\ (forall other data,
           animation_cache (manager w') !! other = Some data ->
           animation_cache (manager w) !! other = Some data))
  /\ (~ stamped (manager w) ->
        (cleanup_expired_streams max_age_seconds w).1 = false
        /\ animation_cache (manager w') = animation_cache (manager w))
  /\ active_connections (manager w') = active_connections (manager w)
  /\ connection_metadata (manager w') = connection_metadata (manager w)
  /\ trace w' = trace w.
Proof.
  intros Hc w'. split; [|split].
  - intros Hs. subst w'. rewrite (cleanup_expired_streams_run _ _ Hs).
    cbn [fst snd manager animation_cache]. split; [done|]. split.
    + destruct (Qle_bool (t_now w - t) max_age_seconds) eqn:E.
      * apply map_lookup_filter_Some. split; [exact Hc|].
        cbn. by rewrite expired_stored, E.
      * apply map_lookup_filter_None. right. intros data Hd.
        rewrite Hc in Hd. injection Hd as <-. cbn.
        by rewrite expired_stored, E.
    + intros other data Hd.
      by apply map_lookup_filter_Some in Hd as [Hd _].
  - intros Hs. subst w'. by rewrite (cleanup_expired_streams_raises _ _ Hs).
  - subst w'. unfold cleanup_expired_streams, mbind, W_bind.
    cbn [get_manager time_time]. by destruct (decide _).
Qed.

(** ** Playback *)

Section Playback.

Variable json_dumps : value -> string.
Variable json_loads : string -> option value.
Variable b64decode : string -> option string.
Variable utf8_decode : string -> option string.

(** The metadata of a connection after one more frame, sent at [now]. *)
Definition bump (md : ConnectionMetadata) (now : Q) : ConnectionMetadata :=
  mkConnectionMetadata (connected_at md) (client_ip md) (frames_sent md + 1) now.

(** The world after [text] went out on the socket of the stream. *)
Definition delivered (stream_id : string) (ws : WebSocket) (text : string)
    (md : ConnectionMetadata) (w : World) : World :=
  mkWorld
    (mkAvatarStreamManager (active_connections (manager w))
       (animation_cache (manager w))
       (<[stream_id := bump md (t_now w)]> (connection_metadata (manager w))))
    (trace w ++ [SendText (ws_id ws) text true])
    (transport w) (wall_clock w) (S (clock_reads w)).

Lemma send_delivered stream_id frame_data ws md w :
  active_connections (manager w) !! stream_id = Some ws ->
  connection_metadata (manager w) !! stream_id = Some md ->
  transport w (length (trace w)) = true ->
  send_animation_frame json_dumps stream_id frame_data w
  = (true, delivered stream_id ws (json_dumps frame_data) md w).
Proof.
  intros Ha Hm Hok.
  unfold send_animation_frame, mbind, W_bind. cbn [get_manager].
  rewrite Ha, ws_send_text_run, Hok, Hm. reflexivity.
Qed.

(** The world after the peer refused [text]: the stream is gone from both
    registries. *)
Definition refused (stream_id : string) (ws : WebSocket) (text : string)
    (w : World) : World :=
  mkWorld
    (mkAvatarStreamManager (delete stream_id (active_connections (manager w)))
       (animation_cache (manager w))
       (delete stream_id (connection_metadata (manager w))))
    (trace w ++ [SendText (ws_id ws) text false])
    (transport w) (wall_clock w) (S (clock_reads w)).

Lemma send_refused stream_id frame_data ws md w :
  active_connections (manager w) !! stream_id = Some ws ->
  connection_metadata (manager w) !! stream_id = Some md ->
  transport w (length (trace w)) = false ->
  send_animation_frame json_dumps stream_id frame_data w
  = (false, refused stream_id ws (json_dumps frame_data) w).
Proof.
  intros Ha Hm Hok.
  unfold send_animation_frame, mbind, W_bind. cbn [get_manager].
  rewrite Ha, ws_send_text_run, Hok.
  unfold disconnect, mbind, W_bind. cbn. rewrite Ha, Hm. reflexivity.
Qed.

Lemma send_unregistered stream_id frame_data w :
  active_connections (manager w) !! stream_id = None ->
  send_animation_frame json_dumps stream_id frame_data w = (false, w).
Proof.
  intros Ha. unfold send_animation_frame, mbind, W_bind. cbn [get_manager].
  by rewrite Ha.
Qed.

(** The events of the [i]-th pass of the loop over the frames, when the
    clock had been read [c] times before the loop. *)
Definition frame_events (stream_id : string) (ws : WebSocket)
    (frame_duration : Q) (clock : nat -> Q) (c i : nat) (frame : value)
    : list event :=
  [SendText (ws_id ws)
     (json_dumps (frame_message stream_id frame (clock (c + 2 * i)%nat))) true;
   Sleep frame_duration].


(** One pass of the loop when the peer accepts the frame. *)
Lemma stream_frames_cons_delivered stream_id ws md frame_duration frame rest w :
  active_connections (manager w) !! stream_id = Some ws ->
  connection_metadata (manager w) !! stream_id = Some md ->
  transport w (length (trace w)) = true ->
  stream_frames json_dumps stream_id frame_duration (frame :: rest) w
  = stream_frames json_dumps stream_id frame_duration rest
      (asyncio_sleep frame_duration
         (delivered stream_id ws
            (json_dumps (frame_message stream_id frame (t_now w))) md
            (time_time w).2)).2.
Proof.
  intros Ha Hm Hok. cbn [stream_frames].
  unfold mbind at 1, W_bind at 1. cbn [time_time].
  unfold mbind at 1, W_bind at 1.
  erewrite send_delivered; [|exact Ha|exact Hm|exact Hok].
  reflexivity.
Qed.

(** One pass of the loop when the peer refuses the frame: the loop ends. *)
Lemma stream_frames_cons_refused stream_id ws md frame_duration frame rest w :
  active_connections (manager w) !! stream_id = Some ws ->
  connection_metadata (manager w) !! stream_id = Some md ->
  transport w (length (trace w)) = false ->
  stream_frames json_dumps stream_id frame_duration (frame :: rest) w
  = (tt, refused stream_id ws
           (json_dumps (frame_message stream_id frame (t_now w)))
           (time_time w).2).
Proof.
  intros Ha Hm Hok. cbn [stream_frames].
  unfold mbind at 1, W_bind at 1. cbn [time_time].
  unfold mbind at 1, W_bind at 1.
  erewrite send_refused; [|exact Ha|exact Hm|exact Hok].
  reflexivity.
Qed.




(** The loop over the frames when the peer refuses the [k]-th frame, having
    accepted the calls before it. *)
Lemma stream_frames_refused stream_id ws frame_duration :
  forall k frames frame w md,
    frames !! k = Some frame ->
    active_connections (manager w) !! stream_id = Some ws ->
    connection_metadata (manager w) !! stream_id = Some md ->
    (forall n, (n < length (trace w) + 2 * k)%nat -> transport w n = true) ->
    transport w (length (trace w) + 2 * k)%nat = false ->
    let w' := (stream_frames json_dumps stream_id frame_duration frames w).2 in
    trace w'
    = trace w
      ++ concat (imap (frame_events stream_id ws frame_duration
                         (wall_clock w) (clock_reads w)) (take k frames))
      ++ [SendText (ws_id ws)
            (json_dumps
               (frame_message stream_id frame
                  (wall_clock w (clock_reads w + 2 * k)%nat)))
            false]
    /\ active_connections (manager w') !! stream_id = None
    /\ connection_metadata (manager w') !! stream_id = None
    /\ animation_cache (manager w') = animation_cache (manager w)
    /\ transport w' = transport w
    /\ wall_clock w' = wall_clock w.
Proof.
  induction k as [|k IH]; intros frames frame w md Hk Ha Hm Hok Hfail.
  - destruct frames as [|f rest]; [done|]. injection Hk as ->.
    rewrite Nat.mul_0_r, Nat.add_0_r in Hfail.
    rewrite (stream_frames_cons_refused stream_id ws md) by done.
    cbn [snd refused manager trace active_connections connection_metadata
         animation_cache transport wall_clock time_time take imap concat app].
    rewrite !lookup_delete_eq, Nat.mul_0_r, Nat.add_0_r.
    by repeat split.
  - destruct frames as [|f rest]; [done|]. cbn [lookup list_lookup] in Hk.
    rewrite (stream_frames_cons_delivered stream_id ws md);
      [|done|done|apply Hok; lia].
    match goal with
    | |- context [stream_frames _ _ _ rest ?w1] => set (w1' := w1)
    end.
    assert (Hlen : length (trace w1') = (length (trace w) + 2)%nat).
    { subst w1'. cbn. rewrite !length_app. cbn. lia. }
    destruct (IH rest frame w1' (bump md (wall_clock w (S (clock_reads w)))))
      as (Ht & Hact & Hmeta & Hcache & Htr & Hwc);
      [exact Hk|exact Ha|apply lookup_insert_eq| | |].
    { intros n Hn. apply Hok. lia. }
    { change (transport w1') with (transport w). rewrite Hlen.
      rewrite <- Hfail. f_equal. lia. }
    cbn zeta in *. rewrite Ht, Hact, Hmeta, Hcache, Htr, Hwc.
    subst w1'.
    cbn [delivered manager trace transport wall_clock clock_reads
         active_connections animation_cache connection_metadata t_now
         asyncio_sleep emit snd time_time take].
    rewrite imap_cons. cbn [concat].
    split; [|by repeat split].
    rewrite <- !app_assoc. cbn [app]. f_equal.
    unfold frame_events at 2. cbn [app].
    rewrite Nat.mul_0_r, Nat.add_0_r. unfold t_now. do 3 f_equal.
    + f_equal. apply imap_ext. intros i x _. unfold compose, frame_events.
      do 5 f_equal. lia.
    + do 5 f_equal. lia.
Qed.

(** A playback cut short.  When the peer accepts the metadata frame and the
    first [k] animation frames and refuses the next one, [stream_animation]
    sends nothing after the refused frame, neither a further frame nor the
    completion frame, and the stream is gone from both registries; the
    artifact stays in the cache. *)
Theorem play_stops_at_refused_frame (w : World) (stream_id : string)
    (animation_data : dict) (ws : WebSocket) (md : ConnectionMetadata)
    (frames_value fps_value : value) (frames : list value)
    (frame_duration : Q) (k : nat) (frame : value) :
  animation_cache (manager w) !! stream_id = Some animation_data ->
  active_connections (manager w) !! stream_id = Some ws ->
  connection_metadata (manager w) !! stream_id = Some md ->
  truthy (dict_get animation_data "video_data_base64" (VStr EmptyString))
  = true ->
  decode_animation json_loads b64decode utf8_decode
    (dict_get animation_data "video_data_base64" (VStr EmptyString))
  = Some (frames_value, fps_value) ->
  one_over fps_value = Some frame_duration ->
  items_of frames_value = Some frames ->
  frames !! k = Some frame ->
  (forall n, (n < length (trace w) + 1 + 2 * k)%nat -> transport w n = true) ->
  transport w (length (trace w) + 1 + 2 * k)%nat = false ->
  let w' := (stream_animation json_dumps json_loads b64decode utf8_decode
               stream_id w).2 in
  let c := clock_reads w in
  trace w'
  = trace w
    ++ [SendText (ws_id ws)
          (json_dumps
             (metadata_message stream_id animation_data (wall_clock w c)))
          true]
    ++ concat (imap (frame_events stream_id ws frame_duration
                       (wall_clock w) (c + 2)) (take k frames))
    ++ [SendText (ws_id ws)
          (json_dumps
             (frame_message stream_id frame
                (wall_clock w (c + 2 + 2 * k)%nat)))
          false]
  /\ active_connections (manager w') !! stream_id = None
  /\ connection_metadata (manager w') !! stream_id = None
  /\ animation_cache (manager w') = animation_cache (manager w).
Proof.
  intros Hc Ha Hm Hv Hd Hf Hi Hk Hok Hfail.
  destruct (stream_animation json_dumps json_loads b64decode utf8_decode
              stream_id w) as [u wf] eqn:Erun.
  unfold stream_animation, mbind at 1, W_bind at 1 in Erun.
  cbn [get_manager] in Erun. rewrite Hc, Ha in Erun.
  unfold mbind at 1, W_bind at 1 in Erun. cbn [time_time] in Erun.
  unfold mbind at 1, W_bind at 1 in Erun.
  erewrite send_delivered in Erun; [|exact Ha|exact Hm|apply Hok; cbn; lia].
  rewrite Hv, Hd, Hf, Hi in Erun.
  match type of Erun with
  | context [delivered ?a ?b ?c ?d ?e] => set (w1 := delivered a b c d e) in *
  end.
  unfold mbind at 1, W_bind at 1 in Erun.
  assert (Hlen : length (trace w1) = (length (trace w) + 1)%nat).
  { subst w1. cbn. rewrite length_app. cbn. lia. }
  destruct (stream_frames_refused stream_id ws frame_duration k frames frame
              w1 (bump md (wall_clock w (S (clock_reads w)))))
    as (Ht & Hact & Hmeta & Hcache & Htr & Hwc);
    [exact Hk|exact Ha|apply lookup_insert_eq| | |].
  { intros n Hn. apply Hok. lia. }
  { change (transport w1) with (transport w). by rewrite Hlen. }
  cbn zeta in Ht, Hact, Hmeta, Hcache, Htr, Hwc.
  destruct (stream_frames json_dumps stream_id frame_duration frames w1)
    as [u2 w2] eqn:E2.
  cbn [snd] in *.
  unfold mbind at 1, W_bind at 1 in Erun. cbn [time_time] in Erun.
  unfold mbind at 1, W_bind at 1 in Erun.
  rewrite send_unregistered in Erun by exact Hact.
  injection Erun as _ <-.
  cbn zeta.
  cbn [mret W_ret snd manager trace active_connections animation_cache
       connection_metadata].
  rewrite Ht, Hact, Hmeta, Hcache. subst w1.
  cbn [delivered manager trace transport wall_clock clock_reads
       active_connections animation_cache connection_metadata t_now].
  split; [|done].
  rewrite <- !app_assoc. cbn [app].
  by replace (S (S (clock_reads w))) with (clock_reads w + 2)%nat by lia.
Qed.

(** What a payload must be for the loop over the frames to start: a string
    that decodes to a dict whose [fps] divides 1.0 and whose [frames] can be
    iterated. *)
Definition playable (v : value) : option (list value * Q) :=
  match decode_animation json_loads b64decode utf8_decode v with
  | Some (frames_value, fps_value) =>
      match one_over fps_value, items_of frames_value with
      | Some frame_duration, Some frames => Some (frames, frame_duration)
      | _, _ => None
      end
  | None => None
  end.

(** An artifact that cannot be played.  When the payload of a registered
    stream is not empty but is no base64, no UTF-8, no JSON, no dict, has a
    frame rate that is zero, no number or an integer beyond the doubles, or
    frames that cannot be iterated,
    [stream_animation] sends the metadata frame and, if the peer accepts
    it, exactly one error frame of code DECODE_ERROR; no animation frame and
    no completion frame. *)
Theorem play_undecodable (w : World) (stream_id : string)
    (animation_data : dict) (ws : WebSocket) :
  animation_cache (manager w) !! stream_id = Some animation_data ->
  active_connections (manager w) !! stream_id = Some ws ->
  truthy (dict_get animation_data "video_data_base64" (VStr EmptyString))
  = true ->
  playable (dict_get animation_data "video_data_base64" (VStr EmptyString))
  = None ->
  let metadata := metadata_message stream_id animation_data (t_now w) in
  let w1 := (send_animation_frame json_dumps stream_id metadata
               (time_time w).2).2 in
  trace (stream_animation json_dumps json_loads b64decode utf8_decode
           stream_id w).2
  = trace w
    ++ SendText (ws_id ws) (json_dumps metadata)
         (transport w (length (trace w)))
       :: (if transport w (length (trace w))
           then [SendText (ws_id ws)
                   (json_dumps
                      (error_frame stream_id "DECODE_ERROR"
                         "Failed to decode animation data" (t_now w1)))
                   (transport w (S (length (trace w))))]
           else []).
Proof.
  intros Hcache Hactive Hv Hplay metadata w1.
  destruct (stream_animation json_dumps json_loads b64decode utf8_decode
              stream_id w) as [u wf] eqn:Erun.
  unfold stream_animation, mbind at 1, W_bind at 1 in Erun.
  cbn [get_manager] in Erun. rewrite Hcache, Hactive in Erun.
  unfold mbind at 1, W_bind at 1 in Erun. cbn [time_time] in Erun.
  fold (t_now w) in Erun. fold metadata in Erun.
  unfold mbind at 1, W_bind at 1 in Erun.
  set (w0 := mkWorld (manager w) (trace w) (transport w) (wall_clock w)
                     (S (clock_reads w))) in *.
  change (time_time w).2 with w0 in w1.
  pose proof (send_animation_frame_trace json_dumps stream_id metadata w0)
    as Ht.
  pose proof (send_animation_frame_transport json_dumps stream_id metadata w0)
    as Hp.
  pose proof (failed_send_disconnects json_dumps stream_id metadata w0) as Hr.
  change (manager w0) with (manager w) in *.
  change (trace w0) with (trace w) in *.
  change (transport w0) with (transport w) in *.
  rewrite Hactive in Ht, Hr. fold w1 in Ht, Hp.
  destruct (send_animation_frame json_dumps stream_id metadata w0)
    as [ok w1'] eqn:Es.
  cbn [snd] in w1. subst w1.
  destruct (transport w (length (trace w))) eqn:Eok.
  - destruct Hr as [Hok Hact]. cbn [fst snd] in Hok, Hact. subst ok.
    rewrite Hv in Erun.
    assert (Eerr : send_error json_dumps stream_id "DECODE_ERROR"
                     "Failed to decode animation data" w1' = (u, wf)).
    { unfold playable in Hplay.
      destruct (decode_animation _ _ _ _) as [[fv pv]|]; [|exact Erun].
      destruct (one_over pv); [|exact Erun].
      destruct (items_of fv); [discriminate Hplay|exact Erun]. }
    pose proof (send_error_trace json_dumps stream_id "DECODE_ERROR"
                  "Failed to decode animation data" w1') as He.
    rewrite Eerr in He. cbn [snd] in He |- *.
    rewrite He, Ht, Hact, Hactive, Hp, <- app_assoc. cbn [app].
    rewrite length_app. cbn [length]. by rewrite Nat.add_1_r.
  - injection Hr as -> _. injection Erun as _ <-. exact Ht.
Qed.

(** With no socket registered for the stream, [stream_animation] sends
    nothing and leaves the manager as it is. *)
Lemma stream_animation_unregistered (w : World) (stream_id : string) :
  active_connections (manager w) !! stream_id = None ->
  trace (stream_animation json_dumps json_loads b64decode utf8_decode
           stream_id w).2 = trace w
  /\ manager (stream_animation json_dumps json_loads b64decode utf8_decode
                stream_id w).2 = manager w.
Proof.
  intros Ha.
  destruct (stream_animation json_dumps json_loads b64decode utf8_decode
              stream_id w) as [u wf] eqn:Erun.
  unfold stream_animation, mbind at 1, W_bind at 1 in Erun.
  cbn [get_manager] in Erun.
  destruct (animation_cache (manager w) !! stream_id).
  - rewrite Ha in Erun. by injection Erun as _ <-.
  - unfold send_error, mbind at 1, W_bind at 1 in Erun.
    cbn [time_time] in Erun. unfold mbind at 1, W_bind at 1 in Erun.
    rewrite send_unregistered in Erun by exact Ha.
    by injection Erun as _ <-.
Qed.

(** After [disconnect], a playback of the stream is silent, whether or not
    an artifact is cached for it: nothing is sent, and the registries and
    the cache are as [disconnect] left them. *)
Theorem play_after_disconnect_is_silent (w : World) (stream_id : string) :
  let w1 := (disconnect stream_id w).2 in
  let w2 := (stream_animation json_dumps json_loads b64decode utf8_decode
               stream_id w1).2 in
  trace w2 = trace w
  /\ manager w2 = manager w1
  /\ animation_cache (manager w1) = animation_cache (manager w).
Proof.
  intros w1 w2.
  assert (Ha : active_connections (manager w1) !! stream_id = None)
    by apply disconnect_removes.
  assert (Ht : trace w1 = trace w) by apply disconnect_keeps_trace.
  assert (Hcache : animation_cache (manager w1) = animation_cache (manager w)).
  { subst w1. unfold disconnect, mbind, W_bind. cbn.
    by destruct (connection_metadata (manager w) !! stream_id). }
  assert (Hrun : trace w2 = trace w1 /\ manager w2 = manager w1)
    by (by apply stream_animation_unregistered).
  destruct Hrun as [H1 H2]. by rewrite H1, H2, Ht.
Qed.

End Playback.

(** *** Concrete runs *)

(** A payload of two frames at 30 frames per second, in the reference
    codec. *)
Definition two_frames : dict :=
  [ ("gloss_input", VStr "YES");
    ("video_data_base64",
     VStr (Wire.dumps (VDict [ ("frames", VList [VStr "first"; VStr "second"]);
                               ("fps", VInt 30) ]))) ].

(** The artifact is cached, then a client on socket 7 connects.  The peer
    accepts the first [n] calls and refuses the later ones. *)
Definition playing_world (animation_data : dict) (n : nat) : World :=
  (run_calls Wire.dumps Wire.loads Wire.plain_back Wire.plain_back
     [StoreAnimationData "isl_avatar_2" animation_data;
      Connect (mkWebSocket 7 None) "isl_avatar_2"]
     (initial_world (fun i => (i <? n)%nat) (fun _ => 0))).2.

(** The same with a peer that accepts every call. *)
Definition healthy_world (animation_data : dict) : World :=
  (run_calls Wire.dumps Wire.loads Wire.plain_back Wire.plain_back
     [StoreAnimationData "isl_avatar_2" animation_data;
      Connect (mkWebSocket 7 None) "isl_avatar_2"]
     (initial_world (fun _ => true) (fun _ => 0))).2.


Lemma play_stops_at_refused_frame_witness :
  let w' := (stream_animation Wire.dumps Wire.loads Wire.plain_back
               Wire.plain_back "isl_avatar_2" (playing_world two_frames 4)).2 in
  trace w'
  = [Accept 7 true]
    ++ [SendText 7
          (Wire.dumps
             (metadata_message "isl_avatar_2"
                (dict_set two_frames "cached_at" (VFloat 0)) 0))
          true]
    ++ concat (imap (frame_events Wire.dumps "isl_avatar_2"
                       (mkWebSocket 7 None) (1.0 / inject_Z 30)
                       (fun _ => 0) (3 + 2))
                    (take 1 [VStr "first"; VStr "second"]))
    ++ [SendText 7
          (Wire.dumps (frame_message "isl_avatar_2" (VStr "second") 0))
          false]
  /\ active_connections (manager w') !! "isl_avatar_2" = None
  /\ connection_metadata (manager w') !! "isl_avatar_2" = None
  /\ animation_cache (manager w')
     = animation_cache (manager (playing_world two_frames 4)).
Proof.
  refine (play_stops_at_refused_frame Wire.dumps Wire.loads Wire.plain_back
            Wire.plain_back (playing_world two_frames 4) "isl_avatar_2"
            (dict_set two_frames "cached_at" (VFloat 0))
            (mkWebSocket 7 None) (mkConnectionMetadata 0 "unknown" 0 0)
            (VList [VStr "first"; VStr "second"]) (VInt 30)
            [VStr "first"; VStr "second"] (1.0 / inject_Z 30) 1 (VStr "second")
            eq_refl eq_refl eq_refl eq_refl
            (f_equal
               (fun o => match o with
                         | Some (VDict entries) =>
                             Some (dict_get entries "frames" (VList []),
                                   dict_get entries "fps" (VInt 30))
                         | _ => None
                         end)
               (Wire.loads_dumps
                  (VDict [ ("frames", VList [VStr "first"; VStr "second"]);
                           ("fps", VInt 30) ])))
            eq_refl eq_refl eq_refl _ eq_refl).
  intros n Hn. change (n < 4)%nat in Hn. change ((n <? 4)%nat = true).
  by apply Nat.ltb_lt.
Defined.

(** A payload that is no text of the reference codec. *)
Definition garbled : dict :=
  [ ("gloss_input", VStr "YES"); ("video_data_base64", VStr "@@@") ].

Lemma play_undecodable_witness :
  trace (stream_animation Wire.dumps Wire.loads Wire.plain_back
           Wire.plain_back "isl_avatar_2" (healthy_world garbled)).2
  = [Accept 7 true;
     SendText 7
       (Wire.dumps
          (metadata_message "isl_avatar_2"
             (dict_set garbled "cached_at" (VFloat 0)) 0))
       true;
     SendText 7
       (Wire.dumps
          (error_frame "isl_avatar_2" "DECODE_ERROR"
             "Failed to decode animation data" 0))
       true].
Proof.
  exact (play_undecodable Wire.dumps Wire.loads Wire.plain_back
           Wire.plain_back (healthy_world garbled) "isl_avatar_2"
           (dict_set garbled "cached_at" (VFloat 0)) (mkWebSocket 7 None)
           eq_refl eq_refl eq_refl eq_refl).
Defined.

(** An artifact stored at time 0 and a sweep at time 4000 with the default
    maximal age. *)
Lemma cleanup_removes_the_old_witness :
  let w := (store_animation_data "isl_avatar_2" two_frames
              (initial_world (fun _ => true)
                 (fun k => inject_Z (4000 * Z.of_nat k)))).2 in
  stamped (manager w)
  /\ (cleanup_expired_streams 3600 w).1 = true
  /\ animation_cache (manager (cleanup_expired_streams 3600 w).2)
       !! "isl_avatar_2" = None.
Proof.
  assert (Hs : stamped
                 (manager
                    (store_animation_data "isl_avatar_2" two_frames
                       (initial_world (fun _ => true)
                          (fun k => inject_Z (4000 * Z.of_nat k)))).2))
    by (apply stamped_store, stamped_init).
  split; [exact Hs|].
  destruct (proj1 (cleanup_removes_the_old
                     (store_animation_data "isl_avatar_2" two_frames
                        (initial_world (fun _ => true)
                           (fun k => inject_Z (4000 * Z.of_nat k)))).2
                     3600 0 "isl_avatar_2" two_frames eq_refl) Hs)
    as (Hok & Hgone & _).
  split; [exact Hok|exact Hgone].
Defined.

(** ** From the engine to the socket *)

Section EndToEnd.

Variable json_dumps_compact : value -> string.
Variable json_dumps : value -> string.
Variable json_loads : string -> option value.
Variable b64encode : string -> string.
Variable b64decode : string -> option string.
Variable utf8_encode : string -> string.
Variable utf8_decode : string -> option string.


(** What is assumed of the library: each decoder undoes its encoder, and
    no encoded text is empty. *)
Hypothesis json_round_trip :
  forall v, json_loads (json_dumps_compact v) = Some (json_image v).
Hypothesis b64_round_trip : forall b, b64decode (b64encode b) = Some b.
Hypothesis utf8_round_trip : forall s, utf8_decode (utf8_encode s) = Some s.
Hypothesis payload_not_empty :
  forall v,
    Str.truthy (b64encode (utf8_encode (json_dumps_compact v))) = true.


End EndToEnd.



(** ** The parser of the gloss *)

(** A word: not empty, and without white space. *)
Definition wordlike (word : string) : Prop :=
  word <> EmptyString
  /\ Forall (fun c => Str.is_space c = false) (list_ascii_of_string word).

Lemma wordlike_of_list (l : list ascii) :
  l <> [] -> Forall (fun c => Str.is_space c = false) l ->
  wordlike (string_of_list_ascii l).
Proof.
  intros Hne Hall. split.
  - destruct l; [done|]. discriminate.
  - by rewrite list_ascii_of_string_of_list_ascii.
Qed.

Lemma split_aux_wordlike (s : string) :
  forall cur,
    Forall (fun c => Str.is_space c = false) cur ->
    Forall wordlike (Str.split_aux cur s).
Proof.
  induction s as [|c s IH]; intros cur Hcur; cbn [Str.split_aux].
  - destruct cur as [|a cur]; [constructor|].
    constructor; [|constructor]. apply wordlike_of_list.
    + intros H. apply (f_equal (@length ascii)) in H.
      rewrite length_rev in H. discriminate H.
    + apply Forall_forall. intros x Hx. rewrite Forall_forall in Hcur.
      apply Hcur. apply list_elem_of_In. apply in_rev.
      by apply list_elem_of_In.
  - destruct (Str.is_space c) eqn:E.
    + destruct cur as [|a cur]; [by apply IH|].
      constructor; [|by apply IH]. apply wordlike_of_list.
      * intros H. apply (f_equal (@length ascii)) in H.
        rewrite length_rev in H. discriminate H.
      * apply Forall_forall. intros x Hx. rewrite Forall_forall in Hcur.
        apply Hcur. apply list_elem_of_In. apply in_rev.
        by apply list_elem_of_In.
    + apply IH. by constructor.
Qed.

Lemma lstrip_wordlike (word : string) : wordlike word -> Str.lstrip word = word.
Proof.
  intros [Hne Hall]. destruct word as [|c s]; [done|].
  cbn in Hall |- *. inversion Hall as [|? ? Hc _]; subst. by rewrite Hc.
Qed.

Lemma rev_string_wordlike (word : string) :
  wordlike word -> wordlike (Str.rev_string word).
Proof.
  intros [Hne Hall]. apply wordlike_of_list.
  - intros H. apply (f_equal (@length ascii)) in H.
    rewrite length_rev in H. destruct word; [done|discriminate H].
  - apply Forall_forall. intros x Hx. rewrite Forall_forall in Hall.
    apply Hall. apply list_elem_of_In. apply in_rev.
    by apply list_elem_of_In.
Qed.

Lemma rev_string_involutive (s : string) :
  Str.rev_string (Str.rev_string s) = s.
Proof.
  unfold Str.rev_string.
  by rewrite list_ascii_of_string_of_list_ascii, rev_involutive,
    string_of_list_ascii_of_string.
Qed.

Lemma strip_wordlike (word : string) : wordlike word -> Str.strip word = word.
Proof.
  intros Hw. unfold Str.strip.
  rewrite (lstrip_wordlike word Hw).
  rewrite (lstrip_wordlike _ (rev_string_wordlike word Hw)).
  apply rev_string_involutive.
Qed.

Lemma fold_left_append {A} (f : list A -> A -> list A) (l acc : list A) :
  (forall a x, f a x = a ++ [x]) -> fold_left f l acc = acc ++ l.
Proof.
  intros Hf. revert acc. induction l as [|x l IH]; intros acc; cbn.
  - by rewrite app_nil_r.
  - by rewrite Hf, IH, <- app_assoc.
Qed.

(** The non-blank characters of a string, in order. *)
Definition non_blank (s : string) : list ascii :=
  filter (fun c => Str.is_space c = false) (list_ascii_of_string s).

Lemma split_aux_characters (s : string) :
  forall cur,
    concat (map list_ascii_of_string (Str.split_aux cur s))
    = rev cur ++ non_blank s.
Proof.
  unfold non_blank.
  induction s as [|c s IH]; intros cur; cbn [Str.split_aux list_ascii_of_string].
  - rewrite filter_nil, app_nil_r. destruct cur as [|a cur]; [done|].
    cbn [map concat]. by rewrite list_ascii_of_string_of_list_ascii, app_nil_r.
  - destruct (Str.is_space c) eqn:E.
    + rewrite filter_cons_False by (by rewrite E).
      destruct cur as [|a cur]; [by rewrite IH|].
      cbn [map concat]. by rewrite IH, list_ascii_of_string_of_list_ascii.
    + rewrite filter_cons_True by done.
      rewrite IH. cbn [rev]. by rewrite <- app_assoc.
Qed.

Lemma parse_gloss_split (isl_gloss : string) :
  _parse_gloss isl_gloss = Str.split isl_gloss.
Proof.
  assert (Hw : Forall wordlike (Str.split isl_gloss))
    by (apply split_aux_wordlike; constructor).
  unfold _parse_gloss.
  rewrite fold_left_append by (intros a x; by destruct (_ && _)).
  cbn [app].
  induction Hw as [|word l Hword _ IH]; [done|].
  rewrite filter_cons_True.
  - cbn [map]. by rewrite IH, (strip_wordlike word Hword).
  - rewrite (strip_wordlike word Hword). destruct Hword as [Hne _].
    by destruct word.
Qed.

(** [_parse_gloss] is [str.split()]: the test on the hyphen changes
    nothing, since both of its branches append the word, and neither do the
    two calls of [strip], since no word of a split is empty or has white
    space in it.  The words, put end to end, are the characters of the
    gloss that are not white space; so a gloss of white space only, or the
    empty gloss, has no word. *)
Theorem parse_gloss_is_split (isl_gloss : string) :
  _parse_gloss isl_gloss = Str.split isl_gloss
  /\ Forall wordlike (_parse_gloss isl_gloss)
  /\ concat (map list_ascii_of_string (_parse_gloss isl_gloss))
     = non_blank isl_gloss.
Proof.
  rewrite parse_gloss_split. split; [done|]. split.
  - apply split_aux_wordlike. constructor.
  - apply (split_aux_characters isl_gloss []).
Qed.

(** ** What the builder allocates *)

(** The store is the one of the call, [h0], followed by one dict per
    keyframe emitted so far, in the order of the keyframes. *)
Definition allocating (h0 : heap) (st : loop_state) (h : heap) : Prop :=
  h0 `prefix_of` h
  /\ length h = (length h0 + length (ls_keyframes st))%nat
  /\ map joint_positions (ls_keyframes st)
     = seq (length h0) (length (ls_keyframes st)).

Lemma joint_positions_adjusted ct base (l : list KeyFrame) :
  map joint_positions (imap (adjusted ct base) l) = seq base (length l).
Proof.
  revert base. induction l as [|a l IH]; intros base; [done|].
  rewrite imap_cons. cbn [map length seq]. f_equal.
  - unfold adjusted. cbn. lia.
  - rewrite (imap_ext _ (adjusted ct (S base))); [apply IH|].
    intros i x _. unfold adjusted, compose. f_equal. lia.
Qed.

Lemma step_allocating h0 i word p st h :
  allocating h0 st h ->
  allocating h0 (step i word p (length h) st)
             (h ++ map (contents h) (keyframes p)).
Proof.
  intros (Hpre & Hlen & Hrefs). split; [by apply prefix_app_r|].
  cbn [step ls_keyframes]. rewrite !length_app, length_map, length_imap.
  split; [lia|].
  rewrite map_app, joint_positions_adjusted, Hrefs, Hlen.
  by rewrite seq_app.
Qed.

(** For every token sequence, the builder allocates exactly one dict per
    keyframe of the poses of the tokens, and nothing else: the store after
    the call is the store before it followed by these dicts, so no object
    that was there is changed; the keyframes emitted for the tokens hold
    these dicts, one each, in order; and the list returned has one keyframe
    more, the rest keyframe. *)
Theorem builder_allocates_one_dict_per_pose_keyframe
    (gloss_words : list string) (extra : heap) :
  exists emitted rest fresh,
    _generate_keyframe_sequence animation_engine gloss_words
      (library_heap ++ extra)
    = inr (emitted ++ [rest], (library_heap ++ extra) ++ fresh)
    /\ length emitted = length (pose_durations mapper0 gloss_words)
    /\ length fresh = length emitted
    /\ map joint_positions emitted
       = seq (length (library_heap ++ extra)) (length emitted)
    /\ NoDup (map joint_positions (emitted ++ [rest])).
Proof.
  destruct (generate_rule
              (fun done st h =>
                 allocating (library_heap ++ extra) st h /\ summed done st)
              (fun done word p st h '(conj Ha Hs) Hlen Hp Hok =>
                 conj (step_allocating _ _ word p st h Ha)
                      (step_summed done word p (length h) st Hp Hs))
              gloss_words (library_heap ++ extra))
    as (st & h' & Hrun & ((k & ->) & Hlen & Hrefs) & Hsum).
  - split; [|reflexivity]. split; [done|]. split; [cbn; lia|done].
  - rewrite length_app, library_heap_length. lia.
  - exists (ls_keyframes st), (rest_keyframe st), k.
    split; [exact Hrun|].
    split; [unfold summed in Hsum; by rewrite <- Hsum, length_map|].
    split; [rewrite length_app in Hlen; lia|].
    split; [exact Hrefs|].
    rewrite map_app, Hrefs. cbn [map rest_keyframe joint_positions].
    apply NoDup_app. split; [apply NoDup_seq|].
    split; [|apply NoDup_singleton].
    intros x Hx Hx'. apply list_elem_of_singleton in Hx' as ->.
    apply elem_of_seq in Hx. rewrite length_app, library_heap_length in Hx.
    lia.
Qed.

(** ** The translator of text into gloss ([backend/main.py]) *)

(** The string methods that the translator uses beyond those of the
    engine. *)
Module Text.

(** [p in s] *)
Fixpoint contains (p s : string) : bool :=
  Str.startswith p s
  || match s with
     | EmptyString => false
     | String _ s' => contains p s'
     end.

(** [s.replace(old, new)] for a non-empty [old]: the occurrences of [old]
    are found from left to right and do not overlap.  [skip] counts the
    characters of an occurrence still to be passed over. *)
Fixpoint replace_aux (old new : string) (skip : nat) (s : string) : string :=
  match s with
  | EmptyString => EmptyString
  | String c s' =>
      match skip with
      | S k => replace_aux old new k s'
      | O =>
          if Str.startswith old s
          then new +:+ replace_aux old new (String.length old - 1) s'
          else String c (replace_aux old new 0 s')
      end
  end.

(** [s.replace("", new)]: [new] before every character and at the end. *)
Fixpoint interleave (new s : string) : string :=
  match s with
  | EmptyString => new
  | String c s' => new +:+ String c (interleave new s')
  end.

(** [s.replace(old, new)] *)
Definition replace (old new s : string) : string :=
  match old with
  | EmptyString => interleave new s
  | _ => replace_aux old new 0 s
  end.

Fixpoint lstrip_chars (chars s : string) : string :=
  match s with
  | EmptyString => EmptyString
  | String c s' => if Str.contains c chars then lstrip_chars chars s' else s
  end.

(** [s.strip(chars)] *)
Definition strip_chars (chars s : string) : string :=
  Str.rev_string (lstrip_chars chars (Str.rev_string (lstrip_chars chars s))).

(** [sep.join(l)] *)
Fixpoint join (sep : string) (l : list string) : string :=
  match l with
  | [] => EmptyString
  | [x] => x
  | x :: l' => x +:+ sep +:+ join sep l'
  end.

End Text.

(** The table of the translator, in the order of the source: the loop over
    its items goes in that order. *)
Definition gloss_mapping : list (string * string) :=
  [ ("hello", "HELLO");
    ("hi", "HELLO");
    ("how are you", "HOW YOU");
    ("how are you?", "HOW YOU?");
    ("good morning", "MORNING GOOD");
    ("good evening", "EVENING GOOD");
    ("thank you", "THANK-YOU");
    ("please", "PLEASE");
    ("sorry", "SORRY");
    ("yes", "YES");
    ("no", "NO");
    ("my name is", "MY NAME");
    ("nice to meet you", "NICE MEET YOU");
    ("see you later", "SEE-YOU LATER");
    ("goodbye", "GOODBYE");
    ("help", "HELP");
    ("water", "WATER");
    ("food", "FOOD");
    ("hospital", "HOSPITAL");
    ("doctor", "DOCTOR");
    ("school", "SCHOOL");
    ("work", "WORK");
    ("home", "HOME");
    ("family", "FAMILY") ].

(** One turn of the loop over the phrases of the table. *)
Definition replace_phrase (text_lower : string) (item : string * string)
    : string :=
  let '(phrase, gloss) := item in
  if Text.contains phrase text_lower
  then Text.replace phrase gloss text_lower
  else text_lower.

(** One turn of the loop over the words. *)
Definition gloss_word (word : string) : string :=
  let clean_word := Text.strip_chars ".,!?;:" word in
  match assoc clean_word gloss_mapping with
  | Some gloss => gloss
  | None => Str.upper clean_word
  end.

(** [text_to_isl_gloss]; the pause and the log line are left out. *)
Definition text_to_isl_gloss (text_tokens : string) : string :=
  let text_lower := Str.strip (Str.lower text_tokens) in
  match assoc text_lower gloss_mapping with
  | Some gloss => gloss
  | None =>
      let text_lower := fold_left replace_phrase gloss_mapping text_lower in
      let words := Str.split text_lower in
      let gloss_words := map gloss_word words in
      let result_gloss :=
        match gloss_words with
        | [] => Str.upper text_tokens
        | _ => Text.join " " gloss_words
        end in
      Text.replace " THE " " "
        (Text.replace " IS " " " (Text.replace " ARE " " " result_gloss))
  end.

(** *** No small letter leaves the translator *)

(** A text without any of the letters a to z. *)
Definition capital (s : string) : Prop :=
  Forall (fun c => Str.is_lower c = false) (list_ascii_of_string s).

Lemma upper_char_fixed (c : ascii) :
  Str.upper_char c = c -> Str.is_lower c = false.
Proof. by destruct c as [[] [] [] [] [] [] [] []]. Qed.

(** A text that [upper] leaves as it is has none of the letters a to z. *)
Lemma capitals_capital (s : string) : capitals s -> capital s.
Proof.
  induction s as [|c s IH]; [constructor|].
  intros (_ & Hc & Hs). constructor; [by apply upper_char_fixed|by apply IH].
Qed.

Lemma capitals_tail (c : ascii) (s : string) :
  capitals (String c s) -> capitals s.
Proof. by intros (_ & _ & Hs). Qed.

(** An ASCII text without small letters, as a test. *)
Definition capital_b (s : string) : bool :=
  forallb (fun c => ascii_char c && negb (Str.is_lower c))
          (list_ascii_of_string s).

Lemma capitals_ascii_app (a r : string) :
  capital_b a = true -> capitals r -> capitals (a +:+ r).
Proof.
  unfold capital_b. intros Ha Hr. induction a as [|c a IH]; [done|].
  cbn [list_ascii_of_string forallb] in Ha.
  apply andb_prop in Ha as [[Hc Hl]%andb_prop Ha].
  rewrite append_cons.
  apply capitals_cons_ascii; [done|by apply negb_true_iff|by apply IH].
Qed.

Lemma append_empty (s : string) : s +:+ EmptyString = s.
Proof. induction s as [|c s IH]; [done|]. by rewrite append_cons, IH. Qed.

Lemma capital_b_true (s : string) : capital_b s = true -> capitals s.
Proof.
  intros Hs. rewrite <- (append_empty s). by apply capitals_ascii_app.
Qed.

Lemma soft_head_app (a r : string) :
  soft_head a = true -> soft_head (a +:+ r) = true.
Proof. by destruct a. Qed.

Lemma upper_special_rigid (p image : string) :
  In (p, image) Str.upper_special -> rigid_string p = true.
Proof. intros Hin. apply (table_ok_spec _ _ _ _ upper_special_ok Hin). Qed.

(** What [replace] puts out begins with a character outside ASCII only
    where the text did, when the text put in begins with an ASCII
    character. *)
Lemma startswith_replace_aux (old new p : string) :
  soft_head new = true -> rigid_string p = true ->
  forall s, Str.startswith p (Text.replace_aux old new 0 s) = true ->
            Str.startswith p s = true.
Proof.
  intros Hnew. induction p as [|b p IH]; intros Hp s H; [done|].
  cbn [rigid_string list_ascii_of_string forallb] in Hp.
  apply andb_prop in Hp as [Hb Hp].
  destruct s as [|c s]; [done|].
  cbn [Text.replace_aux] in H.
  destruct (Str.startswith old (String c s)).
  - destruct new as [|h new]; [done|].
    rewrite append_cons in H. cbn [Str.startswith] in H.
    apply andb_prop in H as [Hbh _]. apply Ascii.eqb_eq in Hbh as <-.
    cbn [soft_head] in Hnew. by rewrite Hb in Hnew.
  - cbn [Str.startswith] in H |- *.
    apply andb_prop in H as [Hbc H]. rewrite Hbc. cbn [andb]. by apply IH.
Qed.

Lemma capitals_replace_aux (old new : string) :
  capital_b new = true -> soft_head new = true ->
  forall s skip, capitals s -> capitals (Text.replace_aux old new skip s).
Proof.
  intros Hnew Hsoft. induction s as [|c s IH]; intros skip Hs; [done|].
  pose proof (capitals_tail _ _ Hs) as Hs'.
  cbn [Text.replace_aux]. destruct skip as [|k]; [|by apply IH].
  destruct (Str.startswith old (String c s)) eqn:Eold.
  - apply capitals_ascii_app; [done|by apply IH].
  - destruct Hs as (Hsp & Hc & _).
    split; [|split; [done|by apply IH]].
    destruct (Str.special Str.upper_special
                (String c (Text.replace_aux old new 0 s)))
      as [[image n]|] eqn:E; [exfalso|done].
    apply special_Some in E as (q & Hq & Hstart).
    assert (Hout : Text.replace_aux old new 0 (String c s)
                   = String c (Text.replace_aux old new 0 s))
      by (cbn [Text.replace_aux]; by rewrite Eold).
    rewrite <- Hout in Hstart.
    apply (startswith_replace_aux old new q Hsoft
             (upper_special_rigid q image Hq)) in Hstart.
    by rewrite (special_None _ _ _ _ Hsp Hq) in Hstart.
Qed.

Lemma capitals_replace (o : ascii) (old new s : string) :
  capital_b new = true -> soft_head new = true ->
  capitals s -> capitals (Text.replace (String o old) new s).
Proof. intros Hnew Hsoft Hs. by apply capitals_replace_aux. Qed.

Lemma capitals_join (sep : string) (l : list string) :
  capital_b sep = true -> soft_head sep = true ->
  Forall capitals l -> capitals (Text.join sep l).
Proof.
  intros Hsep Hsoft. induction 1 as [|x l Hx Hl IH]; [done|].
  cbn [Text.join]. destruct l as [|y l]; [done|].
  apply capitals_app; [done| |by apply soft_head_app].
  by apply capitals_ascii_app.
Qed.

Lemma assoc_Forall {V} (P : V -> Prop) (d : list (string * V)) key v :
  Forall (fun item => P item.2) d -> assoc key d = Some v -> P v.
Proof.
  induction 1 as [|[k x] d Hx _ IH]; cbn [assoc]; [done|].
  destruct (String.eqb key k); [|done]. by intros [= <-].
Qed.

(** Every gloss of the table is in capitals. *)
Lemma gloss_mapping_capitals :
  Forall (fun item : string * string => capitals item.2) gloss_mapping.
Proof.
  assert (H : forallb (fun item : string * string => capital_b item.2)
                gloss_mapping = true) by reflexivity.
  rewrite forallb_forall in H.
  apply Forall_forall. intros item Hitem. apply capital_b_true, H.
  by apply list_elem_of_In.
Qed.

Lemma capitals_gloss_word (word : string) : capitals (gloss_word word).
Proof.
  unfold gloss_word.
  destruct (assoc _ gloss_mapping) as [gloss|] eqn:E.
  - exact (assoc_Forall capitals _ _ _ gloss_mapping_capitals E).
  - apply capitals_upper.
Qed.

(** The gloss made of the words of a text. *)
Lemma capitals_result_gloss (text_tokens text_lower : string) :
  capitals
    (Text.replace " THE " " "
       (Text.replace " IS " " "
          (Text.replace " ARE " " "
             match map gloss_word (Str.split text_lower) with
             | [] => Str.upper text_tokens
             | _ => Text.join " " (map gloss_word (Str.split text_lower))
             end))).
Proof.
  do 3 (apply capitals_replace; [reflexivity|reflexivity|]).
  assert (Hall : Forall capitals (map gloss_word (Str.split text_lower))).
  { apply Forall_forall. intros x [word [-> _]]%list_elem_of_fmap.
    apply capitals_gloss_word. }
  destruct (map gloss_word (Str.split text_lower)) as [|w ws];
    [apply capitals_upper|].
  by apply capitals_join.
Qed.

Lemma text_to_isl_gloss_cases (text_tokens : string) :
  (exists gloss,
     assoc (Str.strip (Str.lower text_tokens)) gloss_mapping = Some gloss
     /\ text_to_isl_gloss text_tokens = gloss)
  \/ exists text_lower,
       text_to_isl_gloss text_tokens
       = Text.replace " THE " " "
           (Text.replace " IS " " "
              (Text.replace " ARE " " "
                 match map gloss_word (Str.split text_lower) with
                 | [] => Str.upper text_tokens
                 | _ => Text.join " " (map gloss_word (Str.split text_lower))
                 end)).
Proof.
  unfold text_to_isl_gloss.
  destruct (assoc (Str.strip (Str.lower text_tokens)) gloss_mapping)
    as [gloss|]; [left; by exists gloss|].
  right. by eexists.
Qed.

Lemma capitals_text_to_isl_gloss (text_tokens : string) :
  capitals (text_to_isl_gloss text_tokens).
Proof.
  destruct (text_to_isl_gloss_cases text_tokens) as [(gloss & E & ->)|[tl ->]].
  - exact (assoc_Forall capitals _ _ _ gloss_mapping_capitals E).
  - apply capitals_result_gloss.
Qed.

Lemma string_of_list_ascii_snoc (l : list ascii) (c : ascii) (s : string) :
  string_of_list_ascii (l ++ [c]) +:+ s
  = string_of_list_ascii l +:+ String c s.
Proof.
  induction l as [|a l IH]; [done|].
  cbn [app string_of_list_ascii]. by rewrite !append_cons, IH.
Qed.

(** The words of a text that [upper] leaves as it is are such texts. *)
Lemma split_aux_capitals (s : string) :
  forall cur,
    capitals (string_of_list_ascii (rev cur) +:+ s) ->
    Forall capitals (Str.split_aux cur s).
Proof.
  induction s as [|c s IH]; intros cur H; cbn [Str.split_aux].
  - destruct cur as [|a cur]; [constructor|].
    constructor; [|constructor]. by apply capitals_prefix in H.
  - assert (Hs : capitals s)
      by (by apply capitals_suffix, capitals_tail in H).
    destruct (Str.is_space c).
    + destruct cur as [|a cur]; [by apply IH|].
      constructor; [by apply capitals_prefix in H|by apply IH].
    + apply IH. cbn [rev]. by rewrite string_of_list_ascii_snoc.
Qed.

(** X10.  Whatever the text, the gloss that [text_to_isl_gloss] returns has
    none of the letters a to z, and [upper] leaves it as it is; the same
    holds of every token that [_parse_gloss] makes of it.  The call of
    [upper] in the lookups of the engine therefore changes no token that
    comes from the translator. *)
Theorem translator_writes_capitals (text_tokens : string) :
  capital (text_to_isl_gloss text_tokens)
  /\ Str.upper (text_to_isl_gloss text_tokens) = text_to_isl_gloss text_tokens
  /\ Forall (fun word => Str.upper word = word)
       (_parse_gloss (text_to_isl_gloss text_tokens)).
Proof.
  pose proof (capitals_text_to_isl_gloss text_tokens) as Hc.
  split; [by apply capitals_capital|]. split; [by apply upper_capitals|].
  rewrite parse_gloss_split.
  eapply Forall_impl; [|intros word; apply upper_capitals].
  by apply split_aux_capitals.
Qed.

(** *** The case of an ASCII text does not matter *)

(** X11.  [text_to_isl_gloss] reads its argument through [lower] and, when
    the text has no word, through [upper]: an ASCII text in capitals and the
    same text in small letters get the gloss of the text itself. *)
Theorem translator_ignores_case (text_tokens : string) :
  Str.isascii text_tokens = true ->
  text_to_isl_gloss (Str.upper text_tokens) = text_to_isl_gloss text_tokens
  /\ text_to_isl_gloss (Str.lower text_tokens) = text_to_isl_gloss text_tokens.
Proof.
  intros Hascii. unfold text_to_isl_gloss.
  by rewrite (lower_upper _ Hascii), (lower_idem _ Hascii), upper_idem,
    (upper_lower _ Hascii).
Qed.

Lemma translator_ignores_case_witness :
  Str.isascii "Good Morning, Doctor!" = true
  /\ text_to_isl_gloss "GOOD MORNING, DOCTOR!" = "MORNING GOOD DOCTOR"
  /\ text_to_isl_gloss "good morning, doctor!"
     = text_to_isl_gloss "Good Morning, Doctor!".
Proof.
  destruct (translator_ignores_case "Good Morning, Doctor!" eq_refl)
    as [Hupper Hlower].
  split; [reflexivity|]. split; [reflexivity|]. exact Hlower.
Defined.

(** Outside ASCII the case can matter: the text h followed by the dotless i
    (U+0131) gets the gloss HI, and its upper-case form, HI, the gloss
    HELLO. *)
Lemma translator_case_outside_ascii :
  Str.upper ("h" +:+ Str.bytes [196; 177]%nat) = "HI"
  /\ text_to_isl_gloss ("h" +:+ Str.bytes [196; 177]%nat) = "HI"
  /\ text_to_isl_gloss (Str.upper ("h" +:+ Str.bytes [196; 177]%nat))
     = "HELLO".
Proof. repeat split. Qed.
